(** * The database registry of the SQL/policy playground (src/src/app.tsx)

    A shallow embedding of the zustand store [useDBStore] and of the
    statement composer [combine], followed by the properties of the
    store operations.

    Conventions of the embedding:
    - a JavaScript string is a [string] whose characters are code units
      in the range 0..255;
    - [Record<string, Database>] is a [gmap string Database] of the
      object's own entries; a lookup that finds no entry goes on to
      [Object.prototype], which has the twelve members it is born with
      ([inheritedName]).  These are objects outside the store: what a
      call writes on one of them stays with it, and what a call reads
      from it is answered by [inheritedProperty].  The panes of an entry
      and the fields of a response are read as own properties;
    - an [async] operation run to completion is a function from the
      answers of its collaborators ([Env]) and the current store to an
      outcome, the new store and the trace of external calls;
    - [set(recipe)] of the immer middleware commits the recipe's writes
      all at once, and commits nothing when the recipe throws. *)

From Stdlib Require Import ZArith Ascii String List.
From stdpp Require Import base option list gmap strings pretty.

Local Open Scope string_scope.

(** ** JavaScript strings *)

Module JsString.

(** The line feed written [\n] in the source. *)
Definition LF : string := String "010"%char "".

(** WhiteSpace and LineTerminator code units below 256: TAB, LF, VT, FF,
    CR, SP and NBSP. *)
Definition isWhiteSpace (c : ascii) : bool :=
  match c with
  | "009" | "010" | "011" | "012" | "013" | " " | "160" => true
  | _ => false
  end%char.

(** [s.trimEnd()] *)
Fixpoint trimEnd (s : string) : string :=
  match s with
  | "" => ""
  | String c r =>
      match trimEnd r with
      | "" => if isWhiteSpace c then "" else String c ""
      | r' => String c r'
      end
  end.

(** [s.trimStart()] *)
Fixpoint trimStart (s : string) : string :=
  match s with
  | "" => ""
  | String c r => if isWhiteSpace c then trimStart r else s
  end.

(** [s.trim()] *)
Definition trim (s : string) : string := trimStart (trimEnd s).

(** Relative index of [slice]: negative counts from the end, and the
    result is clamped to [0..len]. *)
Definition relativeIndex (len i : Z) : Z :=
  if (i <? 0)%Z then Z.max (len + i) 0 else Z.min i len.

(** [s.slice(b, e)]; [e = None] is the call with one argument. *)
Definition slice (s : string) (b : Z) (e : option Z) : string :=
  let len := Z.of_nat (String.length s) in
  let from := relativeIndex len b in
  let to := from_option (relativeIndex len) len e in
  substring (Z.to_nat from) (Z.to_nat (Z.max (to - from) 0)) s.

(** [s.endsWith(t)] *)
Definition endsWith (s t : string) : bool :=
  let ls := String.length s in
  let lt := String.length t in
  if (lt <=? ls)%nat then String.eqb (substring (ls - lt) lt s) t else false.

(** One code unit against a letter of a case-insensitive pattern:
    below 256 the only code units that canonicalize to an ASCII capital
    are the capital itself and its small letter. *)
Definition matchesIgnoreCase (small capital c : ascii) : bool :=
  Ascii.eqb c small || Ascii.eqb c capital.

(** Does [/where/i] match at the start of [s]? *)
Definition whereAtStart (s : string) : bool :=
  match s with
  | String c1 (String c2 (String c3 (String c4 (String c5 _)))) =>
      matchesIgnoreCase "w" "W" c1 && matchesIgnoreCase "h" "H" c2 &&
      matchesIgnoreCase "e" "E" c3 && matchesIgnoreCase "r" "R" c4 &&
      matchesIgnoreCase "e" "E" c5
  | _ => false
  end.

(** [/where/i.test(s)]: a match at some position of [s]. *)
Fixpoint testWhere (s : string) : bool :=
  match s with
  | "" => false
  | String _ r => whereAtStart s || testWhere r
  end.

End JsString.

Import JsString.

(** ** JavaScript values and errors *)

(** Values as [JSON.parse] builds them, plus [undefined].  A number is
    kept as the text that Number-to-String gives for it; an object lists
    its own properties. *)
#[warnings="-register-all"]
Inductive jsval : Type :=
  | JUndefined
  | JNull
  | JBool (b : bool)
  | JNum (text : string)
  | JStr (s : string)
  | JArr (elements : list jsval)
  | JObj (properties : list (string * jsval)).

(** Induction on a value, its elements and the values of its properties
    included. *)
Section Induction.

Context (P : jsval → Prop).
Context (onUndefined : P JUndefined) (onNull : P JNull).
Context (onBool : ∀ b, P (JBool b)) (onNum : ∀ text, P (JNum text)).
Context (onStr : ∀ s, P (JStr s)).
Context (onArr : ∀ elements, Forall P elements → P (JArr elements)).
Context (onObj : ∀ properties,
           Forall (λ property, P property.2) properties → P (JObj properties)).


End Induction.

Inductive js_error : Type :=
  | Error (message : string)
  | TypeError (message : string)
  | SyntaxError (message : string).

(** [(error as Error).message] *)
Definition message (e : js_error) : string :=
  match e with Error m | TypeError m | SyntaxError m => m end.

(** What the conversion of an object to a primitive throws when neither
    its [toString] nor its [valueOf] gives one. *)
Definition cannotConvert : js_error :=
  TypeError "Cannot convert object to primitive value".

(** [String(v)], as used by string concatenation and by [new Error(v)].
    An array is joined, [Array.prototype.toString]; an object is
    [[object Object]] by [Object.prototype.toString], unless it has a
    property [toString] of its own: a parsed value is never callable, the
    inherited [valueOf] gives the object back, and the conversion
    throws. *)
Fixpoint ToString (v : jsval) : js_error + string :=
  match v with
  | JUndefined => inr "undefined"
  | JNull => inr "null"
  | JBool true => inr "true"
  | JBool false => inr "false"
  | JNum text => inr text
  | JStr s => inr s
  | JArr elements =>
      (fix join (l : list jsval) : js_error + string :=
         match l with
         | [] => inr ""
         | x :: r =>
             match (match x with
                    | JUndefined | JNull => inr ""
                    | _ => ToString x
                    end) with
             | inl e => inl e
             | inr sx =>
                 match r with
                 | [] => inr sx
                 | _ =>
                     match join r with
                     | inl e => inl e
                     | inr sr => inr (sx +:+ "," +:+ sr)
                     end
                 end
             end
         end) elements
  | JObj properties =>
      if bool_decide ("toString" ∈ properties.*1)
      then inl cannotConvert
      else inr "[object Object]"
  end.

(** [!!v] *)
Definition ToBoolean (v : jsval) : bool :=
  match v with
  | JUndefined | JNull => false
  | JBool b => b
  | JNum text => negb (String.eqb text "0" || String.eqb text "NaN")
  | JStr s => negb (String.eqb s "")
  | JArr _ | JObj _ => true
  end.

(** Own property lookup on an object. *)
Fixpoint lookupProperty (k : string) (ps : list (string * jsval)) : jsval :=
  match ps with
  | [] => JUndefined
  | (k', v) :: r => if String.eqb k k' then v else lookupProperty k r
  end.

(** [v?.k] for the property names the store reads ([result], [query],
    [message]): none of them is a property of a primitive or of an array. *)
Definition optionalGet (v : jsval) (k : string) : jsval :=
  match v with
  | JObj ps => lookupProperty k ps
  | _ => JUndefined
  end.

(** The engine's errors, with the texts V8 gives them. *)
Definition readOfUndefined (prop : string) : js_error :=
  TypeError ("Cannot read properties of undefined (reading '" +:+ prop +:+ "')").
Definition writeOfUndefined (prop : string) : js_error :=
  TypeError ("Cannot set properties of undefined (setting '" +:+ prop +:+ "')").
Definition destructureOfUndefined (prop : string) : js_error :=
  TypeError ("Cannot destructure property '" +:+ prop
             +:+ "' of 'get(...).databases[connection.name]' as it is undefined.").
Definition notAFunction (what : string) : js_error :=
  TypeError (what +:+ " is not a function").
Definition inOfPrimitive (prop : string) (v : jsval) : js_error :=
  TypeError ("Cannot use 'in' operator to search for '" +:+ prop +:+ "' in "
             +:+ match ToString v with inr text => text | inl _ => "" end).

(** What [throw new Error(v)] throws: an [Error] with no message for
    [undefined] and with [String(v)] otherwise, or what that conversion
    throws. *)
Definition newError (v : jsval) : js_error :=
  match v with
  | JUndefined => Error ""
  | _ =>
      match ToString v with
      | inl e => e
      | inr text => Error text
      end
  end.

(** ["code" in v] *)
Definition codeIn (v : jsval) : js_error + bool :=
  match v with
  | JObj ps => inr (bool_decide ("code" ∈ ps.*1))
  | JArr _ => inr false
  | _ => inl (inOfPrimitive "code" v)
  end.

(** ** The statement composer *)

(** [v.slice(6)]: strings and arrays have the method. *)
Definition sliceFrom6 (v : jsval) : js_error + jsval :=
  match v with
  | JStr s => inr (JStr (slice s 6 None))
  | JArr elements => inr (JArr (drop 6 elements))
  | _ => inl (notAFunction "filter.slice")
  end.

(** [function combine(existing: string, filter: string | undefined): string].
    The filter comes out of the evaluation response, so the embedding
    takes any value for it: a string or [undefined] is the declared
    case. *)
Definition combine (existing : string) (filter : jsval) : js_error + string :=
  if negb (ToBoolean filter) then inr existing
  else
    let existing := trimEnd existing in
    let existing :=
      if endsWith existing ";" then slice existing 0 (Some (-1)%Z)
      else existing in
    match sliceFrom6 filter with
    | inl e => inl e
    | inr sansWhere =>
        match ToString sansWhere with
        | inl e => inl e
        | inr tail =>
            if testWhere existing
            then inr (existing +:+ LF +:+ "AND " +:+ tail)
            else inr (existing +:+ LF +:+ "WHERE " +:+ tail)
        end
    end.

(** ** The data model *)

(** The engine handle: [new PGlite(dataDir)] is a session of its own on
    the storage [dataDir], told from the other sessions by [instance]. *)
Record PGlite : Type := { dataDir : string; instance : N }.

(** One result set of [PGlite.exec], as far as the store reads it. *)
Module Results.
Record t : Type := { rows : list jsval; affectedRows : option Z }.
End Results.

Module Connection.
Record t : Type := { name : string; postgres : PGlite }.
End Connection.

Module QueryResult.
Record t : Type := { affectedRows : Z; totalRecords : option Z }.
End QueryResult.

Module QueryHistory.
Record t : Type := {
  error : option string;
  statement : string;
  statementWithFilter : option string;
  createdAt : option string;
  executionTime : option Z;
  results : option (list QueryResult.t)
}.
End QueryHistory.

Inductive TableType : Type := BASE_TABLE | VIEW.

Module TableColumn.
Record t : Type := {
  type : string; column : string; nullable : bool; length : option string
}.
End TableColumn.

Module Table.
Record t : Type := {
  table : string; type : TableType; columns : list TableColumn.t
}.
End Table.

Module DatabaseSchema.
Record t : Type := { schema : string; tables : list Table.t }.
End DatabaseSchema.

(** A row of the data grid ([DataGridValue<Cell>]). *)
Definition DataGridValue : Type := jsval.

Module Database.
Record t : Type := {
  name : string;
  createdAt : option string;
  description : option string;
  history : list QueryHistory.t;
  schema : list DatabaseSchema.t;
  erd : string;
  query : option string;
  rego : option string;
  input : jsval;
  data : jsval;
  evaluated : jsval;
  filter : jsval;
  datagrid : option (list DataGridValue)
}.
End Database.

(** The data part of the store ([State] without its methods). *)
Record State : Type := {
  active : option Connection.t;
  databases : gmap string Database.t
}.

(** ** The collaborators *)

(** [fetch(url, {method, body: JSON.stringify(json)})]: the body is kept
    as the value handed to [JSON.stringify]. *)
Module Request.
Record t : Type := { url : string; method : string; json : jsval }.
End Request.

(** A [fetch] response: [ok], [statusText], and what [json()] resolves
    to. *)
Module Response.
Record t : Type := {
  ok : bool; statusText : string; json : js_error + jsval
}.
End Response.

(** The calls that leave the store. *)
Inductive event : Type :=
  | Fetch (request : Request.t)
  | Exec (postgres : PGlite) (sql : string)
  | RemoveIDBItem (key : string).

(** What the collaborators answer during one operation.  The functions
    of [@/postgres/setup], [@/postgres/sample-data], [@/utils/idb] and
    [@/utils/postgres] are not part of the sources at hand and are taken
    as they come; [toLocaleString] is [new Date().toLocaleString()],
    [performance_now] the successive readings of the timer (in its
    resolution), [random_90000] is [Math.floor(Math.random() * 90000)];
    [newInstance] tells the session that [new PGlite] opens during the
    operation, and [inheritedProperty name p] is the property [p] of the
    member [name] of [Object.prototype] as the operation finds it. *)
Record Env : Type := {
  postgreIDBConnection : string → string;
  postgreIDBName : string → string;
  getDatabaseSchema : PGlite → js_error + list DatabaseSchema.t;
  generateMermaidErd : PGlite → js_error + string;
  exec : PGlite → string → js_error + list Results.t;
  getSampleDatabaseQuery : string → js_error + string;
  fetch : Request.t → js_error + Response.t;
  postgresTransformer : list Results.t → list DataGridValue;
  toLocaleString : string;
  performance_now : nat → Z;
  random_90000 : Z;
  newInstance : N;
  inheritedProperty : string → string → jsval
}.

(** ** Operations as store transformers *)

Module Outcome.
Record t (A : Type) : Type := {
  value : js_error + A;  (* rejected with, or resolved to *)
  store : State;         (* the store when the promise settles *)
  trace : list event     (* the external calls made, in order *)
}.
Arguments value {A}.
Arguments store {A}.
Arguments trace {A}.
End Outcome.

Definition M (A : Type) : Type := State → Outcome.t A.

Definition ret {A} (a : A) : M A :=
  λ s, {| Outcome.value := inr a; Outcome.store := s; Outcome.trace := [] |}.

Definition throw {A} (e : js_error) : M A :=
  λ s, {| Outcome.value := inl e; Outcome.store := s; Outcome.trace := [] |}.

Definition bind {A B} (m : M A) (k : A → M B) : M B :=
  λ s,
    let r := m s in
    match Outcome.value r with
    | inl e => {| Outcome.value := inl e; Outcome.store := Outcome.store r;
                  Outcome.trace := Outcome.trace r |}
    | inr a =>
        let r' := k a (Outcome.store r) in
        {| Outcome.value := Outcome.value r'; Outcome.store := Outcome.store r';
           Outcome.trace := Outcome.trace r ++ Outcome.trace r' |}
    end.

(** [try { m } catch (error) { h error }] *)
Definition try_catch {A} (m : M A) (h : js_error → M A) : M A :=
  λ s,
    let r := m s in
    match Outcome.value r with
    | inl e =>
        let r' := h e (Outcome.store r) in
        {| Outcome.value := Outcome.value r'; Outcome.store := Outcome.store r';
           Outcome.trace := Outcome.trace r ++ Outcome.trace r' |}
    | inr _ => r
    end.

(** [get()] *)
Definition get : M State :=
  λ s, {| Outcome.value := inr s; Outcome.store := s; Outcome.trace := [] |}.

(** [set(recipe)] under immer: the draft is committed when the recipe
    returns and dropped when it throws. *)
Definition set (recipe : State → js_error + State) : M unit :=
  λ s,
    match recipe s with
    | inl e => {| Outcome.value := inl e; Outcome.store := s; Outcome.trace := [] |}
    | inr s' => {| Outcome.value := inr tt; Outcome.store := s'; Outcome.trace := [] |}
    end.

(** An awaited collaborator: the call is traced and its answer taken. *)
Definition await {A} (call : list event) (answer : js_error + A) : M A :=
  λ s, {| Outcome.value := answer; Outcome.store := s; Outcome.trace := call |}.

Notation "'let*' x ':=' m 'in' k" := (bind m (λ x, k))
  (at level 10, x name, m at level 100, k at level 200, only parsing).

(** The own property names of [Object.prototype]: for each of them
    [databases[name]] is an object (a function, or [Object.prototype]
    itself for [__proto__]) even when [databases] has no such entry. *)
Definition inheritedName (name : string) : bool :=
  bool_decide (name ∈ ["constructor"; "__defineGetter__"; "__defineSetter__";
                       "hasOwnProperty"; "__lookupGetter__"; "__lookupSetter__";
                       "isPrototypeOf"; "propertyIsEnumerable"; "toString";
                       "valueOf"; "__proto__"; "toLocaleString"]).

(** [state.databases[name].p = ...; ...] inside a recipe, [p] being the
    first property written.  With no entry of its own under [name] the
    draft hands out what it inherits: the writes land on a member of
    [Object.prototype] and the draft stays as it is, or there is nothing
    and the first write is a [TypeError]. *)
Definition assign (name : string) (p : string) (f : Database.t → Database.t)
    (state : State) : js_error + State :=
  match databases state !! name with
  | Some db =>
      inr {| active := active state;
             databases := <[name := f db]> (databases state) |}
  | None =>
      if inheritedName name then inr state
      else inl (writeOfUndefined p)
  end.

(** The same, for writes that end with
    [state.databases[name].history.push(...)]: a member of
    [Object.prototype] has no [history] to push to. *)
Definition assignAndPush (name : string) (p : string)
    (f : Database.t → Database.t) (state : State) : js_error + State :=
  match databases state !! name with
  | Some db =>
      inr {| active := active state;
             databases := <[name := f db]> (databases state) |}
  | None =>
      if inheritedName name then inl (readOfUndefined "push")
      else inl (writeOfUndefined p)
  end.

(** ** The sample panes *)

Definition DQ : string := String "034"%char "".
Definition quoted (s : string) : string := DQ +:+ s +:+ DQ.

Definition defaultRego : string := "".

Definition rego_orders : string :=
  "package conditions
import rego.v1

filter[" +:+ quoted "users.name" +:+ "] := input.user
filter[" +:+ quoted "products.price" +:+ "] := {" +:+ quoted "lte"
  +:+ ": 500} if input.budget == " +:+ quoted "low" +:+ "

expanded := ucast.expand(filter)
query := ucast.as_sql(expanded, " +:+ quoted "postgres" +:+ ", {"
  +:+ quoted "users" +:+ ": {" +:+ quoted "$self" +:+ ": " +:+ quoted "u"
  +:+ "}, " +:+ quoted "products" +:+ ": {" +:+ quoted "$self" +:+ ": "
  +:+ quoted "p" +:+ "}})
".

Definition rego_schools : string :=
  "package conditions
import rego.v1

filter[" +:+ quoted "students.name" +:+ "] := input.user

expanded := ucast.expand(filter)
query := ucast.as_sql(expanded, " +:+ quoted "postgres" +:+ ", {"
  +:+ quoted "students" +:+ ": {" +:+ quoted "$self" +:+ ": " +:+ quoted "s1"
  +:+ "}})
".

Definition rego : list (string * string) :=
  [("orders", rego_orders); ("schools", rego_schools)].

Definition inputs : list (string * jsval) :=
  [("orders", JObj [("user", JStr "Emma Clark"); ("budget", JStr "low")]);
   ("schools", JObj [("user", JStr "Emma Johnson")])].

Definition defaultInput : jsval := JObj [].

Definition defaultSql : string := "SELECT * FROM information_schema.tables".

Definition sql : list (string * string) :=
  [("orders",
    "select u.name as user, p.name as product, p.price
from orders o
inner join users u on o.user_id = u.id
inner join order_items i on o.order_id = i.order_id
inner join products p on i.product_id = p.product_id
");
   ("schools",
    "SELECT DISTINCT s2.*
FROM student_subjects ss1
NATURAL JOIN students s1
JOIN student_subjects ss2 ON ss1.subject_id = ss2.subject_id
JOIN students s2 ON ss2.student_id = s2.student_id
")].

(** [table[key] || default], every entry of the tables being truthy. *)
Definition lookupOr {A} (table : list (string * A)) (key : string) (default : A) : A :=
  from_option id default (snd <$> List.find (λ kv, String.eqb key (fst kv)) table).

(** ** The store [useDBStore] *)

Section Store.

Context (env : Env).

Definition newDatabase (name : string) (description : option string)
    (query rego : string) (input : jsval)
    (erd : string) (schema : list DatabaseSchema.t) : Database.t :=
  {| Database.name := name;
     Database.description := description;
     Database.createdAt := Some (toLocaleString env);
     Database.query := Some query;
     Database.rego := Some rego;
     Database.input := input;
     Database.history := [];
     Database.erd := erd;
     Database.schema := schema;
     Database.data := JUndefined;
     Database.evaluated := JUndefined;
     Database.filter := JUndefined;
     Database.datagrid := None |}.

(** [new PGlite(dataDir)] *)
Definition newPGlite (dataDir : string) : PGlite :=
  {| dataDir := dataDir; instance := newInstance env |}.

(** [get().databases[name]] as a condition: an entry is truthy, and so is
    what the name inherits. *)
Definition known (s : State) (name : string) : bool :=
  bool_decide (is_Some (databases s !! name)) || inheritedName name.

Definition create (name : string) (description : option string) : M unit :=
  let* s := get in
  if known s name
  then throw (Error ("db with name: " +:+ name +:+ " already exists"))
  else
    let postgres := newPGlite (postgreIDBConnection env name) in
    let* schema := await [] (getDatabaseSchema env postgres) in
    let* erd := await [] (generateMermaidErd env postgres) in
    set (λ state,
      inr {| active := Some {| Connection.name := name;
                               Connection.postgres := postgres |};
             databases :=
               <[name := newDatabase name description
                           "SELECT * FROM information_schema.tables"
                           defaultRego defaultInput erd schema]>
                 (databases state) |}).

Definition update (name : string) (description : option string) : M unit :=
  set (assign name "description" (λ db,
    {| Database.name := Database.name db;
       Database.createdAt := Some (toLocaleString env);
       Database.description := description;
       Database.history := Database.history db;
       Database.schema := Database.schema db;
       Database.erd := Database.erd db;
       Database.query := Database.query db;
       Database.rego := Database.rego db;
       Database.input := Database.input db;
       Database.data := Database.data db;
       Database.evaluated := Database.evaluated db;
       Database.filter := Database.filter db;
       Database.datagrid := Database.datagrid db |})).

Definition import (key : string) (description : option string) : M unit :=
  let* sqlCreateQuery := await [] (getSampleDatabaseQuery env key) in
  let name := key +:+ "-" +:+ pretty (random_90000 env + 10000)%Z in
  let postgres := newPGlite (postgreIDBConnection env name) in
  let* _ := await [Exec postgres sqlCreateQuery]
                  (exec env postgres sqlCreateQuery) in
  let* schema := await [] (getDatabaseSchema env postgres) in
  let* erd := await [] (generateMermaidErd env postgres) in
  let tbl := key in
  let r := lookupOr rego tbl defaultRego in
  let s := lookupOr sql tbl defaultSql in
  let i := lookupOr inputs tbl defaultInput in
  set (λ state,
    inr {| active := Some {| Connection.name := name;
                             Connection.postgres := postgres |};
           databases :=
             <[name := newDatabase name description s r i erd schema]>
               (databases state) |}).

Definition remove (name : string) : M unit :=
  let* _ := set (λ state,
    inr {| active := None; databases := delete name (databases state) |}) in
  await [RemoveIDBItem (postgreIDBName env name)] (inr tt).

(** The two writes of [connect] and [reload]. *)
Definition withSchema (erd : string) (schema : list DatabaseSchema.t)
    (db : Database.t) : Database.t :=
  {| Database.name := Database.name db;
     Database.createdAt := Database.createdAt db;
     Database.description := Database.description db;
     Database.history := Database.history db;
     Database.schema := schema;
     Database.erd := erd;
     Database.query := Database.query db;
     Database.rego := Database.rego db;
     Database.input := Database.input db;
     Database.data := Database.data db;
     Database.evaluated := Database.evaluated db;
     Database.filter := Database.filter db;
     Database.datagrid := Database.datagrid db |}.

Definition connect (name : string) : M unit :=
  let postgres := newPGlite (postgreIDBConnection env name) in
  let* schema := await [] (getDatabaseSchema env postgres) in
  let* erd := await [] (generateMermaidErd env postgres) in
  set (λ state,
    assign name "erd" (withSchema erd schema)
      {| active := Some {| Connection.name := name;
                           Connection.postgres := postgres |};
         databases := databases state |}).

(** The request of [evaluate] for the EOPA Preview API. *)
Definition previewRequest (input data : jsval) (rego : string) : Request.t :=
  let req := JObj [("input", input);
                   ("data", data);
                   ("rego_modules", JObj [("main.rego", JStr rego)])] in
  {| Request.url := "/v0/preview/conditions";
     Request.method := "POST";
     Request.json := req |}.

(** The three writes of [evaluate]. *)
Definition withEvaluation (rego : string) (result : jsval)
    (db : Database.t) : Database.t :=
  {| Database.name := Database.name db;
     Database.createdAt := Database.createdAt db;
     Database.description := Database.description db;
     Database.history := Database.history db;
     Database.schema := Database.schema db;
     Database.erd := Database.erd db;
     Database.query := Database.query db;
     Database.rego := Some rego;
     Database.input := Database.input db;
     Database.data := Database.data db;
     Database.evaluated := optionalGet result "result";
     Database.filter := optionalGet (optionalGet result "result") "query";
     Database.datagrid := Database.datagrid db |}.

Definition evaluate (rego : string) : M jsval :=
  let* s := get in
  match active s with
  | None => throw (readOfUndefined "name")
  | Some connection =>
      let name := Connection.name connection in
      match
        match databases s !! name with
        | Some db => Some (Database.input db, Database.data db)
        | None =>
            if inheritedName name
            then Some (inheritedProperty env name "input",
                       inheritedProperty env name "data")
            else None
        end
      with
      | None => throw (destructureOfUndefined "input")
      | Some (input, data) =>
          let request := previewRequest input data rego in
          let* resp := await [Fetch request] (fetch env request) in
          if negb (Response.ok resp)
          then throw (Error ("EOPA: " +:+ Response.statusText resp))
          else
            let* result := await [] (Response.json resp) in
            let* isError := await [] (codeIn result) in
            if isError : bool
            then throw (newError (optionalGet result "message"))
            else
              let* _ := set (assign (Connection.name connection) "rego"
                               (withEvaluation rego result)) in
              ret result
      end
  end.

(** The writes of [execute] when the statement ran. *)
Definition withResult (query query0 createdAt : string) (startTime : Z)
    (result : list Results.t) (db : Database.t) : Database.t :=
  {| Database.name := Database.name db;
     Database.createdAt := Database.createdAt db;
     Database.description := Database.description db;
     Database.history :=
       Database.history db ++
       [{| QueryHistory.statement := query;
           QueryHistory.statementWithFilter := Some query0;
           QueryHistory.createdAt := Some createdAt;
           QueryHistory.executionTime :=
             Some (performance_now env 1 - startTime)%Z;
           QueryHistory.results :=
             Some ((λ r,
                {| QueryResult.affectedRows :=
                     from_option id 0%Z (Results.affectedRows r);
                   QueryResult.totalRecords :=
                     Some (Z.of_nat (length (Results.rows r))) |})
                <$> result);
           QueryHistory.error := None |}];
     Database.schema := Database.schema db;
     Database.erd := Database.erd db;
     Database.query := Some query;
     Database.rego := Database.rego db;
     Database.input := Database.input db;
     Database.data := Database.data db;
     Database.evaluated := Database.evaluated db;
     Database.filter := Database.filter db;
     Database.datagrid := Some (postgresTransformer env result) |}.

(** The writes of [execute] in its [catch] block. *)
Definition withFailure (query createdAt : string) (startTime : Z)
    (error : js_error) (db : Database.t) : Database.t :=
  {| Database.name := Database.name db;
     Database.createdAt := Database.createdAt db;
     Database.description := Database.description db;
     Database.history :=
       Database.history db ++
       [{| QueryHistory.statement := query;
           QueryHistory.statementWithFilter := None;
           QueryHistory.createdAt := Some createdAt;
           QueryHistory.error := Some (message error);
           QueryHistory.executionTime :=
             Some (performance_now env 1 - startTime)%Z;
           QueryHistory.results := None |}];
     Database.schema := Database.schema db;
     Database.erd := Database.erd db;
     Database.query := Some query;
     Database.rego := Database.rego db;
     Database.input := Database.input db;
     Database.data := Database.data db;
     Database.evaluated := Database.evaluated db;
     Database.filter := Database.filter db;
     Database.datagrid := Some [] |}.

(** [rego && (await get().evaluate(rego))?.result?.query] *)
Definition evalFilterOf (rego : option string) : M jsval :=
  match rego with
  | None => ret JUndefined
  | Some "" => ret (JStr "")
  | Some rego =>
      let* result := evaluate rego in
      ret (optionalGet (optionalGet result "result") "query")
  end.

Definition execute (query : string) (rego : option string)
    (filter : option bool) : M (list Results.t) :=
  let* s := get in
  let connection := active s in
  let startTime := performance_now env 0 in
  let createdAt := toLocaleString env in
  let* evalFilter := evalFilterOf rego in
  try_catch
    (if String.eqb query "" || String.eqb (trim query) ""
     then throw (Error "no query to run")
     else
       let* query0 :=
         if from_option id false filter
         then await [] (combine query evalFilter)
         else ret query in
       match connection with
       | None => throw (readOfUndefined "postgres")
       | Some connection =>
           let postgres := Connection.postgres connection in
           let* result := await [Exec postgres query0]
                                (exec env postgres query0) in
           let* _ := set (assignAndPush (Connection.name connection) "query"
                            (withResult query query0 createdAt startTime
                               result)) in
           ret result
       end)
    (λ error,
       let* _ := set (λ state,
         match connection with
         | None => inl (readOfUndefined "name")
         | Some connection =>
             assignAndPush (Connection.name connection) "query"
               (withFailure query createdAt startTime error) state
         end) in
       throw error).

Definition reload : M unit :=
  let* s := get in
  match active s with
  | None => throw (readOfUndefined "postgres")
  | Some connection =>
      let postgres := Connection.postgres connection in
      let* schema := await [] (getDatabaseSchema env postgres) in
      let* erd := await [] (generateMermaidErd env postgres) in
      set (assign (Connection.name connection) "erd" (withSchema erd schema))
  end.

End Store.

(** The store as [create<State>()] builds it. *)
Definition initialState : State := {| active := None; databases := ∅ |}.

(** The store as the persist middleware builds it from what it read and
    parsed from the storage: the persisted [databases] are put back and
    [active] is not. *)
Definition rehydrate (persisted : gmap string Database.t) : State :=
  {| active := None; databases := persisted |}.





(** ** Sequences of calls *)

Inductive call : Type :=
  | Create (name : string) (description : option string)
  | Update (name : string) (description : option string)
  | Import (key : string) (description : option string)
  | Remove (name : string)
  | Connect (name : string)
  | Evaluate (rego : string)
  | Execute (query : string) (rego : option string) (filter : option bool)
  | Reload.

(** A call other than a [connect] to a name that [databases] inherits
    from [Object.prototype]. *)
Definition ordinary (c : call) : bool :=
  match c with
  | Connect name => negb (inheritedName name)
  | _ => true
  end.

(** The store after one call, whether it resolved or was rejected. *)
Definition after (env : Env) (c : call) (s : State) : State :=
  match c with
  | Create name description => Outcome.store (create env name description s)
  | Update name description => Outcome.store (update env name description s)
  | Import key description => Outcome.store (import env key description s)
  | Remove name => Outcome.store (remove env name s)
  | Connect name => Outcome.store (connect env name s)
  | Evaluate rego => Outcome.store (evaluate env rego s)
  | Execute query rego filter => Outcome.store (execute env query rego filter s)
  | Reload => Outcome.store (reload env s)
  end.

(** Calls made one after the other, each with its own collaborators'
    answers. *)
Fixpoint run (calls : list (Env * call)) (s : State) : State :=
  match calls with
  | [] => s
  | (env, c) :: rest => run rest (after env c s)
  end.

(** ** Vocabulary of the properties *)

(** The registry invariant: [active], when present, names an entry of
    [databases]. *)
Definition activeExists (s : State) : Prop :=
  match active s with
  | None => True
  | Some connection => is_Some (databases s !! Connection.name connection)
  end.

(** An error of the store's own making, [throw new Error(...)], as its
    errors for a name that exists, for a blank statement and for a failed
    evaluation are; as against one that the engine raises while it runs
    the store's code (a [TypeError]) or the parser (a [SyntaxError]). *)
Definition thrownByStore (e : js_error) : Prop := ∃ message, e = Error message.

(** [m], started on the store [s], settles with [v] (rejected with an
    error or resolved to a value) and leaves the store [s']. *)
Definition settles {A} (m : M A) (s : State) (v : js_error + A) (s' : State)
    : Prop :=
  Outcome.value (m s) = v ∧ Outcome.store (m s) = s'.

(** [m] keeps the invariant, however it settles. *)
Definition preserves {A} (m : M A) : Prop :=
  ∀ s, activeExists s → activeExists (Outcome.store (m s)).

(** ASCII small letter of a code unit. *)
Definition toLowerASCII (c : ascii) : ascii :=
  let n := nat_of_ascii c in
  if (65 <=? n)%nat && (n <=? 90)%nat then ascii_of_nat (n + 32) else c.

Fixpoint lowercase (s : string) : string :=
  match s with
  | "" => ""
  | String c r => String (toLowerASCII c) (lowercase r)
  end.

(** [s] contains WHERE somewhere, in any mix of cases. *)
Definition containsWhere (s : string) : Prop :=
  ∃ pre w post, s = pre +:+ w +:+ post ∧ lowercase w = "where".

Fixpoint allWhiteSpace (s : string) : bool :=
  match s with
  | "" => true
  | String c r => isWhiteSpace c && allWhiteSpace r
  end.

(** White space and the terminator: code units that no letter of the
    pattern matches. *)
Definition inert (c : ascii) : bool := isWhiteSpace c || Ascii.eqb c ";".

Fixpoint allInert (s : string) : bool :=
  match s with
  | "" => true
  | String c r => inert c && allInert r
  end.

Definition endsWithWhiteSpace (s : string) : Prop :=
  ∃ b c, s = b +:+ String c "" ∧ isWhiteSpace c = true.

Definition endsWithTerminator (s : string) : Prop := ∃ b, s = b +:+ ";".

(** [base] is [existing] without its trailing white space and without
    one statement terminator that came before it. *)
Definition Stripped (existing base : string) : Prop :=
  ∃ ws, allWhiteSpace ws = true ∧
    (existing = base +:+ ";" +:+ ws ∨
     (existing = base +:+ ws ∧
      ¬ endsWithWhiteSpace base ∧ ¬ endsWithTerminator base)).

(** ** Collaborators for the worked examples *)

(** An engine and a policy service that answer the same to every call. *)
Definition constantEnv (response : js_error + Response.t)
    (executed : js_error + list Results.t) : Env :=
  {| postgreIDBConnection := λ name, "idb://" +:+ name;
     postgreIDBName := λ name, "/pglite/" +:+ name;
     getDatabaseSchema := λ _, inr [];
     generateMermaidErd := λ _, inr "erDiagram";
     exec := λ _ _, executed;
     getSampleDatabaseQuery := λ _, inr "CREATE TABLE t (x int)";
     fetch := λ _, response;
     postgresTransformer := λ rs, rs ≫= Results.rows;
     toLocaleString := "11/2/2026, 9:00:00 AM";
     performance_now := λ n, (1000 + 7 * Z.of_nat n)%Z;
     random_90000 := 2345%Z;
     newInstance := 1%N;
     inheritedProperty := λ _ _, JUndefined |}.

Definition badRule : jsval :=
  JObj [("code", JStr "invalid"); ("message", JStr "bad rule")].

Definition lowPrices : jsval :=
  JObj [("result", JObj [("query", JStr "WHERE products.price <= 500")])].

Definition answered (ok : bool) (statusText : string) (body : jsval)
    : js_error + Response.t :=
  inr {| Response.ok := ok; Response.statusText := statusText;
         Response.json := inr body |}.

Definition oneRow : list Results.t :=
  [{| Results.rows := [JObj [("name", JStr "pen")]];
      Results.affectedRows := None |}].

(** The service answers with a filter and the engine with one row. *)
Definition shop : Env := constantEnv (answered true "OK" lowPrices) (inr oneRow).

(** The engine rejects the statement. *)
Definition brokenEngine : Env :=
  constantEnv (answered true "OK" lowPrices)
    (inl (Error "syntax error at or near SELEC")).

(** The service reports a bad rule. *)
Definition strictService : Env :=
  constantEnv (answered true "OK" badRule) (inr oneRow).

(** The same collaborators some time later: the clock has moved on. *)
Definition later (env : Env) : Env :=
  {| postgreIDBConnection := postgreIDBConnection env;
     postgreIDBName := postgreIDBName env;
     getDatabaseSchema := getDatabaseSchema env;
     generateMermaidErd := generateMermaidErd env;
     exec := exec env;
     getSampleDatabaseQuery := getSampleDatabaseQuery env;
     fetch := fetch env;
     postgresTransformer := postgresTransformer env;
     toLocaleString := "11/2/2026, 9:00:01 AM";
     performance_now := λ n, (performance_now env n + 300)%Z;
     random_90000 := random_90000 env;
     newInstance := newInstance env;
     inheritedProperty := inheritedProperty env |}.

(** The store after [create] of the database [orders]. *)
Definition ordersStore : State :=
  Outcome.store (create shop "orders" None initialState).

Definition ordersConnection : Connection.t :=
  {| Connection.name := "orders";
     Connection.postgres := {| dataDir := "idb://orders"; instance := 1 |} |}.

Definition ordersDatabase : Database.t :=
  newDatabase shop "orders" None "SELECT * FROM information_schema.tables"
    defaultRego defaultInput "erDiagram" [].

(** ** The playground's handlers (the component [RegoEditor]) *)

(** What the handlers show when a call settles:
    [toast.success(message, {duration})] or [toast.error(...)]. *)
Inductive toast : Type :=
  | ToastSuccess (message : string) (duration : Z)
  | ToastError (message : string) (duration : Z).

Section Playground.

Context (env : Env).

(** [JSON.parse], taken as it comes: the parsed value or the error. *)
Context (JSON_parse : string → js_error + jsval).

(** One write [state.databases[name].p = v] of a handler. *)
Definition withRego (rego : option string) (db : Database.t) : Database.t :=
  {| Database.name := Database.name db;
     Database.createdAt := Database.createdAt db;
     Database.description := Database.description db;
     Database.history := Database.history db;
     Database.schema := Database.schema db;
     Database.erd := Database.erd db;
     Database.query := Database.query db;
     Database.rego := rego;
     Database.input := Database.input db;
     Database.data := Database.data db;
     Database.evaluated := Database.evaluated db;
     Database.filter := Database.filter db;
     Database.datagrid := Database.datagrid db |}.

Definition withQuery (query : option string) (db : Database.t) : Database.t :=
  {| Database.name := Database.name db;
     Database.createdAt := Database.createdAt db;
     Database.description := Database.description db;
     Database.history := Database.history db;
     Database.schema := Database.schema db;
     Database.erd := Database.erd db;
     Database.query := query;
     Database.rego := Database.rego db;
     Database.input := Database.input db;
     Database.data := Database.data db;
     Database.evaluated := Database.evaluated db;
     Database.filter := Database.filter db;
     Database.datagrid := Database.datagrid db |}.

Definition withInput (input : jsval) (db : Database.t) : Database.t :=
  {| Database.name := Database.name db;
     Database.createdAt := Database.createdAt db;
     Database.description := Database.description db;
     Database.history := Database.history db;
     Database.schema := Database.schema db;
     Database.erd := Database.erd db;
     Database.query := Database.query db;
     Database.rego := Database.rego db;
     Database.input := input;
     Database.data := Database.data db;
     Database.evaluated := Database.evaluated db;
     Database.filter := Database.filter db;
     Database.datagrid := Database.datagrid db |}.

Definition withData (data : jsval) (db : Database.t) : Database.t :=
  {| Database.name := Database.name db;
     Database.createdAt := Database.createdAt db;
     Database.description := Database.description db;
     Database.history := Database.history db;
     Database.schema := Database.schema db;
     Database.erd := Database.erd db;
     Database.query := Database.query db;
     Database.rego := Database.rego db;
     Database.input := Database.input db;
     Database.data := data;
     Database.evaluated := Database.evaluated db;
     Database.filter := Database.filter db;
     Database.datagrid := Database.datagrid db |}.

(** [s.databases[s.active!.name].p = ...] as a recipe. *)
Definition assignActive (p : string) (f : Database.t → Database.t)
    (s : State) : js_error + State :=
  match active s with
  | None => inl (readOfUndefined "name")
  | Some connection => assign (Connection.name connection) p f s
  end.

Definition setRego (rego : option string) : M unit :=
  set (assignActive "rego" (withRego rego)).

Definition setQuery (query : option string) : M unit :=
  set (assignActive "query" (withQuery query)).

(** [text ? JSON.parse(text) : {}] *)
Definition parseOrEmpty (text : option string) : js_error + jsval :=
  match text with
  | None | Some "" => inr (JObj [])
  | Some text => JSON_parse text
  end.

(** [try { s.databases[s.active!.name].p = text ? JSON.parse(text) : {} }
    catch (_) {}]: the target is looked up, then the text is parsed, then
    the write is made; whatever is thrown on the way is dropped. *)
Definition assignParsed (p : string) (f : jsval → Database.t → Database.t)
    (text : option string) (s : State) : js_error + State :=
  let attempt :=
    match active s with
    | None => inl (readOfUndefined "name")
    | Some connection =>
        match parseOrEmpty text with
        | inl e => inl e
        | inr value => assign (Connection.name connection) p (f value) s
        end
    end in
  match attempt with
  | inl _ => inr s
  | inr s' => inr s'
  end.

Definition setInput (input : option string) : M unit :=
  set (assignParsed "input" withInput input).

Definition setData (data : option string) : M unit :=
  set (assignParsed "data" withData data).

(** [promise.then(() => toast.success("completed", { duration: 500 }))
            .catch((err) => toast.error(err.message, { duration: 2000 }))] *)
Definition toasted {A} (promise : M A) : M toast :=
  try_catch
    (let* _ := promise in ret (ToastSuccess "completed" 500))
    (λ err, ret (ToastError (message err) 2000)).

(** [query && execute(query)...]: nothing for an absent or empty query. *)
Definition runAllQuery (query : option string) : M (option toast) :=
  match query with
  | None | Some "" => ret None
  | Some query =>
      let* shown := toasted (execute env query None None) in ret (Some shown)
  end.

Definition runAllQueryFiltered (query rego : option string) : M (option toast) :=
  match query with
  | None | Some "" => ret None
  | Some query =>
      let* shown := toasted (execute env query rego (Some true)) in
      ret (Some shown)
  end.

Definition evalQuery (rego : option string) : M (option toast) :=
  match rego with
  | None | Some "" => ret None
  | Some rego =>
      let* shown := toasted (evaluate env rego) in ret (Some shown)
  end.

(** [disabled={text == undefined || text.trim().length === 0}] of the Run
    and Evaluate buttons. *)
Definition disabled (text : option string) : bool :=
  match text with
  | None => true
  | Some text => (String.length (trim text) =? 0)%nat
  end.

End Playground.



(** Every entry is stored under its own name. *)
Definition namesCoherent (s : State) : Prop :=
  ∀ key db, databases s !! key = Some db → Database.name db = key.

(** The calls that can drop an entry or start it afresh. *)
Definition replaces (c : call) : bool :=
  match c with
  | Remove _ | Import _ _ => true
  | _ => false
  end.

(** The error a call is rejected with, if it is. *)
Definition rejection (env : Env) (c : call) (s : State) : option js_error :=
  let error {A} (v : js_error + A) : option js_error :=
    match v with inl e => Some e | inr _ => None end in
  match c with
  | Create name description => error (Outcome.value (create env name description s))
  | Update name description => error (Outcome.value (update env name description s))
  | Import key description => error (Outcome.value (import env key description s))
  | Remove name => error (Outcome.value (remove env name s))
  | Connect name => error (Outcome.value (connect env name s))
  | Evaluate rego => error (Outcome.value (evaluate env rego s))
  | Execute query rego filter =>
      error (Outcome.value (execute env query rego filter s))
  | Reload => error (Outcome.value (reload env s))
  end.

(** The name [import] makes for a sample:
    [`${data.key}-${Math.floor(Math.random() * 90000) + 10000}`]. *)
Definition importName (env : Env) (key : string) : string :=
  key +:+ "-" +:+ pretty (random_90000 env + 10000)%Z.

(** With [connection] active, [s'] differs from [s] at most in the entry
    of that connection, which is still there under its name with a
    history that continues the one it had. *)
Definition touchesOnly (connection : Connection.t) (s s' : State) : Prop :=
  active s = Some connection →
  active s' = Some connection
  ∧ (∀ other, other ≠ Connection.name connection →
       databases s' !! other = databases s !! other)
  ∧ (∀ db, databases s !! Connection.name connection = Some db →
       ∃ db', databases s' !! Connection.name connection = Some db'
              ∧ Database.name db' = Database.name db
              ∧ Database.history db `prefix_of` Database.history db').

(** [m] takes every store to one related to it by [R]. *)
Definition maintains (R : State → State → Prop) {A} (m : M A) : Prop :=
  ∀ s, R s (Outcome.store (m s)).

(** [m] keeps the property [P] of the store. *)
Definition keeps (P : State → Prop) {A} (m : M A) : Prop :=
  ∀ s, P s → P (Outcome.store (m s)).

(** Every entry of [s] is still in [s'], under its name, with a history
    that continues the one it had. *)
Definition continues (s s' : State) : Prop :=
  ∀ name db, databases s !! name = Some db →
    ∃ db', databases s' !! name = Some db'
           ∧ Database.name db' = Database.name db
           ∧ Database.history db `prefix_of` Database.history db'.

(** * Properties *)

(** ** Strings *)

Section StringFacts.

Local Ltac by_cases_on c := destruct c as [[] [] [] [] [] [] [] []]; done.

Lemma app_cons c (s t : string) : String c s +:+ t = String c (s +:+ t).
Proof. reflexivity. Qed.

Lemma app_empty_r (s : string) : s +:+ "" = s.
Proof. induction s as [|c s IH]; [done|]. by rewrite app_cons, IH. Qed.

Lemma app_assoc' (s t u : string) : (s +:+ t) +:+ u = s +:+ t +:+ u.
Proof. induction s as [|c s IH]; [done|]. by rewrite !app_cons, IH. Qed.

Lemma length_app (s t : string) :
  String.length (s +:+ t) = (String.length s + String.length t)%nat.
Proof. induction s as [|c s IH]; [done|]. rewrite app_cons. simpl. by rewrite IH. Qed.

Lemma substring_all (s : string) : substring 0 (String.length s) s = s.
Proof. induction s as [|c s IH]; [done|]. simpl. by rewrite IH. Qed.

Lemma substring_after (p r : string) :
  substring (String.length p) (String.length r) (p +:+ r) = r.
Proof. induction p as [|c p IH]; [apply substring_all|]. by rewrite app_cons. Qed.

Lemma substring_before (p r : string) :
  substring 0 (String.length p) (p +:+ r) = p.
Proof.
  induction p as [|c p IH]; [by destruct r|].
  rewrite app_cons. simpl. by rewrite IH.
Qed.

Lemma substring_split (n : nat) (s : string) :
  (n ≤ String.length s)%nat →
  s = substring 0 n s +:+ substring n (String.length s - n) s.
Proof.
  revert n. induction s as [|c s IH]; intros [|n] Hn; simpl in *; try lia.
  - done.
  - by rewrite substring_all.
  - rewrite app_cons. f_equal. apply IH. lia.
Qed.

(** [slice(6)] drops a prefix of six code units. *)
Lemma slice_6 (prefix rest : string) :
  String.length prefix = 6%nat → slice (prefix +:+ rest) 6 None = rest.
Proof.
  intros Hp. unfold slice, relativeIndex. simpl.
  rewrite length_app, Hp.
  replace (Z.to_nat (6 `min` Z.of_nat (6 + String.length rest)))
    with (String.length prefix) by lia.
  replace (Z.to_nat _) with (String.length rest) by lia.
  apply substring_after.
Qed.

(** [slice(0, -1)] drops the last code unit. *)
Lemma slice_0_m1 (b : string) c : slice (b +:+ String c "") 0 (Some (-1)%Z) = b.
Proof.
  unfold slice, relativeIndex. simpl.
  rewrite length_app. simpl.
  replace (Z.to_nat (0 `min` _)) with 0%nat by lia.
  replace (Z.to_nat _) with (String.length b) by lia.
  apply substring_before.
Qed.

Lemma endsWith_terminator (s : string) :
  endsWith s ";" = true ↔ endsWithTerminator s.
Proof.
  unfold endsWith, endsWithTerminator. split.
  - destruct (String.length s) as [|n] eqn:Hl; [done|].
    intros Heq%String.eqb_eq.
    exists (substring 0 n s).
    simpl in Heq. replace (n - 0)%nat with n in Heq by lia.
    rewrite <- Heq.
    replace 1%nat with (String.length s - n)%nat by lia.
    apply substring_split. lia.
  - intros [b ->]. rewrite length_app. simpl.
    replace (String.length b + 1)%nat with (S (String.length b)) by lia.
    replace (S (String.length b) - 1)%nat with (String.length b) by lia.
    change 1%nat with (String.length ";").
    by rewrite substring_after.
Qed.

Lemma trimEnd_cons c (r : string) :
  trimEnd (String c r) =
    if String.eqb (trimEnd r) "" && isWhiteSpace c then ""
    else String c (trimEnd r).
Proof. simpl. destruct (trimEnd r); simpl; by destruct (isWhiteSpace c). Qed.

(** [trimEnd] removes a white-space suffix... *)
Lemma trimEnd_suffix (s : string) :
  ∃ ws, allWhiteSpace ws = true ∧ s = trimEnd s +:+ ws.
Proof.
  induction s as [|c r (ws & Hws & Hr)]; [by exists ""|].
  rewrite trimEnd_cons.
  destruct (String.eqb_spec (trimEnd r) "") as [He|_]; simpl.
  - destruct (isWhiteSpace c) eqn:Hc.
    + exists (String c r). split; [|done]. simpl. rewrite Hc. simpl.
      rewrite Hr, He. done.
    + exists ws. split; [done|]. rewrite app_cons. by f_equal.
  - exists ws. split; [done|]. rewrite app_cons. by f_equal.
Qed.

Lemma app_eq_empty (s t : string) : s +:+ t = "" → s = "" ∧ t = "".
Proof. destruct s; [by destruct t|done]. Qed.

(** ... and the whole of it. *)
Lemma trimEnd_maximal (s : string) : ¬ endsWithWhiteSpace (trimEnd s).
Proof.
  induction s as [|c r IH]; intros (b & d & Hb & Hd).
  - by destruct b.
  - rewrite trimEnd_cons in Hb.
    destruct (String.eqb_spec (trimEnd r) "") as [He|Hne]; simpl in Hb.
    + destruct (isWhiteSpace c) eqn:Hc; [by destruct b|].
      rewrite He in Hb. destruct b as [|b0 b].
      * change ("" +:+ String d "") with (String d "") in Hb.
        injection Hb as ->. congruence.
      * rewrite app_cons in Hb. injection Hb as _ Hb. by destruct b.
    + destruct b as [|b0 b].
      * change ("" +:+ String d "") with (String d "") in Hb.
        injection Hb as _ Hb. done.
      * rewrite app_cons in Hb. injection Hb as _ Hb. apply IH. by exists b, d.
Qed.

Lemma Stripped_after_trim (existing : string) :
  Stripped existing
    (if endsWith (trimEnd existing) ";"
     then slice (trimEnd existing) 0 (Some (-1)%Z)
     else trimEnd existing).
Proof.
  destruct (trimEnd_suffix existing) as (ws & Hws & Hs).
  pose proof (trimEnd_maximal existing) as Hmax.
  exists ws. split; [done|].
  destruct (endsWith (trimEnd existing) ";") eqn:He.
  - left. apply endsWith_terminator in He as [b Hb].
    rewrite Hb, slice_0_m1. rewrite Hs at 1. by rewrite Hb, app_assoc'.
  - right. split_and!; [done..|].
    intros Ht%endsWith_terminator. congruence.
Qed.

Lemma inert_matches_none (c : ascii) :
  inert c = true →
  matchesIgnoreCase "w" "W" c = false ∧ matchesIgnoreCase "h" "H" c = false ∧
  matchesIgnoreCase "e" "E" c = false ∧ matchesIgnoreCase "r" "R" c = false.
Proof. by_cases_on c. Qed.

Lemma whereAtStart_inert (t : string) :
  allInert t = true → whereAtStart t = false.
Proof.
  destruct t as [|c t]; [done|]. simpl.
  intros [Hc _]%andb_true_iff.
  apply inert_matches_none in Hc as (-> & _).
  by repeat case_match.
Qed.

Lemma whereAtStart_app_inert (x t : string) :
  allInert t = true → whereAtStart (x +:+ t) = whereAtStart x.
Proof.
  intros Ht.
  assert (∀ c t', t = String c t' →
            matchesIgnoreCase "w" "W" c = false ∧
            matchesIgnoreCase "h" "H" c = false ∧
            matchesIgnoreCase "e" "E" c = false ∧
            matchesIgnoreCase "r" "R" c = false) as Hhd.
  { intros c t' ->. simpl in Ht. apply andb_true_iff in Ht as [Hc _].
    by apply inert_matches_none. }
  destruct x as [|c1 [|c2 [|c3 [|c4 [|c5 x]]]]];
    rewrite ?app_cons; change ("" +:+ t) with t; [..|done];
    (destruct t as [|d t]; [done|]);
    destruct (Hhd d t eq_refl) as (Hw & Hh & He & Hr); simpl;
    rewrite ?Hw, ?Hh, ?He, ?Hr, ?andb_false_r; try done;
    by repeat case_match.
Qed.

Lemma testWhere_inert (t : string) : allInert t = true → testWhere t = false.
Proof.
  induction t as [|c t IH]; [done|]. intros Ht.
  change (testWhere (String c t)) with (whereAtStart (String c t) || testWhere t).
  rewrite whereAtStart_inert by done.
  simpl in Ht. apply andb_true_iff in Ht as [_ Ht]. by rewrite IH.
Qed.

(** A suffix of white space and terminators neither adds nor removes a
    match of the pattern. *)
Lemma testWhere_app_inert (x t : string) :
  allInert t = true → testWhere (x +:+ t) = testWhere x.
Proof.
  intros Ht. induction x as [|c x IH].
  - change ("" +:+ t) with t. by rewrite testWhere_inert.
  - rewrite app_cons.
    change (testWhere (String c (x +:+ t)))
      with (whereAtStart (String c (x +:+ t)) || testWhere (x +:+ t)).
    rewrite <- app_cons, whereAtStart_app_inert, IH by done. done.
Qed.

Lemma allWhiteSpace_inert (ws : string) :
  allWhiteSpace ws = true → allInert ws = true.
Proof.
  induction ws as [|c ws IH]; [done|]. simpl. unfold inert.
  intros [-> ?]%andb_true_iff. simpl. auto.
Qed.

Lemma testWhere_Stripped (existing base : string) :
  Stripped existing base → testWhere base = testWhere existing.
Proof.
  intros (ws & Hws%allWhiteSpace_inert & [-> | (-> & _)]).
  - by rewrite testWhere_app_inert.
  - by rewrite testWhere_app_inert.
Qed.

Lemma matchesIgnoreCase_lower (small capital c : ascii) :
  (small, capital) ∈ [("w", "W"); ("h", "H"); ("e", "E"); ("r", "R")]%char →
  matchesIgnoreCase small capital c = true ↔ toLowerASCII c = small.
Proof.
  intros Hin. repeat (apply elem_of_cons in Hin as [[= -> ->]|Hin]);
    [by_cases_on c..|by apply elem_of_nil in Hin].
Qed.

Lemma whereAtStart_spec (s : string) :
  whereAtStart s = true ↔ ∃ w post, s = w +:+ post ∧ lowercase w = "where".
Proof.
  split.
  - destruct s as [|c1 [|c2 [|c3 [|c4 [|c5 post]]]]]; try done. simpl.
    rewrite !andb_true_iff.
    rewrite !matchesIgnoreCase_lower by set_solver.
    intros ((((H1 & H2) & H3) & H4) & H5).
    exists (String c1 (String c2 (String c3 (String c4 (String c5 ""))))), post.
    split; [done|]. simpl. by rewrite H1, H2, H3, H4, H5.
  - intros (w & post & -> & Hw).
    destruct w as [|c1 [|c2 [|c3 [|c4 [|c5 [|c6 w]]]]]]; try done.
    simpl in Hw. injection Hw as H1 H2 H3 H4 H5.
    rewrite !app_cons. simpl.
    rewrite !andb_true_iff, !matchesIgnoreCase_lower by set_solver. done.
Qed.

(** The test of the source is the containment of the keyword. *)
Lemma testWhere_spec (s : string) : testWhere s = true ↔ containsWhere s.
Proof.
  unfold containsWhere. induction s as [|c s IH].
  - split; [done|]. intros (pre & w & post & Hs & Hw).
    symmetry in Hs. apply app_eq_empty in Hs as [_ Hs].
    apply app_eq_empty in Hs as [-> _]. done.
  - change (testWhere (String c s))
      with (whereAtStart (String c s) || testWhere s).
    rewrite orb_true_iff, whereAtStart_spec, IH. split.
    + intros [(w & post & Hs & Hw)|(pre & w & post & Hs & Hw)].
      * by exists "", w, post.
      * exists (String c pre), w, post. rewrite app_cons. by rewrite Hs.
    + intros ([|c' pre] & w & post & Hs & Hw).
      * left. by exists w, post.
      * right. rewrite app_cons in Hs. injection Hs as _ Hs.
        by exists pre, w, post.
Qed.

Lemma trimEnd_all_white (ws : string) : allWhiteSpace ws = true → trimEnd ws = "".
Proof.
  induction ws as [|c ws IH]; [done|]. simpl.
  intros [-> Hws]%andb_true_iff. by rewrite IH.
Qed.

Lemma trimEnd_app_white (x ws : string) :
  allWhiteSpace ws = true → trimEnd (x +:+ ws) = trimEnd x.
Proof.
  intros Hws. induction x as [|c x IH].
  - change ("" +:+ ws) with ws. by rewrite trimEnd_all_white.
  - by rewrite app_cons, !trimEnd_cons, IH.
Qed.

Lemma trimEnd_fixed (x : string) : ¬ endsWithWhiteSpace x → trimEnd x = x.
Proof.
  induction x as [|c r IH]; [done|]. intros Hx.
  rewrite trimEnd_cons. destruct r as [|c' r'].
  - simpl. destruct (isWhiteSpace c) eqn:Hc; [|done].
    destruct Hx. by exists "", c.
  - rewrite IH.
    + done.
    + intros (b & d & Hb & Hd). apply Hx. exists (String c b), d.
      by rewrite app_cons, Hb.
Qed.

Lemma app_terminator_inj (b1 b2 : string) : b1 +:+ ";" = b2 +:+ ";" → b1 = b2.
Proof.
  revert b2. induction b1 as [|c b1 IH]; intros [|c2 b2] Hb; [done|..].
  - rewrite app_cons in Hb. change ("" +:+ ";") with ";" in Hb.
    injection Hb as _ Hb. symmetry in Hb. by apply app_eq_empty in Hb as [_ ?].
  - rewrite app_cons in Hb. change ("" +:+ ";") with ";" in Hb.
    injection Hb as _ Hb. by apply app_eq_empty in Hb as [_ ?].
  - rewrite !app_cons in Hb. injection Hb as -> Hb. f_equal. by apply IH.
Qed.

(** [Stripped] describes exactly what the first two steps of [combine]
    compute. *)
Lemma Stripped_unique (existing base : string) :
  Stripped existing base →
  base = if endsWith (trimEnd existing) ";"
         then slice (trimEnd existing) 0 (Some (-1)%Z)
         else trimEnd existing.
Proof.
  intros (ws & Hws & [-> | (-> & Hw & Ht)]).
  - rewrite <- app_assoc', trimEnd_app_white by done.
    rewrite trimEnd_fixed.
    + assert (endsWith (base +:+ ";") ";" = true) as ->
        by (apply endsWith_terminator; by exists base).
      by rewrite slice_0_m1.
    + intros (b & d & Hb & Hd).
      assert (String d "" = ";") as [= ->]; [|done].
      clear -Hb. revert b Hb.
      induction base as [|c base IH]; intros [|c2 b] Hb.
      * by injection Hb.
      * rewrite app_cons in Hb. change ("" +:+ ";") with ";" in Hb.
        injection Hb as _ Hb. symmetry in Hb.
        by apply app_eq_empty in Hb as [_ ?].
      * rewrite app_cons in Hb. change ("" +:+ String d "") with (String d "") in Hb.
        injection Hb as _ Hb. by apply app_eq_empty in Hb as [_ ?].
      * rewrite !app_cons in Hb. injection Hb as _ Hb. by apply (IH b).
  - rewrite trimEnd_app_white, trimEnd_fixed by done.
    destruct (endsWith base ";") eqn:He; [|done].
    by apply endsWith_terminator in He.
Qed.

End StringFacts.

(** ** The statement composer *)

(** What [combine] returns for a string filter that is not empty. *)
Lemma combine_string (existing filter base : string) :
  filter ≠ "" →
  Stripped existing base →
  combine existing (JStr filter)
  = inr (base +:+ LF +:+ (if testWhere existing then "AND " else "WHERE ")
              +:+ slice filter 6 None).
Proof.
  intros Hf Hb. unfold combine. simpl.
  destruct (String.eqb_spec filter "") as [|_]; [done|]. simpl.
  rewrite <- (Stripped_unique _ _ Hb), (testWhere_Stripped _ _ Hb).
  by destruct (testWhere existing).
Qed.

Lemma prefixed_nonempty (prefix rest : string) :
  String.length prefix = 6%nat → prefix +:+ rest ≠ "".
Proof. by destruct prefix. Qed.


(** C6. When the statement already contains WHERE, in any mix of cases
    and anywhere, and the filter is WHERE followed by a condition,
    [combine] returns the statement, without its trailing white space and
    without one trailing terminator, followed by a line feed, AND and the
    condition; so it does on the statement of the specification's
    example. *)
Theorem combine_existing_where :
  (∀ existing condition base : string,
     containsWhere existing →
     Stripped existing base →
     combine existing (JStr ("WHERE " +:+ condition))
     = inr (base +:+ LF +:+ "AND " +:+ condition))
  ∧ combine "SELECT * FROM t WHERE y = 2" (JStr "WHERE x = 1")
    = inr ("SELECT * FROM t WHERE y = 2" +:+ LF +:+ "AND x = 1").
Proof.
  split; [|reflexivity].
  intros existing condition base Hw%testWhere_spec Hb.
  rewrite (combine_string existing _ base); [|by apply prefixed_nonempty|done].
  by rewrite Hw, slice_6.
Qed.

Lemma combine_existing_where_witness :
  containsWhere "select * from t Where y = 2;  "
  ∧ Stripped "select * from t Where y = 2;  " "select * from t Where y = 2"
  ∧ combine "select * from t Where y = 2;  " (JStr ("WHERE " +:+ "x = 1"))
    = inr ("select * from t Where y = 2" +:+ LF +:+ "AND " +:+ "x = 1").
Proof.
  assert (containsWhere "select * from t Where y = 2;  ") as Hw
    by (by exists "select * from t ", "Where", " y = 2;  ").
  assert (Stripped "select * from t Where y = 2;  " "select * from t Where y = 2")
    as Hb by (exists "  "; split; [reflexivity|left; reflexivity]).
  split_and!; [exact Hw|exact Hb|].
  exact (proj1 combine_existing_where _ "x = 1" _ Hw Hb).
Defined.

(** C7. When the statement does not contain WHERE and the filter is not
    empty, [combine] drops the first six code units of the filter,
    whatever they are, and returns the statement, without its trailing
    white space and without one trailing terminator, followed by a line
    feed, WHERE and the rest of the filter; for a filter that is WHERE
    and a condition the rest is the condition.  The specification's
    example comes out as stated, and an absent or empty filter leaves the
    statement as it is. *)
Theorem combine_no_where :
  (∀ existing prefix condition base : string,
     ¬ containsWhere existing →
     String.length prefix = 6%nat →
     Stripped existing base →
     combine existing (JStr (prefix +:+ condition))
     = inr (base +:+ LF +:+ "WHERE " +:+ condition))
  ∧ (∀ existing condition base : string,
       ¬ containsWhere existing →
       Stripped existing base →
       combine existing (JStr ("WHERE " +:+ condition))
       = inr (base +:+ LF +:+ "WHERE " +:+ condition))
  ∧ (∀ base ws : string,
       allWhiteSpace ws = true →
       Stripped (base +:+ ";" +:+ ws) base)
  ∧ combine "SELECT * FROM t;" (JStr "WHERE x = 1")
    = inr ("SELECT * FROM t" +:+ LF +:+ "WHERE x = 1")
  ∧ (∀ existing : string,
       combine existing JUndefined = inr existing
       ∧ combine existing (JStr "") = inr existing).
Proof.
  assert (∀ existing prefix condition base : string,
     ¬ containsWhere existing →
     String.length prefix = 6%nat →
     Stripped existing base →
     combine existing (JStr (prefix +:+ condition))
     = inr (base +:+ LF +:+ "WHERE " +:+ condition)) as Hgen.
  { intros existing prefix condition base Hw Hp Hb.
    rewrite (combine_string existing _ base); [|by apply prefixed_nonempty|done].
    rewrite slice_6 by done.
    destruct (testWhere existing) eqn:Ht; [|done].
    by apply testWhere_spec in Ht. }
  split_and!; [exact Hgen| |by intros base ws ?; exists ws; auto|reflexivity|done].
  intros existing condition base Hw Hb. by apply Hgen.
Qed.

Lemma combine_no_where_witness :
  ¬ containsWhere "SELECT * FROM t;;  "
  ∧ String.length "WHERE " = 6%nat
  ∧ Stripped "SELECT * FROM t;;  " "SELECT * FROM t;"
  ∧ combine "SELECT * FROM t;;  " (JStr ("WHERE " +:+ "x = 1"))
    = inr ("SELECT * FROM t;" +:+ LF +:+ "WHERE " +:+ "x = 1").
Proof.
  assert (¬ containsWhere "SELECT * FROM t;;  ") as Hw
    by (rewrite <- testWhere_spec; discriminate).
  assert (Stripped "SELECT * FROM t;;  " "SELECT * FROM t;") as Hb
    by (exists "  "; split; [reflexivity|left; reflexivity]).
  split_and!; [exact Hw|reflexivity|exact Hb|].
  exact (proj1 combine_no_where _ "WHERE " "x = 1" _ Hw eq_refl Hb).
Defined.

(** ** The store *)

Lemma assign_Some (name p : string) f (s : State) (db : Database.t) :
  databases s !! name = Some db →
  assign name p f s
  = inr {| active := active s; databases := <[name := f db]> (databases s) |}.
Proof. unfold assign. by intros ->. Qed.

Lemma assign_None (name p : string) f (s : State) :
  databases s !! name = None → inheritedName name = false →
  assign name p f s = inl (writeOfUndefined p).
Proof. unfold assign. by intros -> ->. Qed.

Lemma assign_inherited (name p : string) f (s : State) :
  databases s !! name = None → inheritedName name = true →
  assign name p f s = inr s.
Proof. unfold assign. by intros -> ->. Qed.

Lemma assignAndPush_Some (name p : string) f (s : State) (db : Database.t) :
  databases s !! name = Some db →
  assignAndPush name p f s
  = inr {| active := active s; databases := <[name := f db]> (databases s) |}.
Proof. unfold assignAndPush. by intros ->. Qed.

Lemma assignAndPush_None (name p : string) f (s : State) :
  databases s !! name = None →
  ∃ e, assignAndPush name p f s = inl e.
Proof. unfold assignAndPush. intros ->. destruct (inheritedName name); eauto. Qed.

#[local] Arguments evaluate : simpl never.
#[local] Arguments evalFilterOf : simpl never.
#[local] Arguments combine : simpl never.
#[local] Arguments String.eqb : simpl never.
#[local] Arguments trim : simpl never.

(** Unfolding of the operations down to the store transformer. *)
Ltac settle :=
  unfold bind, try_catch, get, set, await, throw, ret; cbn.

(** A rejected [evaluate] has written nothing. *)
Lemma evaluate_rejected (env : Env) (rego : string) (s : State) (e : js_error) :
  Outcome.value (evaluate env rego s) = inl e →
  Outcome.store (evaluate env rego s) = s.
Proof.
  unfold evaluate. settle.
  repeat (case_match; simpl; try done).
Qed.

(** A resolved [evaluate] has written its three fields on the active
    database, and nothing else. *)
Lemma evaluate_resolved (env : Env) (rego : string) (s : State) (body : jsval) :
  Outcome.value (evaluate env rego s) = inr body →
  ∃ connection,
    active s = Some connection ∧
    ((databases s !! Connection.name connection = None ∧
      inheritedName (Connection.name connection) = true ∧
      Outcome.store (evaluate env rego s) = s)
     ∨
     ∃ db resp,
       databases s !! Connection.name connection = Some db ∧
       fetch env (previewRequest (Database.input db) (Database.data db) rego)
         = inr resp ∧
       Response.ok resp = true ∧
       Response.json resp = inr body ∧
       codeIn body = inr false ∧
       Outcome.store (evaluate env rego s)
       = {| active := active s;
            databases :=
              <[Connection.name connection := withEvaluation rego body db]>
                (databases s) |}).
Proof.
  unfold evaluate. settle.
  destruct (active s) as [connection|] eqn:Ha; [|done].
  destruct (databases s !! Connection.name connection) as [db|] eqn:Hdb.
  - simpl.
    destruct (fetch env _) as [?|resp] eqn:Hf; [done|]. simpl.
    destruct (Response.ok resp) eqn:Hok; [|done]. simpl.
    destruct (Response.json resp) as [?|result] eqn:Hj; [done|]. simpl.
    destruct (codeIn result) as [?|[]] eqn:Hc; [done..|]. simpl.
    rewrite (assign_Some _ _ _ _ db) by done. simpl.
    intros [= ->]. exists connection. split; [done|]. right.
    exists db, resp. by rewrite Ha.
  - destruct (inheritedName (Connection.name connection)) eqn:Hi; [|done].
    simpl.
    destruct (fetch env _) as [?|resp] eqn:Hf; [done|]. simpl.
    destruct (Response.ok resp) eqn:Hok; [|done]. simpl.
    destruct (Response.json resp) as [?|result] eqn:Hj; [done|]. simpl.
    destruct (codeIn result) as [?|[]] eqn:Hc; [done..|]. simpl.
    rewrite assign_inherited by done. simpl.
    intros _. exists connection. split; [done|]. by left.
Qed.

(** The same with the entry at hand. *)
Lemma evaluate_resolved_entry (env : Env) (rego : string) (s : State)
    (body : jsval) (connection : Connection.t) (db : Database.t) :
  active s = Some connection →
  databases s !! Connection.name connection = Some db →
  Outcome.value (evaluate env rego s) = inr body →
  ∃ resp,
    fetch env (previewRequest (Database.input db) (Database.data db) rego)
      = inr resp ∧
    Response.ok resp = true ∧
    Response.json resp = inr body ∧
    codeIn body = inr false ∧
    Outcome.store (evaluate env rego s)
    = {| active := active s;
         databases := <[Connection.name connection := withEvaluation rego body db]>
                        (databases s) |}.
Proof.
  intros Ha Hdb Hv.
  destruct (evaluate_resolved _ _ _ _ Hv) as (c & Hc & [(Hn & _)|H]).
  - congruence.
  - destruct H as (db' & resp & Hdb' & H).
    assert (c = connection) as -> by congruence.
    assert (db' = db) as -> by congruence.
    by exists resp.
Qed.

(** The evaluation step of [execute]: rejected, it has written nothing
    and made [execute] reject with the same error before the statement
    is looked at. *)
Lemma evalFilterOf_rejected (env : Env) (rego : option string) (s : State)
    (e : js_error) :
  Outcome.value (evalFilterOf env rego s) = inl e →
  Outcome.store (evalFilterOf env rego s) = s.
Proof.
  destruct rego as [[|c rego]|]; [done| |done].
  unfold evalFilterOf. settle.
  destruct (Outcome.value (evaluate env (String c rego) s)) eqn:Hv; [|done].
  intros _. by eapply evaluate_rejected.
Qed.

Lemma execute_evaluation_rejected (env : Env) query rego filter (s : State)
    (e : js_error) :
  Outcome.value (evalFilterOf env rego s) = inl e →
  Outcome.value (execute env query rego filter s) = inl e
  ∧ Outcome.store (execute env query rego filter s) = s.
Proof.
  intros He. pose proof (evalFilterOf_rejected _ _ _ _ He) as Hs.
  unfold execute. settle. by rewrite He.
Qed.

(** Resolved, it leaves the active pointer, the entries' names and the
    history of every entry as they were. *)
Lemma evalFilterOf_resolved (env : Env) (rego : option string) (s : State)
    (v : jsval) (name : string) (db : Database.t) :
  Outcome.value (evalFilterOf env rego s) = inr v →
  databases s !! name = Some db →
  active (Outcome.store (evalFilterOf env rego s)) = active s
  ∧ ∃ db1,
      databases (Outcome.store (evalFilterOf env rego s)) !! name = Some db1
      ∧ Database.history db1 = Database.history db.
Proof.
  intros Hv Hdb.
  destruct rego as [[|c rego]|]; [by eauto| |by eauto].
  unfold evalFilterOf in *. revert Hv. settle.
  destruct (Outcome.value (evaluate env (String c rego) s)) as [|body] eqn:Hb;
    [done|].
  intros _.
  apply evaluate_resolved in Hb
    as (connection & Ha & [(_ & _ & ->)|(db0 & _ & Hdb0 & _ & _ & _ & _ & ->)]);
    [by eauto|].
  simpl. split; [done|].
  destruct (decide (Connection.name connection = name)) as [<-|Hne].
  - rewrite lookup_insert_eq. simplify_eq. eauto.
  - rewrite lookup_insert_ne by done. eauto.
Qed.

(** How the plumbing settles. *)
Section Settles.

Context {A B : Type}.

Lemma settles_ret (a : A) s : settles (ret a) s (inr a) s.
Proof. done. Qed.

Lemma settles_throw (e : js_error) s : settles (throw (A:=A) e) s (inl e) s.
Proof. done. Qed.

Lemma settles_get s : settles get s (inr s) s.
Proof. done. Qed.

Lemma settles_await call (answer : js_error + A) s :
  settles (await call answer) s answer s.
Proof. done. Qed.

Lemma settles_set_committed recipe s s' :
  recipe s = inr s' → settles (set recipe) s (inr tt) s'.
Proof. unfold settles, set. by intros ->. Qed.

Lemma settles_set_dropped recipe s e :
  recipe s = inl e → settles (set recipe) s (inl e) s.
Proof. unfold settles, set. by intros ->. Qed.

Lemma settles_bind (m : M A) (k : A → M B) s a s1 v s2 :
  settles m s (inr a) s1 → settles (k a) s1 v s2 → settles (bind m k) s v s2.
Proof. unfold settles, bind. intros [-> ->] [<- <-]. done. Qed.

Lemma settles_bind_rejected (m : M A) (k : A → M B) s e s1 :
  settles m s (inl e) s1 → settles (bind m k) s (inl e) s1.
Proof. unfold settles, bind. intros [-> ->]. done. Qed.

Lemma settles_try (m : M A) h s a s1 :
  settles m s (inr a) s1 → settles (try_catch m h) s (inr a) s1.
Proof. unfold settles, try_catch. intros [Hv <-]. by rewrite Hv. Qed.

Lemma settles_catch (m : M A) h s e s1 v s2 :
  settles m s (inl e) s1 → settles (h e) s1 v s2 →
  settles (try_catch m h) s v s2.
Proof. unfold settles, try_catch. intros [-> ->] [<- <-]. done. Qed.

End Settles.

Lemma settles_unique {A} (m : M A) s v s' :
  settles m s v s' → Outcome.value (m s) = v ∧ Outcome.store (m s) = s'.
Proof. done. Qed.

(** The head of [execute]: the store is read, the connection is there
    and the evaluation step has resolved. *)
Ltac enter Ha Hv :=
  eapply settles_bind; [apply settles_get|]; cbv zeta; rewrite Ha;
  eapply settles_bind; [split; [exact Hv|reflexivity]|].

(** The [catch] block of [execute]: the commit, then the error again. *)
Ltac caught Hassign :=
  eapply settles_bind; [apply settles_set_committed, Hassign|apply settles_throw].

(** Once the evaluation step is through, [execute] settles with one of
    its two commits on the active database. *)
Lemma execute_settled (env : Env) query rego filter (s : State)
    (connection : Connection.t) (db : Database.t) (v : jsval) :
  active s = Some connection →
  databases s !! Connection.name connection = Some db →
  Outcome.value (evalFilterOf env rego s) = inr v →
  ∃ db1,
    databases (Outcome.store (evalFilterOf env rego s))
      !! Connection.name connection = Some db1
    ∧ Database.history db1 = Database.history db
    ∧ ((∃ result query0,
          exec env (Connection.postgres connection) query0 = inr result
          ∧ settles (execute env query rego filter) s (inr result)
              {| active := active s;
                 databases :=
                   <[Connection.name connection :=
                       withResult env query query0 (toLocaleString env)
                         (performance_now env 0) result db1]>
                     (databases (Outcome.store (evalFilterOf env rego s))) |})
       ∨ (∃ e,
            settles (execute env query rego filter) s (inl e)
              {| active := active s;
                 databases :=
                   <[Connection.name connection :=
                       withFailure env query (toLocaleString env)
                         (performance_now env 0) e db1]>
                     (databases (Outcome.store (evalFilterOf env rego s))) |})).
Proof.
  intros Ha Hdb Hv.
  destruct (evalFilterOf_resolved _ _ _ _ _ _ Hv Hdb) as (Ha1 & db1 & Hdb1 & Hh).
  exists db1. split_and!; [done..|].
  set (s1 := Outcome.store (evalFilterOf env rego s)) in *.
  rewrite Ha in Ha1 |- *.
  assert (∀ f, assignAndPush (Connection.name connection) "query" f s1
               = inr {| active := Some connection;
                        databases :=
                          <[Connection.name connection := f db1]> (databases s1) |})
    as Hassign.
  { intros f. rewrite (assignAndPush_Some _ _ _ _ db1) by done. by rewrite Ha1. }
  unfold execute.
  destruct (String.eqb query "" || String.eqb (trim query) "") eqn:Hq.
  { right. eexists. enter Ha Hv.
    eapply settles_catch; [apply settles_throw|caught Hassign]. }
  destruct (from_option id false filter) eqn:Hf.
  - destruct (combine query v) as [e|query0] eqn:Hc.
    { right. eexists. enter Ha Hv. eapply settles_catch; [|caught Hassign].
      apply settles_bind_rejected. rewrite Hc. apply settles_await. }
    destruct (exec env (Connection.postgres connection) query0)
      as [e|result] eqn:He.
    + right. eexists. enter Ha Hv. eapply settles_catch; [|caught Hassign].
      eapply settles_bind; [rewrite Hc; apply settles_await|].
      apply settles_bind_rejected. cbv zeta. rewrite He. apply settles_await.
    + left. exists result, query0. split; [done|].
      enter Ha Hv. apply settles_try.
      eapply settles_bind; [rewrite Hc; apply settles_await|].
      eapply settles_bind; [cbv zeta; rewrite He; apply settles_await|].
      eapply settles_bind; [|apply settles_ret].
      apply settles_set_committed, Hassign.
  - destruct (exec env (Connection.postgres connection) query)
      as [e|result] eqn:He.
    + right. eexists. enter Ha Hv. eapply settles_catch; [|caught Hassign].
      eapply settles_bind; [apply settles_ret|].
      apply settles_bind_rejected. cbv zeta. rewrite He. apply settles_await.
    + left. exists result, query. split; [done|].
      enter Ha Hv. apply settles_try.
      eapply settles_bind; [apply settles_ret|].
      eapply settles_bind; [cbv zeta; rewrite He; apply settles_await|].
      eapply settles_bind; [|apply settles_ret].
      apply settles_set_committed, Hassign.
Qed.

(** C10, as stated, fails: [databases] has no entry named [toString],
    yet it hands out the function of that name inherited from
    [Object.prototype]; the write of [update] lands there and the call
    resolves. *)
Lemma update_inherited_name_resolves :
  ¬ (∀ (env : Env) (name : string) (description : option string) (s : State),
       databases s !! name = None →
       ∃ e, Outcome.value (update env name description s) = inl e).
Proof.
  intros H.
  destruct (H shop "toString" (Some "all invoices") ordersStore eq_refl)
    as [e He].
  vm_compute in He. discriminate He.
Qed.

(** C10, amended. [update] of a name that has no entry leaves the store
    exactly as it was: no entry made or changed, [active] untouched.  It
    is rejected, with the engine's error for a write through [undefined],
    unless the name is inherited from [Object.prototype]; then it
    resolves. *)
Theorem update_unknown_name (env : Env) (name : string)
    (description : option string) (s : State) :
  databases s !! name = None →
  Outcome.store (update env name description s) = s
  ∧ (inheritedName name = false →
       Outcome.value (update env name description s)
       = inl (writeOfUndefined "description"))
  ∧ (inheritedName name = true →
       Outcome.value (update env name description s) = inr tt).
Proof.
  intros Hn. unfold update, set.
  destruct (inheritedName name) eqn:Hi.
  - rewrite assign_inherited by done. done.
  - rewrite assign_None by done. done.
Qed.

Lemma update_unknown_name_witness :
  databases ordersStore !! "invoices" = None
  ∧ Outcome.store (update shop "invoices" (Some "all invoices") ordersStore)
    = ordersStore
  ∧ Outcome.value (update shop "invoices" (Some "all invoices") ordersStore)
    = inl (writeOfUndefined "description").
Proof.
  split; [reflexivity|].
  destruct (update_unknown_name shop "invoices" (Some "all invoices")
              ordersStore eq_refl) as (Hs & Hv & _).
  split; [exact Hs|exact (Hv eq_refl)].
Defined.

Lemma without_connection (env : Env) (s : State) :
  active s = None →
  (∀ rego,
     Outcome.value (evaluate env rego s) = inl (readOfUndefined "name")
     ∧ Outcome.store (evaluate env rego s) = s)
  ∧ (∀ query rego filter,
       Outcome.value (execute env query rego filter s)
       = inl (readOfUndefined "name")
       ∧ Outcome.store (execute env query rego filter s) = s)
  ∧ Outcome.value (reload env s) = inl (readOfUndefined "postgres")
  ∧ Outcome.store (reload env s) = s.
Proof.
  intros Ha.
  assert (∀ rego, settles (evaluate env rego) s (inl (readOfUndefined "name")) s)
    as Hevaluate.
  { intros rego. unfold evaluate.
    eapply settles_bind; [apply settles_get|]. rewrite Ha. apply settles_throw. }
  split_and!.
  - intros rego. apply Hevaluate.
  - intros query rego filter. apply settles_unique. unfold execute.
    eapply settles_bind; [apply settles_get|]. cbv zeta. rewrite Ha.
    assert (∀ e (m : M (list Results.t)),
      settles m s (inl e) s →
      settles
        (try_catch m (λ error,
           let* _ := set (λ state, inl (readOfUndefined "name")) in throw error))
        s (inl (readOfUndefined "name")) s) as Hcatch.
    { intros e m Hm. eapply settles_catch; [exact Hm|].
      apply settles_bind_rejected. by apply settles_set_dropped. }
    destruct rego as [[|c rego]|]; unfold evalFilterOf.
    + eapply settles_bind; [apply settles_ret|].
      destruct (String.eqb query "" || String.eqb (trim query) "");
        [eapply Hcatch, settles_throw|].
      eapply Hcatch.
      destruct (from_option id false filter).
      * eapply settles_bind; [apply settles_await|]. apply settles_throw.
      * eapply settles_bind; [apply settles_ret|]. apply settles_throw.
    + apply settles_bind_rejected. apply settles_bind_rejected. apply Hevaluate.
    + eapply settles_bind; [apply settles_ret|].
      destruct (String.eqb query "" || String.eqb (trim query) "");
        [eapply Hcatch, settles_throw|].
      eapply Hcatch.
      destruct (from_option id false filter).
      * eapply settles_bind; [apply settles_await|]. apply settles_throw.
      * eapply settles_bind; [apply settles_ret|]. apply settles_throw.
  - unfold reload. settle. by rewrite Ha.
  - unfold reload. settle. by rewrite Ha.
Qed.

(** C4, as stated, fails: the store has no error of its own for a
    missing session.  What [evaluate] is rejected with is not an error
    that the store throws, but the engine's [TypeError]. *)
Lemma no_error_of_the_store :
  ¬ (∀ (env : Env) (s : State) (rego : string),
       active s = None →
       ∃ e, Outcome.value (evaluate env rego s) = inl e ∧ thrownByStore e).
Proof.
  intros H.
  destruct (H shop initialState "package conditions" eq_refl)
    as (e & He & message & ->).
  vm_compute in He. discriminate He.
Qed.

(** C4, amended. With no active session, [evaluate], [execute] and
    [reload] are each rejected, with the engine's error of reading a
    property of the absent connection, and the store is as it was. *)
Theorem no_active_session (env : Env) (s : State) :
  active s = None →
  (∀ rego,
     Outcome.value (evaluate env rego s) = inl (readOfUndefined "name")
     ∧ Outcome.store (evaluate env rego s) = s)
  ∧ (∀ query rego filter,
       Outcome.value (execute env query rego filter s)
       = inl (readOfUndefined "name")
       ∧ Outcome.store (execute env query rego filter s) = s)
  ∧ Outcome.value (reload env s) = inl (readOfUndefined "postgres")
  ∧ Outcome.store (reload env s) = s.
Proof. apply without_connection. Qed.

Lemma no_active_session_witness :
  active initialState = None
  ∧ Outcome.value
      (execute shop
         "SELECT 1" (Some "package conditions") (Some true) initialState)
    = inl (readOfUndefined "name").
Proof.
  split; [reflexivity|].
  apply (no_active_session shop initialState eq_refl).
Defined.

(** *** The registry invariant *)

Section Preserves.

Context {A B : Type}.

Lemma preserves_ret (a : A) : preserves (ret a).
Proof. by intros s. Qed.

Lemma preserves_throw e : preserves (throw (A:=A) e).
Proof. by intros s. Qed.

Lemma preserves_await call (answer : js_error + A) : preserves (await call answer).
Proof. by intros s. Qed.

Lemma preserves_bind (m : M A) (k : A → M B) :
  preserves m → (∀ a, preserves (k a)) → preserves (bind m k).
Proof.
  intros Hm Hk s Hs. specialize (Hm s Hs). unfold bind.
  destruct (Outcome.value (m s)) as [e|a]; [done|]. by apply Hk.
Qed.

Lemma preserves_try_catch (m : M A) h :
  preserves m → (∀ e, preserves (h e)) → preserves (try_catch m h).
Proof.
  intros Hm Hh s Hs. specialize (Hm s Hs). unfold try_catch.
  destruct (Outcome.value (m s)) as [e|a]; [by apply Hh|done].
Qed.

Lemma preserves_set recipe :
  (∀ s s', recipe s = inr s' → activeExists s → activeExists s') →
  preserves (set recipe).
Proof.
  intros Hr s Hs. unfold set.
  destruct (recipe s) as [e|s'] eqn:Hrs; [done|]. by eapply Hr.
Qed.

End Preserves.

Lemma preserves_get {B} (k : State → M B) :
  (∀ s, preserves (k s)) → preserves (bind get k).
Proof. intros Hk. apply preserves_bind; [by intros s|done]. Qed.

(** A write on an entry keeps [active] and the names of the entries. *)
Lemma assign_activeExists (name p : string) f (s s' : State) :
  assign name p f s = inr s' → activeExists s → activeExists s'.
Proof.
  unfold assign, activeExists.
  destruct (databases s !! name) as [db|] eqn:Hdb;
    [|by destruct (inheritedName name); [intros [= <-]|]].
  intros [= <-]. simpl. destruct (active s) as [connection|]; [|done].
  intros Hc. destruct (decide (name = Connection.name connection)) as [->|Hne].
  - rewrite lookup_insert_eq. eauto.
  - by rewrite lookup_insert_ne.
Qed.

Lemma assignAndPush_assign (name p : string) f (s s' : State) :
  assignAndPush name p f s = inr s' → assign name p f s = inr s'.
Proof.
  unfold assignAndPush, assign.
  destruct (databases s !! name); [done|]. by destruct (inheritedName name).
Qed.

Lemma preserves_assign (name p : string) f : preserves (set (assign name p f)).
Proof. apply preserves_set. intros s s'. apply assign_activeExists. Qed.

Lemma preserves_assignAndPush (name p : string) f :
  preserves (set (assignAndPush name p f)).
Proof.
  apply preserves_set. intros s s' H%assignAndPush_assign.
  by apply (assign_activeExists name p f).
Qed.

(** Making [name] active together with its entry. *)
Lemma activate_activeExists (connection : Connection.t) (db : Database.t)
    (state : State) :
  activeExists
    {| active := Some connection;
       databases := <[Connection.name connection := db]> (databases state) |}.
Proof. unfold activeExists. simpl. rewrite lookup_insert_eq. eauto. Qed.

Lemma preserves_create env name description : preserves (create env name description).
Proof.
  unfold create. apply preserves_get. intros s.
  destruct (known s name); [apply preserves_throw|].
  apply preserves_bind; [apply preserves_await|intros schema].
  apply preserves_bind; [apply preserves_await|intros erd].
  apply preserves_set. intros st st' [= <-] _.
  apply (activate_activeExists
           {| Connection.name := name;
              Connection.postgres := (newPGlite env (postgreIDBConnection env name)) |}).
Qed.

Lemma preserves_update env name description : preserves (update env name description).
Proof. apply preserves_assign. Qed.

Lemma preserves_import env key description : preserves (import env key description).
Proof.
  unfold import.
  apply preserves_bind; [apply preserves_await|intros sqlCreateQuery].
  apply preserves_bind; [apply preserves_await|intros _].
  apply preserves_bind; [apply preserves_await|intros schema].
  apply preserves_bind; [apply preserves_await|intros erd].
  apply preserves_set. intros st st' [= <-] _.
  apply (activate_activeExists
           {| Connection.name := key +:+ "-" +:+ pretty (random_90000 env + 10000)%Z;
              Connection.postgres := _ |}).
Qed.

Lemma preserves_remove env name : preserves (remove env name).
Proof.
  unfold remove.
  apply preserves_bind; [|intros; apply preserves_await].
  apply preserves_set. by intros st st' [= <-] _.
Qed.

Lemma preserves_connect env name :
  inheritedName name = false → preserves (connect env name).
Proof.
  intros Hi. unfold connect.
  apply preserves_bind; [apply preserves_await|intros schema].
  apply preserves_bind; [apply preserves_await|intros erd].
  apply preserves_set. intros st st'. unfold assign. simpl.
  destruct (databases st !! name) as [db|]; [|by rewrite Hi].
  intros [= <-] _.
  apply (activate_activeExists
           {| Connection.name := name; Connection.postgres := _ |}).
Qed.

Lemma preserves_evaluate env rego : preserves (evaluate env rego).
Proof.
  unfold evaluate. apply preserves_get. intros s.
  destruct (active s) as [connection|]; [|apply preserves_throw].
  cbv zeta.
  destruct (match databases s !! _ with Some _ => _ | None => _ end)
    as [[input data]|]; [|apply preserves_throw].
  apply preserves_bind; [apply preserves_await|intros resp].
  destruct (negb _); [apply preserves_throw|].
  apply preserves_bind; [apply preserves_await|intros result].
  apply preserves_bind; [apply preserves_await|intros []];
    [apply preserves_throw|].
  apply preserves_bind; [apply preserves_assign|intros _; apply preserves_ret].
Qed.

Lemma preserves_execute env query rego filter :
  preserves (execute env query rego filter).
Proof.
  unfold execute. apply preserves_get. intros s. cbv zeta.
  apply preserves_bind.
  { unfold evalFilterOf. destruct rego as [[|c rego]|]; try apply preserves_ret.
    apply preserves_bind; [apply preserves_evaluate|intros; apply preserves_ret]. }
  intros evalFilter. apply preserves_try_catch.
  - destruct (_ || _); [apply preserves_throw|].
    apply preserves_bind.
    { destruct (from_option id false filter);
        [apply preserves_await|apply preserves_ret]. }
    intros query0. destruct (active s) as [connection|]; [|apply preserves_throw].
    apply preserves_bind; [apply preserves_await|intros result].
    apply preserves_bind;
      [apply preserves_assignAndPush|intros _; apply preserves_ret].
  - intros error.
    apply preserves_bind; [|intros _; apply preserves_throw].
    destruct (active s) as [connection|]; [apply preserves_assignAndPush|].
    by apply preserves_set.
Qed.

Lemma preserves_reload env : preserves (reload env).
Proof.
  unfold reload. apply preserves_get. intros s.
  destruct (active s) as [connection|]; [|apply preserves_throw].
  apply preserves_bind; [apply preserves_await|intros schema].
  apply preserves_bind; [apply preserves_await|intros erd].
  apply preserves_assign.
Qed.

Lemma after_activeExists (env : Env) (c : call) (s : State) :
  ordinary c = true → activeExists s → activeExists (after env c s).
Proof.
  destruct c; cbn [after ordinary]; intros Hc;
    [apply preserves_create|apply preserves_update|apply preserves_import
    |apply preserves_remove|apply preserves_connect|apply preserves_evaluate
    |apply preserves_execute|apply preserves_reload].
  by apply negb_true_iff.
Qed.

Lemma run_activeExists (calls : list (Env * call)) (s : State) :
  Forall (λ step, ordinary step.2 = true) calls →
  activeExists s → activeExists (run calls s).
Proof.
  intros Hcalls. revert s.
  induction Hcalls as [|[env c] calls Hc _ IH]; intros s Hs; [done|].
  simpl. by apply IH, after_activeExists.
Qed.

(** C9, as stated, fails: [connect] makes active any name for which
    [databases] hands out something to write on, and a name inherited
    from [Object.prototype] is one, with no entry. *)
Lemma connect_inherited_name_breaks_invariant :
  ¬ (∀ (env : Env) (c : call) (s : State),
       activeExists s → activeExists (after env c s)).
Proof.
  intros H.
  assert (activeExists initialState) as Hs by done.
  apply (H shop (Connect "constructor")) in Hs.
  vm_compute in Hs. destruct Hs as [db Hdb]. discriminate Hdb.
Qed.

(** C9, amended. [active], when present, names an entry of [databases]:
    so it is in the store as created and in the store put back from the
    persisted databases, so it stays after each of [create], [import],
    [update], [remove], [evaluate], [execute] and [reload], resolved or
    rejected, after each [connect] to a name that is not inherited from
    [Object.prototype], and so after any sequence of these calls. *)
Theorem registry_invariant :
  activeExists initialState
  ∧ (∀ persisted, activeExists (rehydrate persisted))
  ∧ (∀ env c s,
       ordinary c = true → activeExists s → activeExists (after env c s))
  ∧ (∀ calls s,
       Forall (λ step, ordinary step.2 = true) calls →
       activeExists s → activeExists (run calls s))
  ∧ (∀ calls,
       Forall (λ step, ordinary step.2 = true) calls →
       activeExists (run calls initialState)).
Proof.
  split_and!; [done|done|apply after_activeExists|apply run_activeExists|].
  intros calls Hcalls. by apply run_activeExists.
Qed.

Lemma registry_invariant_witness :
  activeExists ordersStore
  ∧ Forall (λ step : Env * call, ordinary step.2 = true)
      [(shop, Connect "invoices");
       (strictService,
        Execute "SELECT * FROM products" (Some "package conditions") (Some true));
       (brokenEngine, Execute "SELEC" None None);
       (shop, Remove "invoices");
       (shop, Connect "orders")]
  ∧ activeExists
      (run [(shop, Connect "invoices");
            (strictService,
             Execute "SELECT * FROM products" (Some "package conditions") (Some true));
            (brokenEngine, Execute "SELEC" None None);
            (shop, Remove "invoices");
            (shop, Connect "orders")]
         ordersStore)
  ∧ active
      (run [(shop, Connect "invoices");
            (strictService,
             Execute "SELECT * FROM products" (Some "package conditions") (Some true));
            (brokenEngine, Execute "SELEC" None None);
            (shop, Remove "invoices");
            (shop, Connect "orders")]
         ordersStore)
    = Some ordersConnection.
Proof.
  assert (activeExists ordersStore) as Hs by (vm_compute; eauto).
  assert (Forall (λ step : Env * call, ordinary step.2 = true)
            [(shop, Connect "invoices");
             (strictService,
              Execute "SELECT * FROM products" (Some "package conditions")
                (Some true));
             (brokenEngine, Execute "SELEC" None None);
             (shop, Remove "invoices");
             (shop, Connect "orders")]) as Hcalls
    by (repeat constructor).
  split; [exact Hs|]. split; [exact Hcalls|].
  split; [|reflexivity].
  exact (proj1 (proj2 (proj2 (proj2 registry_invariant))) _ ordersStore Hcalls Hs).
Defined.

(** *** [execute] *)

(** C1. With an active session on an entry of the registry, a call of
    [execute] that resolves has appended exactly one entry to that
    database's history, with no error and one pair of counts for each
    result set of the engine, in order, and has committed the query and
    the data grid of all result sets; a call that is rejected once the
    evaluation step is through has appended exactly one entry, with the
    error's message and no results, has committed the query and the empty
    data grid, and is rejected with that same error, the store being
    already written. *)
Theorem execute_commits (env : Env) (query : string) (rego : option string)
    (filter : option bool) (s : State) (connection : Connection.t)
    (db : Database.t) :
  active s = Some connection →
  databases s !! Connection.name connection = Some db →
  (∀ result,
     Outcome.value (execute env query rego filter s) = inr result →
     ∃ db' entry query0 counts,
       databases (Outcome.store (execute env query rego filter s))
         !! Connection.name connection = Some db'
       ∧ Database.history db' = (Database.history db ++ [entry])%list
       ∧ QueryHistory.error entry = None
       ∧ QueryHistory.results entry = Some counts
       ∧ length counts = length result
       ∧ (∀ i r, result !! i = Some r →
            counts !! i
            = Some {| QueryResult.affectedRows :=
                        from_option id 0%Z (Results.affectedRows r);
                      QueryResult.totalRecords :=
                        Some (Z.of_nat (length (Results.rows r))) |})
       ∧ QueryHistory.statement entry = query
       ∧ QueryHistory.statementWithFilter entry = Some query0
       ∧ exec env (Connection.postgres connection) query0 = inr result
       ∧ Database.query db' = Some query
       ∧ Database.datagrid db' = Some (postgresTransformer env result))
  ∧ (∀ e v,
       Outcome.value (evalFilterOf env rego s) = inr v →
       Outcome.value (execute env query rego filter s) = inl e →
       ∃ db' entry,
         databases (Outcome.store (execute env query rego filter s))
           !! Connection.name connection = Some db'
         ∧ Database.history db' = (Database.history db ++ [entry])%list
         ∧ QueryHistory.error entry = Some (message e)
         ∧ QueryHistory.results entry = None
         ∧ QueryHistory.statement entry = query
         ∧ Database.query db' = Some query
         ∧ Database.datagrid db' = Some []).
Proof.
  intros Ha Hdb. split.
  - intros result Hr.
    destruct (Outcome.value (evalFilterOf env rego s)) as [e|v] eqn:Hv.
    { apply (execute_evaluation_rejected _ query _ filter) in Hv as [Hv _].
      congruence. }
    destruct (execute_settled env query rego filter s _ _ _ Ha Hdb Hv)
      as (db1 & Hdb1 & Hh & [(result' & query0 & He & Hval & Hst)|(e & Hval & _)]);
      [|congruence].
    assert (result' = result) as -> by congruence.
    rewrite Hst. simpl. rewrite lookup_insert_eq.
    eexists _, _, query0, _.
    split; [reflexivity|].
    split; [simpl; rewrite Hh; reflexivity|].
    split; [reflexivity|]. split; [reflexivity|].
    split; [by rewrite length_fmap|].
    split; [intros i r Hi; by rewrite list_lookup_fmap, Hi|].
    by split_and!.
  - intros e v Hv Hr.
    destruct (execute_settled env query rego filter s _ _ _ Ha Hdb Hv)
      as (db1 & Hdb1 & Hh & [(result' & query0 & He & Hval & _)|(e' & Hval & Hst)]);
      [congruence|].
    assert (e' = e) as -> by congruence.
    rewrite Hst. simpl. rewrite lookup_insert_eq.
    eexists _, _.
    split; [reflexivity|].
    split; [simpl; rewrite Hh; reflexivity|].
    by split_and!.
Qed.

Lemma execute_commits_witness :
  active ordersStore = Some ordersConnection
  ∧ databases ordersStore !! Connection.name ordersConnection
    = Some ordersDatabase
  ∧ (∃ db' entry,
       databases
         (Outcome.store
            (execute shop "SELECT * FROM products" (Some "package conditions")
               (Some true) ordersStore)) !! "orders" = Some db'
       ∧ Database.history db' = [entry]
       ∧ QueryHistory.error entry = None
       ∧ QueryHistory.statement entry = "SELECT * FROM products")
  ∧ (∃ db' entry,
       databases
         (Outcome.store (execute brokenEngine "SELEC" None None ordersStore))
         !! "orders" = Some db'
       ∧ Database.history db' = [entry]
       ∧ QueryHistory.error entry = Some "syntax error at or near SELEC").
Proof.
  assert (active ordersStore = Some ordersConnection) as Ha by reflexivity.
  assert (databases ordersStore !! Connection.name ordersConnection
          = Some ordersDatabase) as Hdb by reflexivity.
  split_and!; [exact Ha|exact Hdb|..].
  - destruct (proj1 (execute_commits shop "SELECT * FROM products"
                       (Some "package conditions") (Some true)
                       ordersStore _ _ Ha Hdb) oneRow eq_refl)
      as (db' & entry & query0 & counts & Hl & Hh & He & _ & _ & _ & Hq & _).
    exists db', entry. split_and!; [exact Hl|exact Hh|exact He|exact Hq].
  - destruct (proj2 (execute_commits brokenEngine "SELEC" None None
                       ordersStore _ _ Ha Hdb)
                (Error "syntax error at or near SELEC") JUndefined
                eq_refl eq_refl)
      as (db' & entry & Hl & Hh & He & _).
    exists db', entry. split_and!; [exact Hl|exact Hh|exact He].
Defined.

(** C2, as the specification has it, does not hold: a rejected
    [evaluate], called on its own or as the evaluation step of
    [execute], leaves no entry in the history. *)
Lemma evaluation_failure_not_recorded :
  ¬ (∀ env rego s connection db e,
       active s = Some connection →
       databases s !! Connection.name connection = Some db →
       Outcome.value (evaluate env rego s) = inl e →
       ∃ db' entry,
         databases (Outcome.store (evaluate env rego s))
           !! Connection.name connection = Some db'
         ∧ entry ∈ Database.history db'
         ∧ QueryHistory.error entry = Some (message e))
  ∧ ¬ (∀ env query rego filter s connection db e,
         active s = Some connection →
         databases s !! Connection.name connection = Some db →
         Outcome.value (execute env query rego filter s) = inl e →
         ∃ db' entry,
           databases (Outcome.store (execute env query rego filter s))
             !! Connection.name connection = Some db'
           ∧ entry ∈ Database.history db'
           ∧ QueryHistory.error entry = Some (message e)).
Proof.
  split.
  - intros H.
    destruct (H strictService "package conditions" ordersStore
                ordersConnection ordersDatabase (Error "bad rule")
                eq_refl eq_refl eq_refl) as (db' & entry & Hl & Hin & _).
    vm_compute in Hl. injection Hl as <-. by apply elem_of_nil in Hin.
  - intros H.
    destruct (H strictService "SELECT * FROM products"
                (Some "package conditions") (Some true) ordersStore
                ordersConnection ordersDatabase (Error "bad rule")
                eq_refl eq_refl eq_refl) as (db' & entry & Hl & Hin & _).
    vm_compute in Hl. injection Hl as <-. by apply elem_of_nil in Hin.
Qed.

(** C2, amended. A call of [execute] that is rejected once the
    evaluation step is through has recorded the error's message in a new
    last entry of the active database's history, and is rejected with
    that error.  A rejected [evaluate] has written nothing; when the
    evaluation step of [execute] is rejected, [execute] is rejected with
    the same error and has written nothing either. *)
Theorem failure_recorded_after_evaluation :
  (∀ env query rego filter s connection db e v,
     active s = Some connection →
     databases s !! Connection.name connection = Some db →
     Outcome.value (evalFilterOf env rego s) = inr v →
     Outcome.value (execute env query rego filter s) = inl e →
     ∃ db' entry,
       databases (Outcome.store (execute env query rego filter s))
         !! Connection.name connection = Some db'
       ∧ Database.history db' = (Database.history db ++ [entry])%list
       ∧ QueryHistory.error entry = Some (message e))
  ∧ (∀ env rego s e,
       Outcome.value (evaluate env rego s) = inl e →
       Outcome.store (evaluate env rego s) = s)
  ∧ (∀ env query rego filter s e,
       Outcome.value (evalFilterOf env rego s) = inl e →
       Outcome.value (execute env query rego filter s) = inl e
       ∧ Outcome.store (execute env query rego filter s) = s).
Proof.
  split_and!.
  - intros env query rego filter s connection db e v Ha Hdb Hv Hr.
    destruct (execute_settled env query rego filter s _ _ _ Ha Hdb Hv)
      as (db1 & Hdb1 & Hh & [(result' & query0 & He & Hval & _)|(e' & Hval & Hst)]);
      [congruence|].
    assert (e' = e) as -> by congruence.
    rewrite Hst. simpl. rewrite lookup_insert_eq.
    eexists _, _.
    split; [reflexivity|].
    split; [simpl; rewrite Hh; reflexivity|reflexivity].
  - apply evaluate_rejected.
  - intros env query rego filter s e. apply execute_evaluation_rejected.
Qed.

Lemma failure_recorded_after_evaluation_witness :
  (∃ db' entry,
     databases
       (Outcome.store (execute brokenEngine "SELEC" None None ordersStore))
       !! "orders" = Some db'
     ∧ Database.history db' = [entry]
     ∧ QueryHistory.error entry = Some "syntax error at or near SELEC")
  ∧ Outcome.store (evaluate strictService "package conditions" ordersStore)
    = ordersStore
  ∧ Outcome.store
      (execute strictService "SELECT 1" (Some "package conditions") (Some true)
         ordersStore)
    = ordersStore.
Proof.
  destruct failure_recorded_after_evaluation as (Hexecute & Hevaluate & Hstep).
  split_and!.
  - exact (Hexecute brokenEngine "SELEC" None None ordersStore
             ordersConnection ordersDatabase
             (Error "syntax error at or near SELEC") JUndefined
             eq_refl eq_refl eq_refl eq_refl).
  - exact (Hevaluate strictService "package conditions" ordersStore
             (Error "bad rule") eq_refl).
  - exact (proj2 (Hstep strictService "SELECT 1" (Some "package conditions")
                    (Some true) ordersStore (Error "bad rule") eq_refl)).
Defined.

(** *** [evaluate] *)

(** What [evaluate] does with the answer of the service, once the
    request is out. *)
Lemma evaluate_answered (env : Env) (rego : string) (s : State)
    (connection : Connection.t) (db : Database.t) (resp : Response.t) :
  active s = Some connection →
  databases s !! Connection.name connection = Some db →
  fetch env (previewRequest (Database.input db) (Database.data db) rego)
    = inr resp →
  (Response.ok resp = false →
   settles (evaluate env rego) s
     (inl (Error ("EOPA: " +:+ Response.statusText resp))) s)
  ∧ (∀ body,
       Response.ok resp = true →
       Response.json resp = inr body →
       (codeIn body = inr true →
        settles (evaluate env rego) s
          (inl (newError (optionalGet body "message"))) s)
       ∧ (codeIn body = inr false →
          settles (evaluate env rego) s (inr body)
            {| active := active s;
               databases :=
                 <[Connection.name connection := withEvaluation rego body db]>
                   (databases s) |})).
Proof.
  intros Ha Hdb Hf.
  split.
  - intros Hok. unfold evaluate.
    eapply settles_bind; [apply settles_get|]. rewrite Ha, Hdb.
    eapply settles_bind; [rewrite Hf; apply settles_await|].
    rewrite Hok. apply settles_throw.
  - intros body Hok Hj. split; intros Hc; unfold evaluate.
    + eapply settles_bind; [apply settles_get|]. rewrite Ha, Hdb.
      eapply settles_bind; [rewrite Hf; apply settles_await|].
      rewrite Hok. cbn [negb].
      eapply settles_bind; [rewrite Hj; apply settles_await|].
      eapply settles_bind; [rewrite Hc; apply settles_await|].
      apply settles_throw.
    + eapply settles_bind; [apply settles_get|]. rewrite Ha, Hdb.
      eapply settles_bind; [rewrite Hf; apply settles_await|].
      rewrite Hok. cbn [negb].
      eapply settles_bind; [rewrite Hj; apply settles_await|].
      eapply settles_bind; [rewrite Hc; apply settles_await|].
      eapply settles_bind; [|apply settles_ret].
      apply settles_set_committed. rewrite (assign_Some _ _ _ _ db) by done.
      by rewrite Ha.
Qed.

(** C3. When the body of the evaluation response has a [code] property,
    [evaluate] is rejected with an error that carries the body's
    [message] (its text when it is a string, as in the service's
    answers; what [new Error] makes of it otherwise), and the store is as
    it was: [rego], [evaluated] and [filter] of the active database among
    the rest.  The body is that of a response with a success status,
    the only one [evaluate] reads. *)
Theorem evaluate_error_body (env : Env) (rego : string) (s : State)
    (connection : Connection.t) (db : Database.t) (resp : Response.t)
    (body : jsval) :
  active s = Some connection →
  databases s !! Connection.name connection = Some db →
  fetch env (previewRequest (Database.input db) (Database.data db) rego)
    = inr resp →
  Response.ok resp = true →
  Response.json resp = inr body →
  codeIn body = inr true →
  Outcome.value (evaluate env rego s)
  = inl (newError (optionalGet body "message"))
  ∧ (∀ text, optionalGet body "message" = JStr text →
       Outcome.value (evaluate env rego s) = inl (Error text))
  ∧ Outcome.store (evaluate env rego s) = s
  ∧ databases (Outcome.store (evaluate env rego s))
      !! Connection.name connection = Some db.
Proof.
  intros Ha Hdb Hf Hok Hj Hc.
  destruct (evaluate_answered env rego s _ _ _ Ha Hdb Hf) as [_ Hgood].
  destruct (proj1 (Hgood body Hok Hj) Hc) as [Hv Hs].
  split_and!; [done| |done|by rewrite Hs].
  intros text Ht. by rewrite Hv, Ht.
Qed.

Lemma evaluate_error_body_witness :
  Outcome.value (evaluate strictService "package conditions" ordersStore)
  = inl (Error "bad rule")
  ∧ Outcome.store (evaluate strictService "package conditions" ordersStore)
    = ordersStore.
Proof.
  destruct (evaluate_error_body strictService "package conditions"
              ordersStore ordersConnection ordersDatabase
              {| Response.ok := true; Response.statusText := "OK";
                 Response.json := inr badRule |}
              badRule eq_refl eq_refl eq_refl eq_refl eq_refl eq_refl)
    as (_ & Hv & Hs & _).
  split; [exact (Hv "bad rule" eq_refl)|exact Hs].
Defined.

(** C5, as the specification has it, does not hold: the module map of
    the request is not [policy_modules] with the key [main]. *)
Lemma request_is_not_policy_modules :
  ¬ (∀ env rego s connection db,
       active s = Some connection →
       databases s !! Connection.name connection = Some db →
       Outcome.trace (evaluate env rego s)
       = [Fetch {| Request.url := "/v0/preview/conditions";
                   Request.method := "POST";
                   Request.json :=
                     JObj [("input", Database.input db);
                           ("data", Database.data db);
                           ("policy_modules", JObj [("main", JStr rego)])] |}]).
Proof.
  intros H.
  specialize (H shop "package conditions" ordersStore ordersConnection
                ordersDatabase eq_refl eq_refl).
  vm_compute in H. discriminate H.
Qed.

(** C5, amended. With an active session on an entry of the registry,
    [evaluate] makes one call to the service: a POST to
    [/v0/preview/conditions] of the object with the database's [input]
    and [data] and, under [rego_modules], the policy text under
    [main.rego]. *)
Theorem evaluate_request (env : Env) (rego : string) (s : State)
    (connection : Connection.t) (db : Database.t) :
  active s = Some connection →
  databases s !! Connection.name connection = Some db →
  Outcome.trace (evaluate env rego s)
  = [Fetch {| Request.url := "/v0/preview/conditions";
              Request.method := "POST";
              Request.json :=
                JObj [("input", Database.input db);
                      ("data", Database.data db);
                      ("rego_modules", JObj [("main.rego", JStr rego)])] |}].
Proof.
  intros Ha Hdb. unfold evaluate. settle. rewrite Ha, Hdb. cbn.
  destruct (fetch env _) as [e|resp]; [done|]. cbn.
  destruct (Response.ok resp); [|done]. cbn.
  destruct (Response.json resp) as [e|result]; [done|]. cbn.
  destruct (codeIn result) as [e|[]]; [done..|]. cbn.
  by rewrite (assign_Some _ _ _ _ db).
Qed.

Lemma evaluate_request_witness :
  Outcome.trace (evaluate shop "package conditions" ordersStore)
  = [Fetch {| Request.url := "/v0/preview/conditions";
              Request.method := "POST";
              Request.json :=
                JObj [("input", JObj []);
                      ("data", JUndefined);
                      ("rego_modules",
                       JObj [("main.rego", JStr "package conditions")])] |}].
Proof.
  exact (evaluate_request shop "package conditions" ordersStore
           ordersConnection ordersDatabase eq_refl eq_refl).
Defined.

(** C8. With an active session on an entry of the registry and a
    response that has a success status and a body without [code],
    [evaluate] resolves to the whole parsed body and has committed, on
    the active database, the policy text as [rego], the body's [result]
    as [evaluated] and the [query] of that result as [filter]
    ([undefined] when there is none); the other fields, the other
    databases and [active] are as they were. *)
Theorem evaluate_commits (env : Env) (rego : string) (s : State)
    (connection : Connection.t) (db : Database.t) (resp : Response.t)
    (body : jsval) :
  active s = Some connection →
  databases s !! Connection.name connection = Some db →
  fetch env (previewRequest (Database.input db) (Database.data db) rego)
    = inr resp →
  Response.ok resp = true →
  Response.json resp = inr body →
  codeIn body = inr false →
  Outcome.value (evaluate env rego s) = inr body
  ∧ active (Outcome.store (evaluate env rego s)) = active s
  ∧ (∀ other, other ≠ Connection.name connection →
       databases (Outcome.store (evaluate env rego s)) !! other
       = databases s !! other)
  ∧ ∃ db',
      databases (Outcome.store (evaluate env rego s))
        !! Connection.name connection = Some db'
      ∧ Database.rego db' = Some rego
      ∧ Database.evaluated db' = optionalGet body "result"
      ∧ Database.filter db' = optionalGet (optionalGet body "result") "query"
      ∧ Database.name db' = Database.name db
      ∧ Database.createdAt db' = Database.createdAt db
      ∧ Database.description db' = Database.description db
      ∧ Database.history db' = Database.history db
      ∧ Database.schema db' = Database.schema db
      ∧ Database.erd db' = Database.erd db
      ∧ Database.query db' = Database.query db
      ∧ Database.input db' = Database.input db
      ∧ Database.data db' = Database.data db
      ∧ Database.datagrid db' = Database.datagrid db.
Proof.
  intros Ha Hdb Hf Hok Hj Hc.
  destruct (evaluate_answered env rego s _ _ _ Ha Hdb Hf) as [_ Hgood].
  destruct (proj2 (Hgood body Hok Hj) Hc) as [Hv Hs].
  rewrite Hs. simpl. split_and!; [done..| |].
  - intros other Hne. by rewrite lookup_insert_ne.
  - eexists. rewrite lookup_insert_eq. by split_and!.
Qed.

Lemma evaluate_commits_witness :
  Outcome.value (evaluate shop "package conditions" ordersStore) = inr lowPrices
  ∧ ∃ db',
      databases (Outcome.store (evaluate shop "package conditions" ordersStore))
        !! "orders" = Some db'
      ∧ Database.rego db' = Some "package conditions"
      ∧ Database.evaluated db'
        = JObj [("query", JStr "WHERE products.price <= 500")]
      ∧ Database.filter db' = JStr "WHERE products.price <= 500".
Proof.
  destruct (evaluate_commits shop "package conditions" ordersStore
              ordersConnection ordersDatabase
              {| Response.ok := true; Response.statusText := "OK";
                 Response.json := inr lowPrices |}
              lowPrices eq_refl eq_refl eq_refl eq_refl eq_refl eq_refl)
    as (Hv & _ & _ & db' & Hl & Hr & He & Hq & _).
  split; [exact Hv|]. exists db'. split_and!; [exact Hl|exact Hr|exact He|exact Hq].
Defined.

(** * Further properties of the store *)

(** ** [create] *)

(** How [create] settles: rejected with the store as it was, or resolved
    with the new entry made active. *)
Lemma known_true (s : State) (name : string) :
  known s name = true
  ↔ is_Some (databases s !! name) ∨ inheritedName name = true.
Proof.
  unfold known. rewrite orb_true_iff, bool_decide_eq_true. done.
Qed.

Lemma known_false (s : State) (name : string) :
  known s name = false
  ↔ databases s !! name = None ∧ inheritedName name = false.
Proof.
  unfold known. rewrite orb_false_iff, bool_decide_eq_false.
  by rewrite eq_None_not_Some.
Qed.

Lemma create_cases (env : Env) (name : string) (description : option string)
    (s : State) :
  (∃ e, settles (create env name description) s (inl e) s)
  ∨ (databases s !! name = None
     ∧ ∃ schema erd,
         settles (create env name description) s (inr tt)
           {| active :=
                Some {| Connection.name := name;
                        Connection.postgres :=
                          (newPGlite env (postgreIDBConnection env name)) |};
              databases :=
                <[name := newDatabase env name description
                            "SELECT * FROM information_schema.tables"
                            defaultRego defaultInput erd schema]>
                  (databases s) |}).
Proof.
  unfold create.
  destruct (known s name) eqn:Hd.
  { left. eexists. eapply settles_bind; [apply settles_get|].
    rewrite Hd. apply settles_throw. }
  destruct (getDatabaseSchema env (newPGlite env (postgreIDBConnection env name)))
    as [e|schema] eqn:Hs.
  { left. exists e. eapply settles_bind; [apply settles_get|]. rewrite Hd.
    apply settles_bind_rejected. cbv zeta. rewrite ?Hs. apply settles_await. }
  destruct (generateMermaidErd env (newPGlite env (postgreIDBConnection env name)))
    as [e|erd] eqn:He.
  { left. exists e. eapply settles_bind; [apply settles_get|]. rewrite Hd.
    eapply settles_bind; [cbv zeta; rewrite ?Hs; apply settles_await|].
    apply settles_bind_rejected. rewrite ?He. apply settles_await. }
  right. split; [by apply known_false in Hd as [? _]|]. exists schema, erd.
  eapply settles_bind; [apply settles_get|]. rewrite Hd.
  eapply settles_bind; [cbv zeta; rewrite ?Hs; apply settles_await|].
  eapply settles_bind; [rewrite ?He; apply settles_await|].
  by apply settles_set_committed.
Qed.

(** X1. [create] with a name that has an entry, or that [databases]
    inherits from [Object.prototype], is rejected with the message
    naming it and leaves the store as it was; no collaborator is
    consulted on the way, the outcome being the same whatever each of
    them would answer.  So a second [create] of a name, after one that
    resolved, is always rejected. *)
Theorem create_existing_name :
  (∀ env name description s,
     is_Some (databases s !! name) ∨ inheritedName name = true →
     Outcome.value (create env name description s)
     = inl (Error ("db with name: " +:+ name +:+ " already exists"))
     ∧ Outcome.store (create env name description s) = s
     ∧ ∀ env', create env' name description s = create env name description s)
  ∧ (∀ env name description s env' description',
       Outcome.value (create env name description s) = inr tt →
       Outcome.value
         (create env' name description'
            (Outcome.store (create env name description s)))
       = inl (Error ("db with name: " +:+ name +:+ " already exists"))
       ∧ Outcome.store
           (create env' name description'
              (Outcome.store (create env name description s)))
         = Outcome.store (create env name description s)).
Proof.
  assert (∀ env name description s,
     is_Some (databases s !! name) ∨ inheritedName name = true →
     Outcome.value (create env name description s)
     = inl (Error ("db with name: " +:+ name +:+ " already exists"))
     ∧ Outcome.store (create env name description s) = s
     ∧ ∀ env', create env' name description s = create env name description s)
    as Hdup.
  { intros env name description s Hk%known_true.
    unfold create. settle. rewrite Hk. done. }
  split; [exact Hdup|].
  intros env name description s env' description' Hr.
  destruct (create_cases env name description s)
    as [(e & He & _)|(_ & schema & erd & _ & Hs)]; [congruence|].
  rewrite Hs.
  edestruct (Hdup env' name description') as (Hv & Hst & _);
    [|split; [exact Hv|exact Hst]].
  left. simpl. rewrite lookup_insert_eq. eauto.
Qed.

Lemma create_existing_name_witness :
  is_Some (databases ordersStore !! "orders")
  ∧ Outcome.value (create brokenEngine "orders" (Some "again") ordersStore)
    = inl (Error "db with name: orders already exists")
  ∧ Outcome.store (create brokenEngine "orders" (Some "again") ordersStore)
    = ordersStore
  ∧ create shop "orders" (Some "again") ordersStore
    = create brokenEngine "orders" (Some "again") ordersStore.
Proof.
  assert (is_Some (databases ordersStore !! "orders")) as Hin
    by (exists ordersDatabase; reflexivity).
  split; [exact Hin|].
  destruct (proj1 create_existing_name brokenEngine "orders" (Some "again")
              ordersStore (or_introl Hin)) as (Hv & Hs & Henv).
  split; [exact Hv|]. split; [exact Hs|exact (Henv shop)].
Defined.

(** X2. [create] is all or nothing.  Rejected, it leaves the store as it
    was.  Resolved, the name had no entry; it is now the active one, its
    entry has the description given, the default query, empty policy
    text, the empty input, an empty history and no data grid, and every
    other entry is as it was. *)
Theorem create_all_or_nothing (env : Env) (name : string)
    (description : option string) (s : State) :
  (∀ e, Outcome.value (create env name description s) = inl e →
        Outcome.store (create env name description s) = s)
  ∧ (Outcome.value (create env name description s) = inr tt →
     databases s !! name = None
     ∧ (Connection.name <$> active (Outcome.store (create env name description s)))
       = Some name
     ∧ (∀ other, other ≠ name →
          databases (Outcome.store (create env name description s)) !! other
          = databases s !! other)
     ∧ ∃ db,
         databases (Outcome.store (create env name description s)) !! name
         = Some db
         ∧ Database.name db = name
         ∧ Database.description db = description
         ∧ Database.query db = Some "SELECT * FROM information_schema.tables"
         ∧ Database.rego db = Some ""
         ∧ Database.input db = JObj []
         ∧ Database.history db = []
         ∧ Database.datagrid db = None
         ∧ Database.filter db = JUndefined).
Proof.
  destruct (create_cases env name description s)
    as [(e & He & Hs)|(Hn & schema & erd & Hv & Hs)].
  - split; [done|congruence].
  - split; [congruence|]. intros _. rewrite Hs. simpl.
    split_and!; [done..| |].
    + intros other Hne. by rewrite lookup_insert_ne.
    + eexists. rewrite lookup_insert_eq. by split_and!.
Qed.

Lemma create_all_or_nothing_witness :
  Outcome.value (create shop "orders" None initialState) = inr tt
  ∧ databases initialState !! "orders" = None
  ∧ ∃ db,
      databases ordersStore !! "orders" = Some db
      ∧ Database.history db = [].
Proof.
  assert (Outcome.value (create shop "orders" None initialState) = inr tt)
    as Hv by reflexivity.
  destruct (proj2 (create_all_or_nothing shop "orders" None initialState) Hv)
    as (Hn & _ & _ & db & Hdb & _ & _ & _ & _ & _ & Hh & _).
  split_and!; [exact Hv|exact Hn|]. exists db. split; [exact Hdb|exact Hh].
Defined.

(** ** [remove] *)

(** X3. [remove] always resolves: the entry of the name is gone, every
    other entry is as it was, the storage of the name is asked to be
    deleted, and no session is active any more, whichever database was
    active before; so [evaluate], [execute] and [reload] are rejected
    right after it, without a write. *)
Theorem remove_drops_session (env : Env) (name : string) (s : State) :
  Outcome.value (remove env name s) = inr tt
  ∧ active (Outcome.store (remove env name s)) = None
  ∧ databases (Outcome.store (remove env name s)) !! name = None
  ∧ (∀ other, other ≠ name →
       databases (Outcome.store (remove env name s)) !! other
       = databases s !! other)
  ∧ Outcome.trace (remove env name s)
    = [RemoveIDBItem (postgreIDBName env name)]
  ∧ (∀ env' c,
       c = Reload ∨ (∃ rego, c = Evaluate rego)
       ∨ (∃ query rego filter, c = Execute query rego filter) →
       is_Some (rejection env' c (Outcome.store (remove env name s)))
       ∧ after env' c (Outcome.store (remove env name s))
         = Outcome.store (remove env name s)).
Proof.
  split_and!; try done.
  - simpl. apply lookup_delete_eq.
  - intros other Hne. simpl. by apply lookup_delete_ne.
  - intros env' c Hc.
    destruct (without_connection env' (Outcome.store (remove env name s)) eq_refl)
      as (Hevaluate & Hexecute & Hreload & Hreload').
    destruct Hc as [->|[[rego ->]|(query & rego & filter & ->)]];
      cbn [rejection after].
    + by rewrite Hreload, Hreload'.
    + destruct (Hevaluate rego) as [-> ->]. eauto.
    + destruct (Hexecute query rego filter) as [-> ->]. eauto.
Qed.

(** ** [connect] *)

Lemma connect_cases (env : Env) (name : string) (s : State) :
  (∃ e, settles (connect env name) s (inl e) s)
  ∨ (∃ db schema erd,
       databases s !! name = Some db
       ∧ getDatabaseSchema env (newPGlite env (postgreIDBConnection env name))
         = inr schema
       ∧ generateMermaidErd env (newPGlite env (postgreIDBConnection env name))
         = inr erd
       ∧ settles (connect env name) s (inr tt)
           {| active :=
                Some {| Connection.name := name;
                        Connection.postgres :=
                          (newPGlite env (postgreIDBConnection env name)) |};
              databases := <[name := withSchema erd schema db]> (databases s) |})
  ∨ (databases s !! name = None
     ∧ inheritedName name = true
     ∧ settles (connect env name) s (inr tt)
         {| active :=
              Some {| Connection.name := name;
                      Connection.postgres :=
                        (newPGlite env (postgreIDBConnection env name)) |};
            databases := databases s |}).
Proof.
  unfold connect. cbv zeta.
  destruct (getDatabaseSchema env (newPGlite env (postgreIDBConnection env name)))
    as [e|schema] eqn:Hs.
  { left. exists e. apply settles_bind_rejected. apply settles_await. }
  destruct (generateMermaidErd env (newPGlite env (postgreIDBConnection env name)))
    as [e|erd] eqn:He.
  { left. exists e. eapply settles_bind; [apply settles_await|].
    apply settles_bind_rejected. rewrite ?He. apply settles_await. }
  destruct (databases s !! name) as [db|] eqn:Hdb.
  - right. left. exists db, schema, erd. split_and!; [done..|].
    eapply settles_bind; [apply settles_await|].
    eapply settles_bind; [rewrite ?He; apply settles_await|].
    apply settles_set_committed. by rewrite (assign_Some _ _ _ _ db).
  - destruct (inheritedName name) eqn:Hi.
    + right. right. split_and!; [done..|].
      eapply settles_bind; [apply settles_await|].
      eapply settles_bind; [rewrite ?He; apply settles_await|].
      apply settles_set_committed. by rewrite assign_inherited.
    + left. eexists.
      eapply settles_bind; [apply settles_await|].
      eapply settles_bind; [rewrite ?He; apply settles_await|].
      apply settles_set_dropped. by rewrite assign_None.
Qed.

(** X4. [connect] to a name that has no entry and that [databases] does
    not inherit is rejected and leaves the store as it was, the active
    session included; when the introspection of the new session answers,
    the error is the engine's, for the write through the missing entry.
    To a name that has no entry but is inherited from [Object.prototype],
    when the introspection answers, [connect] resolves: the name is the
    active one, and no entry is made for it. *)
Theorem connect_unknown_name (env : Env) (name : string) (s : State) :
  databases s !! name = None →
  (inheritedName name = false →
     (∃ e, Outcome.value (connect env name s) = inl e)
     ∧ Outcome.store (connect env name s) = s
     ∧ (∀ schema erd,
          getDatabaseSchema env (newPGlite env (postgreIDBConnection env name))
          = inr schema →
          generateMermaidErd env (newPGlite env (postgreIDBConnection env name))
          = inr erd →
          Outcome.value (connect env name s) = inl (writeOfUndefined "erd")))
  ∧ (inheritedName name = true →
     ∀ schema erd,
       getDatabaseSchema env (newPGlite env (postgreIDBConnection env name))
       = inr schema →
       generateMermaidErd env (newPGlite env (postgreIDBConnection env name))
       = inr erd →
       Outcome.value (connect env name s) = inr tt
       ∧ Outcome.store (connect env name s)
         = {| active :=
                Some {| Connection.name := name;
                        Connection.postgres :=
                          newPGlite env (postgreIDBConnection env name) |};
              databases := databases s |}).
Proof.
  intros Hn. split; intros Hi.
  - destruct (connect_cases env name s)
      as [(e & He & Hs)|[(db & _ & _ & Hdb & _)|(_ & Hi' & _)]];
      [|congruence..].
    split_and!; [eauto|done|].
    intros schema erd Hschema Herd. unfold connect. settle.
    rewrite Hschema. cbn. rewrite Herd. cbn. by rewrite assign_None.
  - intros schema erd Hschema Herd. unfold connect. settle.
    rewrite Hschema. cbn. rewrite Herd. cbn. by rewrite assign_inherited.
Qed.

Lemma connect_unknown_name_witness :
  databases ordersStore !! "invoices" = None
  ∧ Outcome.value (connect shop "invoices" ordersStore)
    = inl (writeOfUndefined "erd")
  ∧ active (Outcome.store (connect shop "invoices" ordersStore))
    = Some ordersConnection
  ∧ databases ordersStore !! "constructor" = None
  ∧ Outcome.value (connect shop "constructor" ordersStore) = inr tt
  ∧ Connection.name
      <$> active (Outcome.store (connect shop "constructor" ordersStore))
    = Some "constructor".
Proof.
  destruct (connect_unknown_name shop "invoices" ordersStore eq_refl)
    as [Hout _].
  destruct (Hout eq_refl) as (_ & Hs & Hv).
  destruct (connect_unknown_name shop "constructor" ordersStore eq_refl)
    as [_ Hin].
  destruct (Hin eq_refl [] "erDiagram" eq_refl eq_refl) as [Hv' Hs'].
  split_and!; [reflexivity|exact (Hv [] "erDiagram" eq_refl eq_refl)|
               |reflexivity|exact Hv'|].
  - rewrite Hs. reflexivity.
  - rewrite Hs'. reflexivity.
Defined.

(** X5. [connect] to a name that has an entry, when the introspection of
    the new session answers, resolves: the name is the active one, on the
    session just opened on its storage, whichever session was active
    before; its entry has the new schema and diagram and is otherwise as
    it was, history and editors' contents included; every other entry is
    as it was. *)
Theorem connect_refreshes (env : Env) (name : string) (s : State)
    (db : Database.t) (schema : list DatabaseSchema.t) (erd : string) :
  databases s !! name = Some db →
  getDatabaseSchema env (newPGlite env (postgreIDBConnection env name))
  = inr schema →
  generateMermaidErd env (newPGlite env (postgreIDBConnection env name))
  = inr erd →
  Outcome.value (connect env name s) = inr tt
  ∧ active (Outcome.store (connect env name s))
    = Some {| Connection.name := name;
              Connection.postgres :=
                {| dataDir := postgreIDBConnection env name;
                   instance := newInstance env |} |}
  ∧ (∀ other, other ≠ name →
       databases (Outcome.store (connect env name s)) !! other
       = databases s !! other)
  ∧ (∃ db',
       databases (Outcome.store (connect env name s)) !! name = Some db'
       ∧ Database.schema db' = schema
       ∧ Database.erd db' = erd
       ∧ Database.name db' = Database.name db
       ∧ Database.createdAt db' = Database.createdAt db
       ∧ Database.description db' = Database.description db
       ∧ Database.history db' = Database.history db
       ∧ Database.query db' = Database.query db
       ∧ Database.rego db' = Database.rego db
       ∧ Database.input db' = Database.input db
       ∧ Database.data db' = Database.data db
       ∧ Database.evaluated db' = Database.evaluated db
       ∧ Database.filter db' = Database.filter db
       ∧ Database.datagrid db' = Database.datagrid db).
Proof.
  intros Hdb Hschema Herd.
  assert (settles (connect env name) s (inr tt)
      {| active :=
           Some {| Connection.name := name;
                   Connection.postgres :=
                     (newPGlite env (postgreIDBConnection env name)) |};
         databases := <[name := withSchema erd schema db]> (databases s) |})
    as [Hv Hs].
  { unfold connect. cbv zeta.
    eapply settles_bind; [rewrite Hschema; apply settles_await|].
    eapply settles_bind; [rewrite Herd; apply settles_await|].
    apply settles_set_committed. by rewrite (assign_Some _ _ _ _ db). }
  rewrite Hs. split_and!; [done|done| |].
  - intros other Hne. simpl. by rewrite lookup_insert_ne.
  - eexists. simpl. rewrite lookup_insert_eq. by split_and!.
Qed.

Lemma connect_refreshes_witness :
  databases ordersStore !! "orders" = Some ordersDatabase
  ∧ Outcome.value (connect brokenEngine "orders" ordersStore) = inr tt
  ∧ active (Outcome.store (connect brokenEngine "orders" ordersStore))
    = Some {| Connection.name := "orders";
              Connection.postgres :=
                {| dataDir := "idb://orders"; instance := 1 |} |}.
Proof.
  destruct (connect_refreshes brokenEngine "orders" ordersStore ordersDatabase
              [] "erDiagram" eq_refl eq_refl eq_refl) as (Hv & Ha & _).
  split_and!; [reflexivity|exact Hv|exact Ha].
Defined.

(** ** [update] *)

(** X6. [update] of a name that has an entry resolves: the entry has the
    new description and the time of the call as [createdAt], and is
    otherwise as it was; every other entry and the active session are as
    they were. *)
Theorem update_known_name (env : Env) (name : string)
    (description : option string) (s : State) (db : Database.t) :
  databases s !! name = Some db →
  Outcome.value (update env name description s) = inr tt
  ∧ active (Outcome.store (update env name description s)) = active s
  ∧ (∀ other, other ≠ name →
       databases (Outcome.store (update env name description s)) !! other
       = databases s !! other)
  ∧ ∃ db',
      databases (Outcome.store (update env name description s)) !! name
      = Some db'
      ∧ Database.description db' = description
      ∧ Database.createdAt db' = Some (toLocaleString env)
      ∧ Database.name db' = Database.name db
      ∧ Database.history db' = Database.history db
      ∧ Database.schema db' = Database.schema db
      ∧ Database.erd db' = Database.erd db
      ∧ Database.query db' = Database.query db
      ∧ Database.rego db' = Database.rego db
      ∧ Database.input db' = Database.input db
      ∧ Database.data db' = Database.data db
      ∧ Database.evaluated db' = Database.evaluated db
      ∧ Database.filter db' = Database.filter db
      ∧ Database.datagrid db' = Database.datagrid db.
Proof.
  intros Hdb. unfold update, set.
  rewrite (assign_Some _ _ _ _ db) by done.
  simpl. split_and!; [done..| |].
  - intros other Hne. by rewrite lookup_insert_ne.
  - eexists. rewrite lookup_insert_eq. by split_and!.
Qed.

Lemma update_known_name_witness :
  databases ordersStore !! "orders" = Some ordersDatabase
  ∧ ∃ db',
      databases (Outcome.store (update shop "orders" (Some "shop orders")
                                  ordersStore)) !! "orders" = Some db'
      ∧ Database.description db' = Some "shop orders"
      ∧ Database.query db' = Database.query ordersDatabase.
Proof.
  split; [reflexivity|].
  destruct (update_known_name shop "orders" (Some "shop orders") ordersStore
              ordersDatabase eq_refl)
    as (_ & _ & _ & db' & Hl & Hd & _ & _ & _ & _ & _ & Hq & _).
  exists db'. split_and!; [exact Hl|exact Hd|exact Hq].
Defined.

(** ** [reload] *)

Lemma reload_cases (env : Env) (s : State) :
  (∃ e, settles (reload env) s (inl e) s)
  ∨ (∃ connection db schema erd,
       active s = Some connection
       ∧ databases s !! Connection.name connection = Some db
       ∧ getDatabaseSchema env (Connection.postgres connection) = inr schema
       ∧ generateMermaidErd env (Connection.postgres connection) = inr erd
       ∧ settles (reload env) s (inr tt)
           {| active := active s;
              databases :=
                <[Connection.name connection := withSchema erd schema db]>
                  (databases s) |})
  ∨ (∃ connection,
       active s = Some connection
       ∧ databases s !! Connection.name connection = None
       ∧ inheritedName (Connection.name connection) = true
       ∧ settles (reload env) s (inr tt) s).
Proof.
  unfold reload.
  destruct (active s) as [connection|] eqn:Ha.
  2:{ left. eexists. eapply settles_bind; [apply settles_get|].
      rewrite Ha. apply settles_throw. }
  destruct (getDatabaseSchema env (Connection.postgres connection))
    as [e|schema] eqn:Hs.
  { left. exists e. eapply settles_bind; [apply settles_get|]. rewrite Ha.
    cbv zeta. apply settles_bind_rejected. rewrite Hs. apply settles_await. }
  destruct (generateMermaidErd env (Connection.postgres connection))
    as [e|erd] eqn:He.
  { left. exists e. eapply settles_bind; [apply settles_get|]. rewrite Ha.
    cbv zeta. eapply settles_bind; [rewrite Hs; apply settles_await|].
    apply settles_bind_rejected. rewrite He. apply settles_await. }
  destruct (databases s !! Connection.name connection) as [db|] eqn:Hdb.
  - right. left. exists connection, db, schema, erd. split_and!; [done..|].
    eapply settles_bind; [apply settles_get|]. rewrite Ha. cbv zeta.
    eapply settles_bind; [rewrite Hs; apply settles_await|].
    eapply settles_bind; [rewrite He; apply settles_await|].
    apply settles_set_committed.
    rewrite (assign_Some _ _ _ _ db) by done. by rewrite Ha.
  - destruct (inheritedName (Connection.name connection)) eqn:Hi.
    + right. right. exists connection. split_and!; [done..|].
      eapply settles_bind; [apply settles_get|]. rewrite Ha. cbv zeta.
      eapply settles_bind; [rewrite Hs; apply settles_await|].
      eapply settles_bind; [rewrite He; apply settles_await|].
      apply settles_set_committed. by rewrite assign_inherited.
    + left. eexists. eapply settles_bind; [apply settles_get|]. rewrite Ha.
      cbv zeta. eapply settles_bind; [rewrite Hs; apply settles_await|].
      eapply settles_bind; [rewrite He; apply settles_await|].
      apply settles_set_dropped. by rewrite assign_None.
Qed.

(** X7. [reload] writes the schema and the diagram that the active
    session reports on the active database and nothing else; reloading
    twice in a row, the engine answering the same, leaves the store that
    one reload leaves, and settles as the first did. *)
Theorem reload_refreshes :
  (∀ env s connection db schema erd,
     active s = Some connection →
     databases s !! Connection.name connection = Some db →
     getDatabaseSchema env (Connection.postgres connection) = inr schema →
     generateMermaidErd env (Connection.postgres connection) = inr erd →
     Outcome.value (reload env s) = inr tt
     ∧ active (Outcome.store (reload env s)) = active s
     ∧ (∀ other, other ≠ Connection.name connection →
          databases (Outcome.store (reload env s)) !! other
          = databases s !! other)
     ∧ databases (Outcome.store (reload env s)) !! Connection.name connection
       = Some (withSchema erd schema db)
     ∧ Database.history (withSchema erd schema db) = Database.history db
     ∧ Database.query (withSchema erd schema db) = Database.query db
     ∧ Database.rego (withSchema erd schema db) = Database.rego db
     ∧ Database.datagrid (withSchema erd schema db) = Database.datagrid db
     ∧ Database.schema (withSchema erd schema db) = schema
     ∧ Database.erd (withSchema erd schema db) = erd)
  ∧ (∀ env s,
       Outcome.store (reload env (Outcome.store (reload env s)))
       = Outcome.store (reload env s)
       ∧ Outcome.value (reload env (Outcome.store (reload env s)))
         = Outcome.value (reload env s)).
Proof.
  split.
  - intros env s connection db schema erd Ha Hdb Hs He.
    destruct (reload_cases env s)
      as [(e & Hv & Hst)
         |[(c' & db' & schema' & erd' & Ha' & Hdb' & Hs' & He' & Hv & Hst)
          |(c' & Ha' & Hdb' & _)]].
    + exfalso. revert Hv. unfold reload. settle. rewrite Ha. cbn.
      rewrite Hs. cbn. rewrite He. cbn.
      by rewrite (assign_Some _ _ _ _ db).
    + assert (c' = connection) as -> by congruence.
      assert (db' = db) as -> by congruence.
      assert (schema' = schema) as -> by congruence.
      assert (erd' = erd) as -> by congruence.
      rewrite Hst. simpl. split_and!; try done.
      * intros other Hne. by rewrite lookup_insert_ne.
      * by rewrite lookup_insert_eq.
    + assert (c' = connection) as -> by congruence. congruence.
  - intros env s.
    destruct (reload_cases env s)
      as [(e & Hv & Hst)
         |[(c & db & schema & erd & Ha & Hdb & Hs & He & Hv & Hst)
          |(c & _ & _ & _ & Hv & Hst)]].
    + by rewrite Hst.
    + rewrite Hst, Hv.
      match goal with
      | |- context [reload env ?s'] =>
          destruct (reload_cases env s')
            as [(e & Hv' & Hst')
               |[(c' & db' & schema' & erd' & Ha' & Hdb' & Hs' & He' & Hv' & Hst')
                |(c' & Ha' & Hdb' & _)]]
      end.
      * exfalso. revert Hv'. unfold reload. settle. rewrite Ha. cbn.
        rewrite Hs. cbn. rewrite He. cbn.
        by rewrite (assign_Some _ _ _ _ (withSchema erd schema db))
          by apply lookup_insert_eq.
      * rewrite Hst', Hv'. split; [|done].
        simpl in Ha', Hdb'.
        assert (c' = c) as -> by congruence.
        rewrite lookup_insert_eq in Hdb'.
        assert (db' = withSchema erd schema db) as -> by congruence.
        assert (schema' = schema) as -> by congruence.
        assert (erd' = erd) as -> by congruence.
        simpl. by rewrite insert_insert_eq.
      * exfalso. simpl in Ha', Hdb'.
        assert (c' = c) as -> by congruence.
        by rewrite lookup_insert_eq in Hdb'.
    + by rewrite Hst.
Qed.

Lemma reload_refreshes_witness :
  active ordersStore = Some ordersConnection
  ∧ databases ordersStore !! "orders" = Some ordersDatabase
  ∧ Outcome.value (reload shop ordersStore) = inr tt
  ∧ databases (Outcome.store (reload shop ordersStore)) !! "orders"
    = Some (withSchema "erDiagram" [] ordersDatabase).
Proof.
  destruct (proj1 reload_refreshes shop ordersStore ordersConnection
              ordersDatabase [] "erDiagram" eq_refl eq_refl eq_refl eq_refl)
    as (Hv & _ & _ & Hl & _).
  split_and!; [reflexivity|reflexivity|exact Hv|exact Hl].
Defined.

(** ** [import] *)

Lemma import_cases (env : Env) (key : string) (description : option string)
    (s : State) :
  (∃ e, settles (import env key description) s (inl e) s)
  ∨ (∃ sqlCreateQuery schema erd,
       getSampleDatabaseQuery env key = inr sqlCreateQuery
       ∧ getDatabaseSchema env
           (newPGlite env (postgreIDBConnection env (importName env key)))
         = inr schema
       ∧ generateMermaidErd env
           (newPGlite env (postgreIDBConnection env (importName env key)))
         = inr erd
       ∧ Outcome.trace (import env key description s)
         = [Exec (newPGlite env (postgreIDBConnection env (importName env key)))
              sqlCreateQuery]
       ∧ settles (import env key description) s (inr tt)
           {| active :=
                Some {| Connection.name := importName env key;
                        Connection.postgres :=
                           newPGlite env
                            (postgreIDBConnection env (importName env key)) |};
              databases :=
                <[importName env key :=
                    newDatabase env (importName env key) description
                      (lookupOr sql key defaultSql)
                      (lookupOr rego key defaultRego)
                      (lookupOr inputs key defaultInput) erd schema]>
                  (databases s) |}).
Proof.
  unfold import. fold (importName env key). cbv zeta.
  destruct (getSampleDatabaseQuery env key) as [e|sqlCreateQuery] eqn:Hq.
  { left. exists e. apply settles_bind_rejected. apply settles_await. }
  destruct (exec env (newPGlite env (postgreIDBConnection env (importName env key)))
              sqlCreateQuery) as [e|results] eqn:Hx.
  { left. exists e. eapply settles_bind; [apply settles_await|].
    apply settles_bind_rejected. rewrite Hx. apply settles_await. }
  destruct (getDatabaseSchema env
              (newPGlite env (postgreIDBConnection env (importName env key))))
    as [e|schema] eqn:Hs.
  { left. exists e. eapply settles_bind; [apply settles_await|].
    eapply settles_bind; [rewrite Hx; apply settles_await|].
    apply settles_bind_rejected. apply settles_await. }
  destruct (generateMermaidErd env
              (newPGlite env (postgreIDBConnection env (importName env key))))
    as [e|erd] eqn:He.
  { left. exists e. eapply settles_bind; [apply settles_await|].
    eapply settles_bind; [rewrite Hx; apply settles_await|].
    eapply settles_bind; [apply settles_await|].
    apply settles_bind_rejected. apply settles_await. }
  right. exists sqlCreateQuery, schema, erd. split_and!; [done..| |].
  - settle. rewrite Hx. cbn. done.
  - eapply settles_bind; [apply settles_await|].
    eapply settles_bind; [rewrite Hx; apply settles_await|].
    eapply settles_bind; [apply settles_await|].
    eapply settles_bind; [apply settles_await|].
    by apply settles_set_committed.
Qed.

(** X8. A resolved [import] has run the sample's script on a session on
    the storage of the generated name and made that name active; its
    entry has an empty history and the panes of the sample, whatever
    entry the name had before; every other entry is as it was. *)
Theorem import_resolved (env : Env) (key : string)
    (description : option string) (s : State) :
  Outcome.value (import env key description s) = inr tt →
  (Connection.name <$> active (Outcome.store (import env key description s)))
  = Some (importName env key)
  ∧ (∃ sqlCreateQuery,
       getSampleDatabaseQuery env key = inr sqlCreateQuery
       ∧ Outcome.trace (import env key description s)
         = [Exec (newPGlite env (postgreIDBConnection env (importName env key)))
              sqlCreateQuery])
  ∧ (∀ other, other ≠ importName env key →
       databases (Outcome.store (import env key description s)) !! other
       = databases s !! other)
  ∧ (∃ db,
       databases (Outcome.store (import env key description s))
         !! importName env key = Some db
       ∧ Database.name db = importName env key
       ∧ Database.description db = description
       ∧ Database.history db = []
       ∧ Database.query db = Some (lookupOr sql key defaultSql)
       ∧ Database.rego db = Some (lookupOr rego key defaultRego)
       ∧ Database.input db = lookupOr inputs key defaultInput).
Proof.
  intros Hr.
  destruct (import_cases env key description s)
    as [(e & He & _)|(q & schema & erd & Hq & Hs & He & Ht & Hv & Hst)];
    [congruence|].
  rewrite Hst. simpl. split_and!; [done|by eauto| |].
  - intros other Hne. by rewrite lookup_insert_ne.
  - eexists. rewrite lookup_insert_eq. by split_and!.
Qed.

Lemma import_resolved_witness :
  Outcome.value (import shop "orders" None ordersStore) = inr tt
  ∧ (Connection.name <$> active (Outcome.store (import shop "orders" None ordersStore)))
    = Some "orders-12345"
  ∧ ∃ db,
      databases (Outcome.store (import shop "orders" None ordersStore))
        !! "orders-12345" = Some db
      ∧ Database.input db
        = JObj [("user", JStr "Emma Clark"); ("budget", JStr "low")].
Proof.
  assert (Outcome.value (import shop "orders" None ordersStore) = inr tt)
    as Hv by reflexivity.
  destruct (import_resolved shop "orders" None ordersStore Hv)
    as (Ha & _ & _ & (db & Hl & _ & _ & _ & _ & _ & Hi)).
  split_and!; [exact Hv|exact Ha|]. exists db. split; [exact Hl|exact Hi].
Defined.

(** ** All operations *)

(** X9. Every operation but [execute] is atomic: when the call is
    rejected the store is exactly as it was.  ([execute] is the one that
    writes before it rejects, and [remove] is never rejected.) *)
Theorem rejected_call_writes_nothing (env : Env) (c : call) (s : State)
    (e : js_error) :
  rejection env c s = Some e →
  (∀ query rego filter, c ≠ Execute query rego filter) →
  after env c s = s.
Proof.
  intros Hr Hc. destruct c as [name d|name d|key d|name|name|rego|q r f|];
    cbn [rejection after] in *.
  - destruct (create_cases env name d s)
      as [(e' & _ & Hs)|(_ & schema & erd & Hv & _)]; [done|].
    by rewrite Hv in Hr.
  - unfold update, set in *. by destruct (assign _ _ _ s).
  - destruct (import_cases env key d s)
      as [(e' & _ & Hs)|(? & ? & ? & _ & _ & _ & _ & Hv & _)]; [done|].
    by rewrite Hv in Hr.
  - done.
  - destruct (connect_cases env name s)
      as [(e' & _ & Hs)
         |[(? & ? & ? & _ & _ & _ & Hv & _)|(_ & _ & Hv & _)]]; [done|..];
      by rewrite Hv in Hr.
  - destruct (Outcome.value (evaluate env rego s)) eqn:Hv; [|done].
    by eapply evaluate_rejected.
  - by destruct (Hc q r f).
  - destruct (reload_cases env s)
      as [(e' & _ & Hs)
         |[(? & ? & ? & ? & _ & _ & _ & _ & Hv & _)|(? & _ & _ & _ & Hv & _)]];
      [done|..]; by rewrite Hv in Hr.
Qed.

Lemma rejected_call_writes_nothing_witness :
  rejection strictService (Evaluate "package conditions") ordersStore
  = Some (Error "bad rule")
  ∧ after strictService (Evaluate "package conditions") ordersStore
    = ordersStore.
Proof.
  split; [reflexivity|].
  apply (rejected_call_writes_nothing strictService
           (Evaluate "package conditions") ordersStore (Error "bad rule"));
    [reflexivity|discriminate].
Defined.

(** How a relation between the stores goes through the plumbing. *)
Section Maintains.

Context (R : State → State → Prop) `{!PreOrder R}.
Context {A B : Type}.

Lemma maintains_ret (a : A) : maintains R (ret a).
Proof. intros s. simpl. reflexivity. Qed.

Lemma maintains_throw e : maintains R (throw (A:=A) e).
Proof. intros s. simpl. reflexivity. Qed.

Lemma maintains_await call (answer : js_error + A) :
  maintains R (await call answer).
Proof. intros s. simpl. reflexivity. Qed.

Lemma maintains_bind (m : M A) (k : A → M B) :
  maintains R m → (∀ a, maintains R (k a)) → maintains R (bind m k).
Proof.
  intros Hm Hk s. specialize (Hm s). unfold bind.
  destruct (Outcome.value (m s)) as [e|a]; [done|].
  simpl. etrans; [exact Hm|apply Hk].
Qed.

Lemma maintains_try_catch (m : M A) h :
  maintains R m → (∀ e, maintains R (h e)) → maintains R (try_catch m h).
Proof.
  intros Hm Hh s. specialize (Hm s). unfold try_catch.
  destruct (Outcome.value (m s)) as [e|a]; [|done].
  simpl. etrans; [exact Hm|apply Hh].
Qed.

Lemma maintains_set recipe :
  (∀ s s', recipe s = inr s' → R s s') → maintains R (set recipe).
Proof.
  intros Hr s. unfold set.
  destruct (recipe s) as [e|s'] eqn:Hrs; simpl; [reflexivity|by apply Hr].
Qed.

End Maintains.

Lemma maintains_get (R : State → State → Prop) {B} (k : State → M B) (s : State) :
  maintains R (k s) → R s (Outcome.store (bind get k s)).
Proof. intros Hk. apply (Hk s). Qed.

Global Instance touchesOnly_preorder connection : PreOrder (touchesOnly connection).
Proof.
  split.
  - intros s Ha. split_and!; [done..|]. intros db Hdb. by exists db.
  - intros s1 s2 s3 H12 H23 Ha.
    destruct (H12 Ha) as (Ha2 & Hf2 & Hh2).
    destruct (H23 Ha2) as (Ha3 & Hf3 & Hh3).
    split_and!; [done| |].
    + intros other Hne. by rewrite Hf3, Hf2.
    + intros db Hdb. destruct (Hh2 db Hdb) as (db2 & Hdb2 & Hn2 & Hp2).
      destruct (Hh3 db2 Hdb2) as (db3 & Hdb3 & Hn3 & Hp3).
      exists db3. split_and!; [done|congruence|by etrans].
Qed.

(** A write on the active entry that keeps the name and continues the
    history. *)
Lemma assign_touchesOnly (connection : Connection.t) (p : string) f :
  (∀ db, Database.name (f db) = Database.name db
         ∧ Database.history db `prefix_of` Database.history (f db)) →
  maintains (touchesOnly connection)
    (set (assign (Connection.name connection) p f)).
Proof.
  intros Hf. apply (maintains_set (touchesOnly connection)).
  intros s s'. unfold assign.
  destruct (databases s !! Connection.name connection) as [db|] eqn:Hdb.
  2:{ destruct (inheritedName _); [|done]. intros [= <-].
      by apply (reflexivity (R:=touchesOnly connection)). }
  intros [= <-] Ha. simpl. split_and!; [done| |].
  - intros other Hne. by rewrite lookup_insert_ne.
  - intros db0 Hdb0. exists (f db). rewrite lookup_insert_eq.
    assert (db0 = db) as -> by congruence.
    by destruct (Hf db).
Qed.

Lemma assignAndPush_touchesOnly (connection : Connection.t) (p : string) f :
  (∀ db, Database.name (f db) = Database.name db
         ∧ Database.history db `prefix_of` Database.history (f db)) →
  maintains (touchesOnly connection)
    (set (assignAndPush (Connection.name connection) p f)).
Proof.
  intros Hf s. pose proof (assign_touchesOnly connection p f Hf s) as H.
  revert H. unfold set.
  destruct (assignAndPush _ p f s) as [e|s'] eqn:Hp; simpl.
  - intros _. by apply (reflexivity (R:=touchesOnly connection)).
  - by rewrite (assignAndPush_assign _ _ _ _ _ Hp).
Qed.

Lemma evaluate_touchesOnly env connection rego :
  maintains (touchesOnly connection) (evaluate env rego).
Proof.
  intros s Ha.
  destruct (Outcome.value (evaluate env rego s)) as [e|body] eqn:Hv.
  - rewrite (evaluate_rejected _ _ _ _ Hv). by apply (reflexivity (R:=touchesOnly connection)).
  - apply evaluate_resolved in Hv
      as (c & Ha' & [(_ & _ & ->)|(db & resp & Hdb & _ & _ & _ & _ & ->)]);
      [by apply (reflexivity (R:=touchesOnly connection))|].
    assert (c = connection) as -> by congruence.
    simpl. split_and!; [done| |].
    + intros other Hne. by rewrite lookup_insert_ne.
    + intros db0 Hdb0. exists (withEvaluation rego body db).
      rewrite lookup_insert_eq.
      assert (db0 = db) as -> by congruence. by split_and!.
Qed.

(** The writes of the operations keep the name and continue the
    history. *)
Lemma withSchema_continues erd schema db :
  Database.name (withSchema erd schema db) = Database.name db
  ∧ Database.history db `prefix_of` Database.history (withSchema erd schema db).
Proof. done. Qed.

Lemma withResult_continues env query query0 createdAt startTime result db :
  Database.name (withResult env query query0 createdAt startTime result db)
  = Database.name db
  ∧ Database.history db
      `prefix_of`
    Database.history (withResult env query query0 createdAt startTime result db).
Proof. split; [done|]. by apply prefix_app_r. Qed.

Lemma withFailure_continues env query createdAt startTime error db :
  Database.name (withFailure env query createdAt startTime error db)
  = Database.name db
  ∧ Database.history db
      `prefix_of`
    Database.history (withFailure env query createdAt startTime error db).
Proof. split; [done|]. by apply prefix_app_r. Qed.

Lemma execute_touchesOnly env connection query rego filter s :
  touchesOnly connection s (Outcome.store (execute env query rego filter s)).
Proof.
  intros Ha.
  enough (touchesOnly connection s
            (Outcome.store (execute env query rego filter s))) as H
    by exact (H Ha).
  unfold execute. apply (maintains_get (touchesOnly connection)).
  cbv zeta. rewrite Ha.
  apply (maintains_bind (touchesOnly connection)).
  { unfold evalFilterOf. destruct rego as [[|a r]|];
      try apply (maintains_ret (touchesOnly connection)).
    apply (maintains_bind (touchesOnly connection));
      [apply evaluate_touchesOnly
      |intros; apply (maintains_ret (touchesOnly connection))]. }
  intros evalFilter.
  apply (maintains_try_catch (touchesOnly connection)).
  - destruct (_ || _); [apply (maintains_throw (touchesOnly connection))|].
    apply (maintains_bind (touchesOnly connection)).
    { destruct (from_option id false filter);
        [apply (maintains_await (touchesOnly connection))
        |apply (maintains_ret (touchesOnly connection))]. }
    intros query0.
    apply (maintains_bind (touchesOnly connection));
      [apply (maintains_await (touchesOnly connection))|intros result].
    apply (maintains_bind (touchesOnly connection));
      [|intros; apply (maintains_ret (touchesOnly connection))].
    apply assignAndPush_touchesOnly. intros db. apply withResult_continues.
  - intros e.
    apply (maintains_bind (touchesOnly connection));
      [|intros; apply (maintains_throw (touchesOnly connection))].
    apply assignAndPush_touchesOnly. intros db. apply withFailure_continues.
Qed.

Lemma reload_touchesOnly env connection s :
  touchesOnly connection s (Outcome.store (reload env s)).
Proof.
  intros Ha.
  destruct (reload_cases env s)
    as [(e & _ & ->)
       |[(c & db & schema & erd & Hc & Hdb & _ & _ & _ & ->)
        |(c & _ & _ & _ & _ & ->)]].
  - by apply (reflexivity (R:=touchesOnly connection)).
  - assert (c = connection) as -> by congruence.
    simpl. split_and!; [done| |].
    + intros other Hne. by rewrite lookup_insert_ne.
    + intros db0 Hdb0. exists (withSchema erd schema db).
      rewrite lookup_insert_eq.
      assert (db0 = db) as -> by congruence. by split_and!.
  - by apply (reflexivity (R:=touchesOnly connection)).
Qed.

(** X10. [evaluate], [execute] and [reload] never switch the session and
    never touch an entry other than the active one, whether they resolve
    or are rejected; the active entry stays under its name, and its
    history is the one it had, possibly continued. *)
Theorem active_entry_only (env : Env) (c : call) (s : State)
    (connection : Connection.t) :
  c = Reload ∨ (∃ rego, c = Evaluate rego)
  ∨ (∃ query rego filter, c = Execute query rego filter) →
  active s = Some connection →
  active (after env c s) = Some connection
  ∧ (∀ other, other ≠ Connection.name connection →
       databases (after env c s) !! other = databases s !! other)
  ∧ (∀ db, databases s !! Connection.name connection = Some db →
       ∃ db', databases (after env c s) !! Connection.name connection = Some db'
              ∧ Database.name db' = Database.name db
              ∧ Database.history db `prefix_of` Database.history db').
Proof.
  intros [->|[[rego ->]|(query & rego & filter & ->)]]; cbn [after].
  - apply reload_touchesOnly.
  - apply evaluate_touchesOnly.
  - apply execute_touchesOnly.
Qed.

Lemma active_entry_only_witness :
  active ordersStore = Some ordersConnection
  ∧ active (after brokenEngine (Execute "SELEC" (Some "package conditions") None)
              ordersStore)
    = Some ordersConnection
  ∧ ∃ db',
      databases
        (after brokenEngine (Execute "SELEC" (Some "package conditions") None)
           ordersStore) !! "orders" = Some db'
      ∧ Database.name db' = "orders".
Proof.
  destruct (active_entry_only brokenEngine
              (Execute "SELEC" (Some "package conditions") None)
              ordersStore ordersConnection
              (or_intror (or_intror (ex_intro _ _ (ex_intro _ _ (ex_intro _ _ eq_refl)))))
              eq_refl) as (Ha & _ & Hh).
  destruct (Hh ordersDatabase eq_refl) as (db' & Hl & Hn & _).
  split_and!; [reflexivity|exact Ha|]. exists db'. split; [exact Hl|exact Hn].
Defined.

Global Instance continues_preorder : PreOrder continues.
Proof.
  split.
  - intros s name db Hdb. by exists db.
  - intros s1 s2 s3 H12 H23 name db Hdb.
    destruct (H12 name db Hdb) as (db2 & Hdb2 & Hn2 & Hp2).
    destruct (H23 name db2 Hdb2) as (db3 & Hdb3 & Hn3 & Hp3).
    exists db3. split_and!; [done|congruence|by etrans].
Qed.

Lemma insert_fresh_continues (s : State) name db active' :
  databases s !! name = None →
  continues s {| active := active'; databases := <[name := db]> (databases s) |}.
Proof.
  intros Hn other db0 Hdb0. exists db0. simpl.
  rewrite lookup_insert_ne by congruence. done.
Qed.

Lemma insert_continues (s : State) name db db' active' :
  databases s !! name = Some db →
  Database.name db' = Database.name db →
  Database.history db `prefix_of` Database.history db' →
  continues s {| active := active'; databases := <[name := db']> (databases s) |}.
Proof.
  intros Hdb Hn Hp other db0 Hdb0. simpl.
  destruct (decide (name = other)) as [<-|Hne].
  - exists db'. rewrite lookup_insert_eq.
    assert (db0 = db) as -> by congruence. done.
  - exists db0. by rewrite lookup_insert_ne.
Qed.

Lemma touchesOnly_continues connection s s' :
  active s = Some connection → touchesOnly connection s s' → continues s s'.
Proof.
  intros Ha Ht name db Hdb. destruct (Ht Ha) as (_ & Hf & Hh).
  destruct (decide (name = Connection.name connection)) as [->|Hne].
  - by apply Hh.
  - exists db. by rewrite Hf.
Qed.

Lemma after_continues (env : Env) (c : call) (s : State) :
  replaces c = false → continues s (after env c s).
Proof.
  intros Hc. destruct c as [name d|name d|key d|name|name|rego|q r f|];
    try discriminate Hc; cbn [after].
  - destruct (create_cases env name d s)
      as [(e & _ & ->)|(Hn & schema & erd & _ & ->)]; [done|].
    by apply insert_fresh_continues.
  - unfold update, set, assign.
    destruct (databases s !! name) as [db|] eqn:Hdb; simpl;
      [|by destruct (inheritedName name)].
    by eapply insert_continues.
  - destruct (connect_cases env name s)
      as [(e & _ & ->)
         |[(db & schema & erd & Hdb & _ & _ & _ & ->)|(_ & _ & _ & ->)]];
      [done| |by intros other db Hdb; exists db].
    by eapply insert_continues.
  - destruct (active s) as [connection|] eqn:Ha.
    + eapply touchesOnly_continues; [done|apply evaluate_touchesOnly].
    + by destruct (proj1 (without_connection env s Ha) rego) as [_ ->].
  - destruct (active s) as [connection|] eqn:Ha.
    + eapply touchesOnly_continues; [done|apply execute_touchesOnly].
    + by destruct (proj1 (proj2 (without_connection env s Ha)) q r f) as [_ ->].
  - destruct (active s) as [connection|] eqn:Ha.
    + eapply touchesOnly_continues; [done|apply reload_touchesOnly].
    + by destruct (without_connection env s Ha) as (_ & _ & _ & ->).
Qed.

(** X11. Entries are only dropped by [remove], and only [import] can
    start an entry afresh: through any sequence of the other calls,
    resolved or rejected, every entry stays under its name and its
    history only grows at its end. *)
Theorem entries_and_histories_persist (calls : list (Env * call)) (s : State)
    (name : string) (db : Database.t) :
  Forall (λ ec, replaces ec.2 = false) calls →
  databases s !! name = Some db →
  ∃ db', databases (run calls s) !! name = Some db'
         ∧ Database.name db' = Database.name db
         ∧ Database.history db `prefix_of` Database.history db'.
Proof.
  intros Hcalls. revert s db.
  induction Hcalls as [|[env c] calls Hc _ IH]; intros s db Hdb; simpl.
  { by exists db. }
  destruct (after_continues env c s Hc name db Hdb) as (db1 & Hdb1 & Hn1 & Hp1).
  destruct (IH _ _ Hdb1) as (db' & Hdb' & Hn' & Hp').
  exists db'. split_and!; [done|congruence|by etrans].
Qed.

Lemma entries_and_histories_persist_witness :
  ∃ db',
    databases
      (run [(brokenEngine, Execute "SELEC" None None);
            (shop, Create "invoices" None);
            (strictService, Evaluate "package conditions");
            (shop, Connect "orders");
            (shop, Execute "SELECT 1" None None)]
         ordersStore) !! "orders" = Some db'
    ∧ Database.name db' = "orders"
    ∧ Database.history ordersDatabase `prefix_of` Database.history db'.
Proof.
  apply (entries_and_histories_persist _ ordersStore "orders" ordersDatabase).
  - repeat constructor.
  - reflexivity.
Defined.

(** *** Entries under their names *)

Section Keeps.

Context (P : State → Prop).
Context {A B : Type}.

Lemma keeps_ret (a : A) : keeps P (ret a).
Proof. by intros s. Qed.

Lemma keeps_throw e : keeps P (throw (A:=A) e).
Proof. by intros s. Qed.

Lemma keeps_await call (answer : js_error + A) : keeps P (await call answer).
Proof. by intros s. Qed.

Lemma keeps_bind (m : M A) (k : A → M B) :
  keeps P m → (∀ a, keeps P (k a)) → keeps P (bind m k).
Proof.
  intros Hm Hk s Hs. specialize (Hm s Hs). unfold bind.
  destruct (Outcome.value (m s)) as [e|a]; [done|]. by apply Hk.
Qed.

Lemma keeps_try_catch (m : M A) h :
  keeps P m → (∀ e, keeps P (h e)) → keeps P (try_catch m h).
Proof.
  intros Hm Hh s Hs. specialize (Hm s Hs). unfold try_catch.
  destruct (Outcome.value (m s)) as [e|a]; [by apply Hh|done].
Qed.

Lemma keeps_set recipe :
  (∀ s s', recipe s = inr s' → P s → P s') → keeps P (set recipe).
Proof.
  intros Hr s Hs. unfold set.
  destruct (recipe s) as [e|s'] eqn:Hrs; [done|]. by eapply Hr.
Qed.

End Keeps.

Lemma keeps_get (P : State → Prop) {B} (k : State → M B) :
  (∀ s, keeps P (k s)) → keeps P (bind get k).
Proof. intros Hk. apply keeps_bind; [by intros s|done]. Qed.

Lemma insert_namesCoherent (state : State) name db active' :
  Database.name db = name →
  namesCoherent state →
  namesCoherent
    {| active := active'; databases := <[name := db]> (databases state) |}.
Proof.
  intros Hn Hs key db0. simpl.
  destruct (decide (name = key)) as [<-|Hne].
  - rewrite lookup_insert_eq. congruence.
  - rewrite lookup_insert_ne by done. apply Hs.
Qed.

Lemma assign_namesCoherent name p f :
  (∀ db, Database.name (f db) = Database.name db) →
  ∀ s s', assign name p f s = inr s' → namesCoherent s → namesCoherent s'.
Proof.
  intros Hf s s'. unfold assign.
  destruct (databases s !! name) as [db|] eqn:Hdb;
    [|by destruct (inheritedName name); [intros [= <-]|]].
  intros [= <-] Hs. apply insert_namesCoherent; [|done].
  rewrite Hf. by apply Hs.
Qed.

Lemma keeps_assign name p f :
  (∀ db, Database.name (f db) = Database.name db) →
  keeps namesCoherent (set (assign name p f)).
Proof. intros Hf. apply keeps_set. by apply assign_namesCoherent. Qed.

Lemma keeps_assignAndPush name p f :
  (∀ db, Database.name (f db) = Database.name db) →
  keeps namesCoherent (set (assignAndPush name p f)).
Proof.
  intros Hf. apply keeps_set. intros s s' H%assignAndPush_assign.
  by apply (assign_namesCoherent name p f).
Qed.

Lemma after_namesCoherent (env : Env) (c : call) (s : State) :
  namesCoherent s → namesCoherent (after env c s).
Proof.
  intros Hs. destruct c as [name d|name d|key d|name|name|rego|q r f|];
    cbn [after].
  - destruct (create_cases env name d s)
      as [(e & _ & ->)|(Hn & schema & erd & _ & ->)]; [done|].
    by apply insert_namesCoherent.
  - by apply keeps_assign.
  - destruct (import_cases env key d s)
      as [(e & _ & ->)|(? & ? & ? & _ & _ & _ & _ & _ & ->)]; [done|].
    by apply insert_namesCoherent.
  - simpl. intros key db. simpl.
    intros [_ Hdb]%lookup_delete_Some. by apply Hs.
  - destruct (connect_cases env name s)
      as [(e & _ & ->)
         |[(db & schema & erd & Hdb & _ & _ & _ & ->)|(_ & _ & _ & ->)]];
      [done| |done].
    apply insert_namesCoherent; [|done]. simpl. by apply Hs.
  - destruct (Outcome.value (evaluate env rego s)) as [e|body] eqn:Hv.
    + by rewrite (evaluate_rejected _ _ _ _ Hv).
    + apply evaluate_resolved in Hv
        as (c & _ & [(_ & _ & ->)|(db & resp & Hdb & _ & _ & _ & _ & ->)]);
        [done|].
      apply insert_namesCoherent; [|done]. simpl. by apply Hs.
  - revert s Hs. change (keeps namesCoherent (execute env q r f)).
    unfold execute. apply keeps_get. intros s0. cbv zeta.
    apply keeps_bind.
    { unfold evalFilterOf. destruct r as [[|a r]|]; try apply keeps_ret.
      apply keeps_bind; [|intros; apply keeps_ret].
      intros s1 Hs1.
      destruct (Outcome.value (evaluate env (String a r) s1)) as [e|body] eqn:Hv.
      - by rewrite (evaluate_rejected _ _ _ _ Hv).
      - apply evaluate_resolved in Hv
          as (c & _ & [(_ & _ & ->)|(db & resp & Hdb & _ & _ & _ & _ & ->)]);
          [done|].
        apply insert_namesCoherent; [|done]. simpl. by apply Hs1. }
    intros evalFilter. apply keeps_try_catch.
    + destruct (_ || _); [apply keeps_throw|].
      apply keeps_bind.
      { destruct (from_option id false f); [apply keeps_await|apply keeps_ret]. }
      intros query0. destruct (active s0) as [connection|]; [|apply keeps_throw].
      apply keeps_bind; [apply keeps_await|intros result].
      apply keeps_bind; [by apply keeps_assignAndPush|intros; apply keeps_ret].
    + intros e. apply keeps_bind; [|intros; apply keeps_throw].
      destruct (active s0) as [connection|]; [by apply keeps_assignAndPush|].
      by apply keeps_set.
  - destruct (reload_cases env s)
      as [(e & _ & ->)
         |[(c & db & schema & erd & _ & Hdb & _ & _ & _ & ->)
          |(c & _ & _ & _ & _ & ->)]];
      [done| |done].
    apply insert_namesCoherent; [|done]. simpl. by apply Hs.
Qed.

(** X12. Every entry is stored under its own name: so it is in the
    store as created, and so it stays after every call and every
    sequence of calls, resolved or rejected. *)
Theorem names_are_keys :
  namesCoherent initialState
  ∧ (∀ env c s, namesCoherent s → namesCoherent (after env c s))
  ∧ (∀ calls s, namesCoherent s → namesCoherent (run calls s))
  ∧ (∀ calls key db,
       databases (run calls initialState) !! key = Some db →
       Database.name db = key).
Proof.
  assert (∀ calls s, namesCoherent s → namesCoherent (run calls s)) as Hrun.
  { intros calls. induction calls as [|[env c] calls IH]; intros s Hs; [done|].
    simpl. by apply IH, after_namesCoherent. }
  split_and!; [done|apply after_namesCoherent|exact Hrun|].
  intros calls key db. by apply Hrun.
Qed.

Lemma names_are_keys_witness :
  namesCoherent ordersStore
  ∧ namesCoherent
      (run [(shop, Import "orders" None);
            (shop, Execute "SELECT 1" (Some "package conditions") (Some true));
            (shop, Remove "orders")]
         ordersStore).
Proof.
  assert (namesCoherent ordersStore) as Hs.
  { exact (proj1 (proj2 names_are_keys) shop (Create "orders" None)
             initialState (proj1 names_are_keys)). }
  split; [exact Hs|].
  exact (proj1 (proj2 (proj2 names_are_keys)) _ ordersStore Hs).
Defined.

(** ** [execute], the statement that is run *)

Lemma allWhiteSpace_app (x y : string) :
  allWhiteSpace (x +:+ y) = allWhiteSpace x && allWhiteSpace y.
Proof.
  induction x as [|c x IH]; [done|].
  rewrite app_cons. simpl. rewrite IH. by rewrite andb_assoc.
Qed.

Lemma trimStart_empty (t : string) : trimStart t = "" → allWhiteSpace t = true.
Proof.
  induction t as [|c t IH]; [done|]. simpl.
  destruct (isWhiteSpace c); [auto|done].
Qed.

Lemma trimStart_all_white (t : string) : allWhiteSpace t = true → trimStart t = "".
Proof.
  induction t as [|c t IH]; [done|]. simpl.
  intros [-> Ht]%andb_true_iff. auto.
Qed.

(** The statements that [execute] refuses to run are the ones made of
    white space only. *)
Lemma blank_query (query : string) :
  String.eqb query "" || String.eqb (trim query) "" = allWhiteSpace query.
Proof.
  destruct (trimEnd_suffix query) as (ws & Hws & Hq).
  destruct (allWhiteSpace query) eqn:Hall.
  - apply orb_true_iff. right. apply String.eqb_eq. unfold trim.
    by rewrite trimEnd_all_white.
  - apply orb_false_iff. split; apply String.eqb_neq.
    + by intros ->.
    + unfold trim. intros Ht%trimStart_empty.
      rewrite Hq, allWhiteSpace_app, Ht, Hws in Hall. done.
Qed.

(** The one call that [evaluate] makes once it has its database. *)
Lemma evaluate_trace (env : Env) (rego : string) (s : State)
    (connection : Connection.t) (db : Database.t) :
  active s = Some connection →
  databases s !! Connection.name connection = Some db →
  Outcome.trace (evaluate env rego s)
  = [Fetch (previewRequest (Database.input db) (Database.data db) rego)].
Proof.
  intros Ha Hdb. unfold evaluate. settle. rewrite Ha, Hdb. cbn.
  destruct (fetch env _) as [e|resp]; [done|]. cbn.
  destruct (Response.ok resp); [|done]. cbn.
  destruct (Response.json resp) as [e|result]; [done|]. cbn.
  destruct (codeIn result) as [e|[]]; [done..|]. cbn.
  by rewrite (assign_Some _ _ _ _ db).
Qed.

(** [execute] after the evaluation step, case by case: what it settles
    with, what it has written and the calls it has made. *)
Lemma execute_outcome (env : Env) query rego filter (s : State)
    (connection : Connection.t) (db : Database.t) (v : jsval) :
  active s = Some connection →
  databases s !! Connection.name connection = Some db →
  Outcome.value (evalFilterOf env rego s) = inr v →
  ∃ db1,
    databases (Outcome.store (evalFilterOf env rego s))
      !! Connection.name connection = Some db1
    ∧ Database.history db1 = Database.history db
    ∧ ∀ statement : js_error + string,
        statement = (if allWhiteSpace query then inl (Error "no query to run")
                     else if from_option id false filter then combine query v
                     else inr query) →
        Outcome.value (execute env query rego filter s)
        = match statement with
          | inl e => inl e
          | inr query0 => exec env (Connection.postgres connection) query0
          end
        ∧ Outcome.trace (execute env query rego filter s)
          = (Outcome.trace (evalFilterOf env rego s) ++
             match statement with
             | inl _ => []
             | inr query0 => [Exec (Connection.postgres connection) query0]
             end)%list
        ∧ databases (Outcome.store (execute env query rego filter s))
            !! Connection.name connection
          = Some
              match statement with
              | inl e =>
                  withFailure env query (toLocaleString env)
                    (performance_now env 0) e db1
              | inr query0 =>
                  match exec env (Connection.postgres connection) query0 with
                  | inl e =>
                      withFailure env query (toLocaleString env)
                        (performance_now env 0) e db1
                  | inr result =>
                      withResult env query query0 (toLocaleString env)
                        (performance_now env 0) result db1
                  end
              end
        ∧ active (Outcome.store (execute env query rego filter s))
          = Some connection
        ∧ ∀ other, other ≠ Connection.name connection →
            databases (Outcome.store (execute env query rego filter s)) !! other
            = databases (Outcome.store (evalFilterOf env rego s)) !! other.
Proof.
  intros Ha Hdb Hv.
  destruct (evalFilterOf_resolved _ _ _ _ _ _ Hv Hdb) as (Ha1 & db1 & Hdb1 & Hh).
  exists db1. split_and!; [done..|]. intros statement ->.
  unfold execute. settle. rewrite Hv, Ha. cbn.
  rewrite blank_query.
  destruct (allWhiteSpace query); cbn.
  { rewrite (assignAndPush_Some _ _ _ _ db1) by done. cbn.
    rewrite lookup_insert_eq, Ha1, Ha. split_and!; try done.
    intros other Hne. by rewrite lookup_insert_ne. }
  destruct (from_option id false filter); cbn.
  - destruct (combine query v) as [e|query0]; cbn.
    { rewrite (assignAndPush_Some _ _ _ _ db1) by done. cbn.
      rewrite lookup_insert_eq, Ha1, Ha. split_and!; try done.
      intros other Hne. by rewrite lookup_insert_ne. }
    destruct (exec env (Connection.postgres connection) query0); cbn;
      rewrite (assignAndPush_Some _ _ _ _ db1) by done; cbn;
      rewrite ?app_nil_r, lookup_insert_eq, Ha1, Ha; split_and!; try done;
      intros other Hne; by rewrite lookup_insert_ne.
  - destruct (exec env (Connection.postgres connection) query); cbn;
      rewrite (assignAndPush_Some _ _ _ _ db1) by done; cbn;
      rewrite ?app_nil_r, lookup_insert_eq, Ha1, Ha; split_and!; try done;
      intros other Hne; by rewrite lookup_insert_ne.
Qed.

(** The evaluation step of [execute] with a policy text. *)
Lemma evalFilterOf_policy (env : Env) (rego : string) (s : State) (body : jsval) :
  rego ≠ "" →
  Outcome.value (evaluate env rego s) = inr body →
  Outcome.value (evalFilterOf env (Some rego) s)
  = inr (optionalGet (optionalGet body "result") "query")
  ∧ Outcome.store (evalFilterOf env (Some rego) s)
    = Outcome.store (evaluate env rego s)
  ∧ Outcome.trace (evalFilterOf env (Some rego) s)
    = Outcome.trace (evaluate env rego s).
Proof.
  intros Hr Hv. destruct rego as [|c rego]; [done|].
  unfold evalFilterOf. settle. rewrite Hv. cbn. by rewrite app_nil_r.
Qed.

(** X13. A statement made of white space only is never sent to the
    engine: with an active session on an entry of the registry and the
    evaluation step through, [execute] is rejected with the error
    [no query to run], has made no call beyond those of the evaluation
    step, and has recorded the attempt: one new last entry with that
    message and no results, and the empty data grid. *)
Theorem execute_blank_query (env : Env) (query : string) (rego : option string)
    (filter : option bool) (s : State) (connection : Connection.t)
    (db : Database.t) (v : jsval) :
  active s = Some connection →
  databases s !! Connection.name connection = Some db →
  Outcome.value (evalFilterOf env rego s) = inr v →
  allWhiteSpace query = true →
  Outcome.value (execute env query rego filter s)
  = inl (Error "no query to run")
  ∧ Outcome.trace (execute env query rego filter s)
    = Outcome.trace (evalFilterOf env rego s)
  ∧ (rego = None → Outcome.trace (execute env query rego filter s) = [])
  ∧ ∃ db' entry,
      databases (Outcome.store (execute env query rego filter s))
        !! Connection.name connection = Some db'
      ∧ Database.history db' = (Database.history db ++ [entry])%list
      ∧ QueryHistory.error entry = Some "no query to run"
      ∧ QueryHistory.statement entry = query
      ∧ QueryHistory.statementWithFilter entry = None
      ∧ QueryHistory.results entry = None
      ∧ Database.query db' = Some query
      ∧ Database.datagrid db' = Some [].
Proof.
  intros Ha Hdb Hv Hq.
  destruct (execute_outcome env query rego filter s _ _ _ Ha Hdb Hv)
    as (db1 & Hdb1 & Hh & Hout).
  destruct (Hout _ eq_refl) as (Hval & Htr & Hst & _ & _). rewrite Hq in *.
  split_and!; [done|by rewrite Htr, app_nil_r| |].
  - intros ->. by rewrite Htr.
  - eexists _, _. split; [exact Hst|]. simpl. rewrite Hh. by split_and!.
Qed.

Lemma execute_blank_query_witness :
  Outcome.value (execute shop "  " None (Some true) ordersStore)
  = inl (Error "no query to run")
  ∧ Outcome.trace (execute shop "  " None (Some true) ordersStore) = [].
Proof.
  destruct (execute_blank_query shop "  " None (Some true) ordersStore
              ordersConnection ordersDatabase JUndefined
              eq_refl eq_refl eq_refl eq_refl) as (Hv & _ & Ht & _).
  split; [exact Hv|exact (Ht eq_refl)].
Defined.

(** X14. Without the filter flag, a statement that is not blank goes to
    the engine of the active session exactly as given, after the calls of
    the evaluation step, and [execute] settles as the engine does; the
    attempt is the new last entry of the history, with the statement as
    both of its forms when the engine accepts it, and with the engine's
    message when it does not. *)
Theorem execute_unfiltered (env : Env) (query : string) (rego : option string)
    (filter : option bool) (s : State) (connection : Connection.t)
    (db : Database.t) (v : jsval) :
  active s = Some connection →
  databases s !! Connection.name connection = Some db →
  Outcome.value (evalFilterOf env rego s) = inr v →
  allWhiteSpace query = false →
  from_option id false filter = false →
  Outcome.value (execute env query rego filter s)
  = exec env (Connection.postgres connection) query
  ∧ Outcome.trace (execute env query rego filter s)
    = (Outcome.trace (evalFilterOf env rego s)
         ++ [Exec (Connection.postgres connection) query])%list
  ∧ ∃ db' entry,
      databases (Outcome.store (execute env query rego filter s))
        !! Connection.name connection = Some db'
      ∧ Database.history db' = (Database.history db ++ [entry])%list
      ∧ QueryHistory.statement entry = query
      ∧ (∀ result,
           exec env (Connection.postgres connection) query = inr result →
           QueryHistory.statementWithFilter entry = Some query
           ∧ QueryHistory.error entry = None)
      ∧ (∀ e,
           exec env (Connection.postgres connection) query = inl e →
           QueryHistory.error entry = Some (message e)
           ∧ QueryHistory.statementWithFilter entry = None).
Proof.
  intros Ha Hdb Hv Hq Hf.
  destruct (execute_outcome env query rego filter s _ _ _ Ha Hdb Hv)
    as (db1 & Hdb1 & Hh & Hout).
  destruct (Hout _ eq_refl) as (Hval & Htr & Hst & _ & _). rewrite Hq, Hf in *.
  split_and!; [done..|].
  destruct (exec env (Connection.postgres connection) query) as [e|result];
    eexists _, _; (split; [exact Hst|]); simpl; rewrite Hh;
    split_and!; try done; by intros ? [= <-].
Qed.

Lemma execute_unfiltered_witness :
  Outcome.value (execute shop "SELECT * FROM products" None None ordersStore)
  = inr oneRow
  ∧ Outcome.trace (execute shop "SELECT * FROM products" None None ordersStore)
    = [Exec {| dataDir := "idb://orders"; instance := 1 |} "SELECT * FROM products"].
Proof.
  destruct (execute_unfiltered shop "SELECT * FROM products" None None
              ordersStore ordersConnection ordersDatabase JUndefined
              eq_refl eq_refl eq_refl eq_refl eq_refl) as (Hv & Ht & _).
  split; [exact Hv|exact Ht].
Defined.

(** X15. The filtered run, end to end.  With an active session on an
    entry of the registry, a policy text that the service evaluates to a
    body whose result has the query WHERE and a condition, the filter
    flag set and a statement that is not blank, [execute] makes two
    calls, the request to the service and then the engine on the
    statement without its trailing white space and one terminator,
    followed by a line feed, AND or WHERE and the condition, and settles
    as the engine does; when the engine accepts, the new last entry of
    the history has the statement as typed and as run, and the
    database's filter is the service's.  When the result has no query
    the statement is run as typed. *)
Theorem execute_filtered (env : Env) (query rego : string) (s : State)
    (connection : Connection.t) (db : Database.t) (body : jsval) :
  active s = Some connection →
  databases s !! Connection.name connection = Some db →
  rego ≠ "" →
  Outcome.value (evaluate env rego s) = inr body →
  allWhiteSpace query = false →
  (∀ condition base,
     optionalGet (optionalGet body "result") "query"
     = JStr ("WHERE " +:+ condition) →
     Stripped query base →
     let statement :=
       base +:+ LF +:+ (if testWhere query then "AND " else "WHERE ")
         +:+ condition in
     Outcome.value (execute env query (Some rego) (Some true) s)
     = exec env (Connection.postgres connection) statement
     ∧ Outcome.trace (execute env query (Some rego) (Some true) s)
       = [Fetch (previewRequest (Database.input db) (Database.data db) rego);
          Exec (Connection.postgres connection) statement]
     ∧ (∀ result,
          exec env (Connection.postgres connection) statement = inr result →
          ∃ db' entry,
            databases (Outcome.store (execute env query (Some rego) (Some true) s))
              !! Connection.name connection = Some db'
            ∧ Database.history db' = (Database.history db ++ [entry])%list
            ∧ QueryHistory.statement entry = query
            ∧ QueryHistory.statementWithFilter entry = Some statement
            ∧ Database.filter db' = JStr ("WHERE " +:+ condition)
            ∧ Database.rego db' = Some rego))
  ∧ (optionalGet (optionalGet body "result") "query" = JUndefined →
     Outcome.value (execute env query (Some rego) (Some true) s)
     = exec env (Connection.postgres connection) query
     ∧ Outcome.trace (execute env query (Some rego) (Some true) s)
       = [Fetch (previewRequest (Database.input db) (Database.data db) rego);
          Exec (Connection.postgres connection) query]).
Proof.
  intros Ha Hdb Hr Hv Hq.
  destruct (evalFilterOf_policy env rego s body Hr Hv) as (Hev & Hes & Het).
  destruct (execute_outcome env query (Some rego) (Some true) s _ _ _ Ha Hdb Hev)
    as (db1 & Hdb1 & Hh & Hout).
  destruct (Hout _ eq_refl) as (Hval & Htr & Hst & _ & _). clear Hout.
  rewrite Hq in *. cbn [from_option id] in *.
  rewrite Het, (evaluate_trace env rego s _ _ Ha Hdb) in Htr.
  assert (db1 = withEvaluation rego body db) as ->.
  { rewrite Hes in Hdb1.
    destruct (evaluate_resolved_entry _ _ _ _ _ _ Ha Hdb Hv)
      as (resp & _ & _ & _ & _ & Hstore).
    rewrite Hstore in Hdb1. simpl in Hdb1.
    rewrite lookup_insert_eq in Hdb1. congruence. }
  split.
  - intros condition base Hfrag Hbase.
    rewrite Hfrag in Hval, Htr, Hst.
    rewrite (combine_string query _ base) in Hval, Htr, Hst
      by (by apply prefixed_nonempty || done).
    rewrite slice_6 in Hval, Htr, Hst by done.
    cbv zeta. split_and!; [done..|].
    intros result Hx. rewrite Hx in Hst.
    eexists _, _. split; [exact Hst|]. simpl. by rewrite Hfrag.
  - intros Hnone. rewrite Hnone in Hval, Htr. by split.
Qed.

Lemma execute_filtered_witness :
  Outcome.value
    (execute shop "SELECT * FROM products;" (Some "package conditions")
       (Some true) ordersStore)
  = inr oneRow
  ∧ Outcome.trace
      (execute shop "SELECT * FROM products;" (Some "package conditions")
         (Some true) ordersStore)
    = [Fetch (previewRequest (JObj []) JUndefined "package conditions");
       Exec {| dataDir := "idb://orders"; instance := 1 |}
         ("SELECT * FROM products" +:+ LF +:+ "WHERE " +:+ "products.price <= 500")].
Proof.
  destruct (proj1 (execute_filtered shop "SELECT * FROM products;"
                     "package conditions" ordersStore ordersConnection
                     ordersDatabase lowPrices eq_refl eq_refl
                     ltac:(discriminate) eq_refl eq_refl)
              "products.price <= 500" "SELECT * FROM products" eq_refl
              (Stripped_after_trim "SELECT * FROM products;"))
    as (Hv & Ht & _).
  split; [exact Hv|exact Ht].
Defined.

Lemma State_eq (s1 s2 : State) :
  active s1 = active s2 →
  (∀ name, databases s1 !! name = databases s2 !! name) →
  s1 = s2.
Proof.
  destruct s1 as [a1 d1], s2 as [a2 d2]. simpl. intros -> Hd.
  f_equal. by apply map_eq.
Qed.

(** X16. Without the filter flag, [execute] with a policy text that is
    not empty is [evaluate] of that text followed by [execute] without
    one.  With an active session on an entry of the registry, when the
    evaluation resolves and the engine answers the second [execute] as
    it answers the first, the two settle alike and make the same calls,
    and they leave the same store but for the two time stamps of the new
    history entry: [execute] reads the clock before the evaluation in the
    one and after it in the other. *)
Theorem execute_after_evaluate (env env' : Env) (query rego : string)
    (filter : option bool) (s : State) (connection : Connection.t)
    (db : Database.t) (body : jsval) :
  active s = Some connection →
  databases s !! Connection.name connection = Some db →
  rego ≠ "" →
  from_option id false filter = false →
  Outcome.value (evaluate env rego s) = inr body →
  exec env' = exec env →
  postgresTransformer env' = postgresTransformer env →
  let one := execute env query (Some rego) filter s in
  let two :=
    execute env' query None filter (Outcome.store (evaluate env rego s)) in
  Outcome.value one = Outcome.value two
  ∧ Outcome.trace one
    = (Outcome.trace (evaluate env rego s) ++ Outcome.trace two)%list
  ∧ active (Outcome.store one) = active (Outcome.store two)
  ∧ (∀ other, other ≠ Connection.name connection →
       databases (Outcome.store one) !! other
       = databases (Outcome.store two) !! other)
  ∧ ∃ db1 db2 entry1 entry2,
      databases (Outcome.store one) !! Connection.name connection = Some db1
      ∧ databases (Outcome.store two) !! Connection.name connection = Some db2
      ∧ Database.history db1 = (Database.history db ++ [entry1])%list
      ∧ Database.history db2 = (Database.history db ++ [entry2])%list
      ∧ QueryHistory.statement entry1 = QueryHistory.statement entry2
      ∧ QueryHistory.statementWithFilter entry1
        = QueryHistory.statementWithFilter entry2
      ∧ QueryHistory.error entry1 = QueryHistory.error entry2
      ∧ QueryHistory.results entry1 = QueryHistory.results entry2
      ∧ Database.name db1 = Database.name db2
      ∧ Database.createdAt db1 = Database.createdAt db2
      ∧ Database.description db1 = Database.description db2
      ∧ Database.schema db1 = Database.schema db2
      ∧ Database.erd db1 = Database.erd db2
      ∧ Database.query db1 = Database.query db2
      ∧ Database.rego db1 = Database.rego db2
      ∧ Database.input db1 = Database.input db2
      ∧ Database.data db1 = Database.data db2
      ∧ Database.evaluated db1 = Database.evaluated db2
      ∧ Database.filter db1 = Database.filter db2
      ∧ Database.datagrid db1 = Database.datagrid db2.
Proof.
  intros Ha Hdb Hr Hf Hv Hexec Htrans. cbv zeta.
  destruct (evalFilterOf_policy env rego s body Hr Hv) as (Hev & Hes & Het).
  destruct (evaluate_resolved_entry _ _ _ _ _ _ Ha Hdb Hv)
    as (resp & _ & _ & _ & _ & Hstore).
  destruct (execute_outcome env query (Some rego) filter s _ _ _ Ha Hdb Hev)
    as (db1 & Hdb1 & Hh1 & Hout).
  destruct (Hout _ eq_refl) as (Hval & Htr & Hst & Hact & Hoth). clear Hout.
  rewrite Hes in Hdb1, Hoth. rewrite Het in Htr.
  assert (active (Outcome.store (evaluate env rego s)) = Some connection) as Ha1
    by (by rewrite Hstore).
  destruct (execute_outcome env' query None filter
              (Outcome.store (evaluate env rego s)) connection db1 JUndefined
              Ha1 Hdb1 eq_refl) as (db2 & Hdb2 & _ & Hout).
  destruct (Hout _ eq_refl) as (Hval' & Htr' & Hst' & Hact' & Hoth').
  clear Hout.
  change (evalFilterOf env' None (Outcome.store (evaluate env rego s)))
    with (ret JUndefined (Outcome.store (evaluate env rego s)))
    in Hdb2, Htr', Hoth'.
  unfold ret in Hdb2, Htr', Hoth'.
  cbn [Outcome.store Outcome.trace app] in Hdb2, Htr', Hoth'.
  assert (db2 = db1) as -> by congruence.
  rewrite Hf in *. rewrite Hexec in *.
  split_and!.
  - by rewrite Hval, Hval'.
  - by rewrite Htr, Htr'.
  - by rewrite Hact, Hact'.
  - intros other Hne. by rewrite Hoth, Hoth'.
  - rewrite Hst, Hst'.
    destruct (allWhiteSpace query).
    { eexists _, _, _, _. split; [reflexivity|]. split; [reflexivity|].
      simpl. rewrite Hh1. by split_and!. }
    destruct (exec env (Connection.postgres connection) query);
      (eexists _, _, _, _; split; [reflexivity|]; split; [reflexivity|];
       simpl; rewrite Hh1, ?Htrans; by split_and!).
Qed.

Lemma execute_after_evaluate_witness :
  Outcome.value
    (execute brokenEngine "SELEC" (Some "package conditions") None ordersStore)
  = Outcome.value
      (execute (later brokenEngine) "SELEC" None None
         (Outcome.store (evaluate brokenEngine "package conditions" ordersStore)))
  ∧ Outcome.trace
      (execute brokenEngine "SELEC" (Some "package conditions") None ordersStore)
    = (Outcome.trace (evaluate brokenEngine "package conditions" ordersStore)
       ++ Outcome.trace
            (execute (later brokenEngine) "SELEC" None None
               (Outcome.store
                  (evaluate brokenEngine "package conditions" ordersStore))))%list.
Proof.
  destruct (execute_after_evaluate brokenEngine (later brokenEngine) "SELEC"
              "package conditions" None ordersStore ordersConnection
              ordersDatabase lowPrices eq_refl eq_refl ltac:(discriminate)
              eq_refl eq_refl eq_refl eq_refl)
    as (Hv & Ht & _).
  split; [exact Hv|exact Ht].
Defined.

(** X17. The evaluation that [execute] starts with is committed whatever
    becomes of the statement: once the service has answered, the active
    database has the policy text, the result and its query as [rego],
    [evaluated] and [filter], also when [execute] is rejected for the
    statement. *)
Theorem execute_keeps_evaluation (env : Env) (query rego : string)
    (filter : option bool) (s : State) (connection : Connection.t)
    (db : Database.t) (body : jsval) :
  active s = Some connection →
  databases s !! Connection.name connection = Some db →
  rego ≠ "" →
  Outcome.value (evaluate env rego s) = inr body →
  ∃ db',
    databases (Outcome.store (execute env query (Some rego) filter s))
      !! Connection.name connection = Some db'
    ∧ Database.rego db' = Some rego
    ∧ Database.evaluated db' = optionalGet body "result"
    ∧ Database.filter db' = optionalGet (optionalGet body "result") "query".
Proof.
  intros Ha Hdb Hr Hv.
  destruct (evalFilterOf_policy env rego s body Hr Hv) as (Hev & Hes & _).
  destruct (execute_outcome env query (Some rego) filter s _ _ _ Ha Hdb Hev)
    as (db1 & Hdb1 & _ & Hout).
  destruct (Hout _ eq_refl) as (_ & _ & Hst & _ & _). clear Hout.
  assert (db1 = withEvaluation rego body db) as ->.
  { rewrite Hes in Hdb1.
    destruct (evaluate_resolved_entry _ _ _ _ _ _ Ha Hdb Hv)
      as (resp & _ & _ & _ & _ & Hstore).
    rewrite Hstore in Hdb1. simpl in Hdb1.
    rewrite lookup_insert_eq in Hdb1. congruence. }
  eexists. split; [exact Hst|].
  repeat case_match; by split_and!.
Qed.

Lemma execute_keeps_evaluation_witness :
  Outcome.value
    (execute brokenEngine "SELEC" (Some "package conditions") (Some true)
       ordersStore)
  = inl (Error "syntax error at or near SELEC")
  ∧ ∃ db',
      databases
        (Outcome.store
           (execute brokenEngine "SELEC" (Some "package conditions") (Some true)
              ordersStore)) !! "orders" = Some db'
      ∧ Database.filter db' = JStr "WHERE products.price <= 500".
Proof.
  split; [reflexivity|].
  destruct (execute_keeps_evaluation brokenEngine "SELEC" "package conditions"
              (Some true) ordersStore ordersConnection ordersDatabase lowPrices
              eq_refl eq_refl ltac:(discriminate) eq_refl)
    as (db' & Hl & _ & _ & Hf).
  exists db'. split; [exact Hl|exact Hf].
Defined.

(** X18. [evaluate] twice in a row, the service answering the same,
    leaves the store that one evaluation leaves and settles as the first
    did. *)
Theorem evaluate_idempotent (env : Env) (rego : string) (s : State) :
  Outcome.store (evaluate env rego (Outcome.store (evaluate env rego s)))
  = Outcome.store (evaluate env rego s)
  ∧ Outcome.value (evaluate env rego (Outcome.store (evaluate env rego s)))
    = Outcome.value (evaluate env rego s).
Proof.
  destruct (Outcome.value (evaluate env rego s)) as [e|body] eqn:Hv.
  - pose proof (evaluate_rejected _ _ _ _ Hv) as Hs. by rewrite !Hs, Hv.
  - pose proof Hv as Hres.
    apply evaluate_resolved in Hres
      as (c & Ha & [(_ & _ & Hst)
                   |(db & resp & Hdb & Hf & Hok & Hj & Hc & ->)]).
    { by rewrite !Hst. }
    match goal with
    | |- context [evaluate env rego ?s'] =>
        destruct (evaluate_answered env rego s' c (withEvaluation rego body db)
                    resp) as [_ Hgood];
          [by rewrite <- Ha|apply lookup_insert_eq|exact Hf|]
    end.
    destruct (proj2 (Hgood body Hok Hj) Hc) as [-> ->].
    split; [|done]. simpl. by rewrite insert_insert_eq.
Qed.

(** ** More on the statement composer *)

Lemma containsWhere_app_r (x y : string) :
  containsWhere x → containsWhere (x +:+ y).
Proof.
  intros (pre & w & post & -> & Hw). exists pre, w, (post +:+ y).
  by rewrite !app_assoc'.
Qed.

Lemma containsWhere_app_l (x y : string) :
  containsWhere y → containsWhere (x +:+ y).
Proof.
  intros (pre & w & post & -> & Hw). exists (x +:+ pre), w, post.
  by rewrite !app_assoc'.
Qed.

(** X19. The statement that [combine] makes with a string filter that is
    not empty always contains WHERE, so composing once more appends the
    next filter with AND: filters pile up as a conjunction. *)
Theorem combine_twice (existing filter composed : string) :
  filter ≠ "" →
  combine existing (JStr filter) = inr composed →
  containsWhere composed
  ∧ ∀ prefix condition base,
      String.length prefix = 6%nat →
      Stripped composed base →
      combine composed (JStr (prefix +:+ condition))
      = inr (base +:+ LF +:+ "AND " +:+ condition).
Proof.
  intros Hf Hc.
  assert (containsWhere composed) as Hw.
  { rewrite (combine_string existing filter _ Hf (Stripped_after_trim existing))
      in Hc.
    injection Hc as <-.
    destruct (testWhere existing) eqn:Ht.
    - apply containsWhere_app_r.
      rewrite <- testWhere_spec, (testWhere_Stripped existing); [done|].
      apply Stripped_after_trim.
    - apply containsWhere_app_l, containsWhere_app_l.
      by exists "", "WHERE", (" " +:+ slice filter 6 None). }
  split; [done|].
  intros prefix condition base Hp Hb.
  rewrite (combine_string composed _ base);
    [|by apply prefixed_nonempty|done].
  apply testWhere_spec in Hw. by rewrite Hw, slice_6.
Qed.

Lemma combine_twice_witness :
  combine "SELECT * FROM t" (JStr "WHERE x = 1")
  = inr ("SELECT * FROM t" +:+ LF +:+ "WHERE x = 1")
  ∧ combine ("SELECT * FROM t" +:+ LF +:+ "WHERE x = 1") (JStr ("WHERE " +:+ "y = 2"))
    = inr (("SELECT * FROM t" +:+ LF +:+ "WHERE x = 1") +:+ LF +:+ "AND " +:+ "y = 2").
Proof.
  split; [reflexivity|].
  apply (combine_twice "SELECT * FROM t" "WHERE x = 1" _
           ltac:(discriminate) eq_refl).
  - reflexivity.
  - exact (Stripped_after_trim ("SELECT * FROM t" +:+ LF +:+ "WHERE x = 1")).
Defined.

(** X20. For a string filter that is not empty, trailing white space and
    one trailing terminator of the statement make no difference to what
    [combine] returns. *)
Theorem combine_ignores_tail (existing filter : string) :
  filter ≠ "" →
  (∀ ws, allWhiteSpace ws = true →
     combine (existing +:+ ws) (JStr filter) = combine existing (JStr filter))
  ∧ (¬ endsWithWhiteSpace existing → ¬ endsWithTerminator existing →
     ∀ ws, allWhiteSpace ws = true →
       combine (existing +:+ ";" +:+ ws) (JStr filter)
       = combine existing (JStr filter)).
Proof.
  intros Hf. split.
  - intros ws Hws.
    rewrite (combine_string (existing +:+ ws) filter _ Hf
               (Stripped_after_trim _)).
    rewrite (combine_string existing filter _ Hf (Stripped_after_trim _)).
    rewrite trimEnd_app_white by done.
    by rewrite testWhere_app_inert by by apply allWhiteSpace_inert.
  - intros Hw Ht ws Hws.
    assert (Stripped (existing +:+ ";" +:+ ws) existing) as H1
      by (exists ws; auto).
    assert (Stripped existing existing) as H2.
    { exists "". split; [done|]. right. by rewrite app_empty_r. }
    rewrite (combine_string _ filter _ Hf H1).
    rewrite (combine_string _ filter _ Hf H2).
    by rewrite <- (testWhere_Stripped _ _ H1).
Qed.

Lemma combine_ignores_tail_witness :
  combine ("SELECT * FROM t" +:+ ";" +:+ "  ") (JStr "WHERE x = 1")
  = combine "SELECT * FROM t" (JStr "WHERE x = 1").
Proof.
  apply (combine_ignores_tail "SELECT * FROM t" "WHERE x = 1"
           ltac:(discriminate)).
  - change "SELECT * FROM t" with (trimEnd "SELECT * FROM t").
    apply trimEnd_maximal.
  - rewrite <- endsWith_terminator. discriminate.
  - reflexivity.
Defined.

(** X21. What [combine] does with a filter that is not a string: a falsy
    one leaves the statement as it is; [true], a number that is not zero
    and an object make it throw, for want of a method [slice]; an array
    is cut and joined like a string, and throws only if the conversion
    to a string of what is left of it does. *)
Theorem combine_other_values (existing : string) (filter : jsval) :
  (ToBoolean filter = false → combine existing filter = inr existing)
  ∧ (ToBoolean filter = true →
     filter = JBool true ∨ (∃ text, filter = JNum text)
     ∨ (∃ properties, filter = JObj properties) →
     combine existing filter = inl (notAFunction "filter.slice"))
  ∧ (∀ elements base,
       filter = JArr elements →
       Stripped existing base →
       combine existing filter
       = match ToString (JArr (drop 6 elements)) with
         | inl e => inl e
         | inr tail =>
             inr (base +:+ LF
                    +:+ (if testWhere existing then "AND " else "WHERE ")
                    +:+ tail)
         end).
Proof.
  split_and!.
  - unfold combine. by intros ->.
  - unfold combine. intros -> [->|[[text ->]|[properties ->]]]; done.
  - intros elements base -> Hb. unfold combine, sliceFrom6.
    cbn [ToBoolean negb].
    rewrite <- (Stripped_unique _ _ Hb), (testWhere_Stripped _ _ Hb).
    destruct (ToString (JArr (drop 6 elements))); [done|].
    by destruct (testWhere existing).
Qed.

Lemma combine_other_values_witness :
  combine "SELECT 1" JNull = inr "SELECT 1"
  ∧ combine "SELECT 1" (JObj [("lte", JNum "500")])
    = inl (notAFunction "filter.slice")
  ∧ combine "SELECT 1;"
      (JArr [JNull; JNull; JNull; JNull; JNull; JNull; JStr "x"; JNum "1"])
    = inr ("SELECT 1" +:+ LF +:+ "WHERE " +:+ "x,1")
  ∧ combine "SELECT 1;"
      (JArr [JNull; JNull; JNull; JNull; JNull; JNull;
             JObj [("toString", JNum "1")]])
    = inl cannotConvert.
Proof.
  destruct (combine_other_values "SELECT 1" JNull) as (Hfalsy & _ & _).
  destruct (combine_other_values "SELECT 1" (JObj [("lte", JNum "500")]))
    as (_ & Hthrows & _).
  destruct (combine_other_values "SELECT 1;"
              (JArr [JNull; JNull; JNull; JNull; JNull; JNull; JStr "x"; JNum "1"]))
    as (_ & _ & Harray).
  destruct (combine_other_values "SELECT 1;"
              (JArr [JNull; JNull; JNull; JNull; JNull; JNull;
                     JObj [("toString", JNum "1")]]))
    as (_ & _ & Harray').
  split_and!.
  - exact (Hfalsy eq_refl).
  - exact (Hthrows eq_refl (or_intror (or_intror (ex_intro _ _ eq_refl)))).
  - exact (Harray _ "SELECT 1" eq_refl (Stripped_after_trim "SELECT 1;")).
  - exact (Harray' _ "SELECT 1" eq_refl (Stripped_after_trim "SELECT 1;")).
Defined.

Lemma remove_drops_session_witness :
  active ordersStore = Some ordersConnection
  ∧ active (Outcome.store (remove shop "invoices" ordersStore)) = None
  ∧ after shop Reload (Outcome.store (remove shop "invoices" ordersStore))
    = Outcome.store (remove shop "invoices" ordersStore).
Proof.
  destruct (remove_drops_session shop "invoices" ordersStore)
    as (_ & Ha & _ & _ & _ & Hr).
  split_and!; [reflexivity|exact Ha|].
  exact (proj2 (Hr shop Reload (or_introl eq_refl))).
Defined.

(** ** The playground's handlers *)

(** The parsed write of [setInput] and [setData]. *)
Lemma assignParsed_cases parse p f text (s : State) :
  assignParsed parse p f text s = inr s
  ∨ ∃ connection db value,
      active s = Some connection
      ∧ databases s !! Connection.name connection = Some db
      ∧ parseOrEmpty parse text = inr value
      ∧ assignParsed parse p f text s
        = inr {| active := active s;
                 databases :=
                   <[Connection.name connection := f value db]> (databases s) |}.
Proof.
  unfold assignParsed.
  destruct (active s) as [connection|] eqn:Ha; [|by left].
  destruct (parseOrEmpty parse text) as [e|value] eqn:Hp; [by left|].
  unfold assign.
  destruct (databases s !! Connection.name connection) as [db|] eqn:Hdb;
    [|by destruct (inheritedName _); left].
  right. exists connection, db, value. by rewrite Ha.
Qed.

(** X22. [setInput] never throws.  A text that does not parse, a missing
    session and a session on a name that has no entry all leave the
    store as it was; a text that parses becomes the [input] of the active
    database, an absent or empty text makes it the empty object, and
    nothing else is written.  [setData] does the same for [data]. *)
Theorem setInput_best_effort (parse : string → js_error + jsval)
    (text : option string) (s : State) :
  Outcome.value (setInput parse text s) = inr tt
  ∧ Outcome.value (setData parse text s) = inr tt
  ∧ (∀ e, parseOrEmpty parse text = inl e →
       Outcome.store (setInput parse text s) = s
       ∧ Outcome.store (setData parse text s) = s)
  ∧ (active s = None →
     Outcome.store (setInput parse text s) = s
     ∧ Outcome.store (setData parse text s) = s)
  ∧ (∀ connection,
       active s = Some connection →
       databases s !! Connection.name connection = None →
       Outcome.store (setInput parse text s) = s
       ∧ Outcome.store (setData parse text s) = s)
  ∧ (text = None ∨ text = Some "" → parseOrEmpty parse text = inr (JObj []))
  ∧ (∀ connection db value,
       active s = Some connection →
       databases s !! Connection.name connection = Some db →
       parseOrEmpty parse text = inr value →
       Outcome.store (setInput parse text s)
       = {| active := active s;
            databases :=
              <[Connection.name connection := withInput value db]>
                (databases s) |}
       ∧ Outcome.store (setData parse text s)
         = {| active := active s;
              databases :=
                <[Connection.name connection := withData value db]>
                  (databases s) |}
       ∧ Database.input (withInput value db) = value
       ∧ Database.data (withInput value db) = Database.data db
       ∧ Database.history (withInput value db) = Database.history db
       ∧ Database.data (withData value db) = value
       ∧ Database.input (withData value db) = Database.input db).
Proof.
  unfold setInput, setData, set. split_and!.
  - by destruct (assignParsed_cases parse "input" withInput text s)
      as [->|(? & ? & ? & _ & _ & _ & ->)].
  - by destruct (assignParsed_cases parse "data" withData text s)
      as [->|(? & ? & ? & _ & _ & _ & ->)].
  - intros e He. unfold assignParsed. rewrite He.
    by destruct (active s).
  - intros Ha. unfold assignParsed. by rewrite Ha.
  - intros connection Ha Hdb. unfold assignParsed, assign. rewrite Ha, Hdb.
    destruct (parseOrEmpty parse text); [done|].
    by destruct (inheritedName _).
  - by intros [->| ->].
  - intros connection db value Ha Hdb Hp.
    unfold assignParsed. rewrite Ha, Hp.
    rewrite !(assign_Some _ _ _ _ db) by done. by rewrite Ha.
Qed.

Lemma setInput_best_effort_witness :
  Outcome.store
    (setInput (λ _, inl (SyntaxError "Unexpected end of JSON input"))
       (Some "{") ordersStore)
  = ordersStore
  ∧ Outcome.store
      (setInput (λ _, inr (JObj [("user", JStr "Emma Clark")]))
         (Some "{ user: Emma Clark }")
         (Outcome.store (connect shop "constructor" initialState)))
    = Outcome.store (connect shop "constructor" initialState)
  ∧ Outcome.store
      (setInput (λ _, inr (JObj [("user", JStr "Emma Clark")]))
         (Some "{ user: Emma Clark }") ordersStore)
    = {| active := active ordersStore;
         databases :=
           <["orders" := withInput (JObj [("user", JStr "Emma Clark")])
                           ordersDatabase]> (databases ordersStore) |}.
Proof.
  destruct (setInput_best_effort
              (λ _, inl (SyntaxError "Unexpected end of JSON input"))
              (Some "{") ordersStore) as (_ & _ & Hbad & _).
  destruct (setInput_best_effort
              (λ _, inr (JObj [("user", JStr "Emma Clark")]))
              (Some "{ user: Emma Clark }") ordersStore)
    as (_ & _ & _ & _ & _ & _ & Hgood).
  destruct (setInput_best_effort
              (λ _, inr (JObj [("user", JStr "Emma Clark")]))
              (Some "{ user: Emma Clark }")
              (Outcome.store (connect shop "constructor" initialState)))
    as (_ & _ & _ & _ & Hmissing & _).
  split_and!.
  - exact (proj1 (Hbad _ eq_refl)).
  - exact (proj1 (Hmissing
                    {| Connection.name := "constructor";
                       Connection.postgres :=
                         {| dataDir := "idb://constructor"; instance := 1 |} |}
                    eq_refl eq_refl)).
  - exact (proj1 (Hgood ordersConnection ordersDatabase _ eq_refl eq_refl eq_refl)).
Defined.

(** X23. What is typed in the input and data editors is what the next
    evaluation sends: after [setInput] of a text that parses, the request
    of [evaluate] carries the parsed value as [input], with the [data]
    the database had. *)
Theorem setInput_then_evaluate (env : Env)
    (parse : string → js_error + jsval) (text : option string) (rego : string)
    (s : State) (connection : Connection.t) (db : Database.t) (value : jsval) :
  active s = Some connection →
  databases s !! Connection.name connection = Some db →
  parseOrEmpty parse text = inr value →
  Outcome.trace (evaluate env rego (Outcome.store (setInput parse text s)))
  = [Fetch {| Request.url := "/v0/preview/conditions";
              Request.method := "POST";
              Request.json :=
                JObj [("input", value);
                      ("data", Database.data db);
                      ("rego_modules", JObj [("main.rego", JStr rego)])] |}].
Proof.
  intros Ha Hdb Hp.
  unfold setInput, set, assignParsed. rewrite Ha, Hp.
  rewrite (assign_Some _ _ _ _ db) by done. cbn [Outcome.store].
  rewrite (evaluate_trace env rego _ connection (withInput value db));
    [done|done|].
  simpl. apply lookup_insert_eq.
Qed.

Lemma setInput_then_evaluate_witness :
  Outcome.trace
    (evaluate shop "package conditions"
       (Outcome.store
          (setInput (λ _, inr (JObj [("budget", JStr "low")]))
             (Some "{ budget: low }") ordersStore)))
  = [Fetch {| Request.url := "/v0/preview/conditions";
              Request.method := "POST";
              Request.json :=
                JObj [("input", JObj [("budget", JStr "low")]);
                      ("data", JUndefined);
                      ("rego_modules",
                       JObj [("main.rego", JStr "package conditions")])] |}].
Proof.
  exact (setInput_then_evaluate shop (λ _, inr (JObj [("budget", JStr "low")]))
           (Some "{ budget: low }") "package conditions" ordersStore
           ordersConnection ordersDatabase _ eq_refl eq_refl eq_refl).
Defined.

(** X24. [setRego] and [setQuery] write the editor's text, absent
    included, on the active database and nothing else.  With no session
    they throw and the store is as it was.  With a session on a name that
    has no entry the store is as it was too: they throw, unless the name
    is inherited from [Object.prototype] and the write lands there. *)
Theorem editors_write_one_field (s : State) (text : option string) :
  (active s = None →
   Outcome.value (setRego text s) = inl (readOfUndefined "name")
   ∧ Outcome.value (setQuery text s) = inl (readOfUndefined "name")
   ∧ Outcome.store (setRego text s) = s
   ∧ Outcome.store (setQuery text s) = s)
  ∧ (∀ connection,
       active s = Some connection →
       databases s !! Connection.name connection = None →
       Outcome.store (setRego text s) = s
       ∧ Outcome.store (setQuery text s) = s
       ∧ (inheritedName (Connection.name connection) = false →
            Outcome.value (setRego text s) = inl (writeOfUndefined "rego")
            ∧ Outcome.value (setQuery text s) = inl (writeOfUndefined "query"))
       ∧ (inheritedName (Connection.name connection) = true →
            Outcome.value (setRego text s) = inr tt
            ∧ Outcome.value (setQuery text s) = inr tt))
  ∧ (∀ connection db,
       active s = Some connection →
       databases s !! Connection.name connection = Some db →
       Outcome.value (setRego text s) = inr tt
       ∧ Outcome.value (setQuery text s) = inr tt
       ∧ Outcome.store (setRego text s)
         = {| active := active s;
              databases :=
                <[Connection.name connection := withRego text db]>
                  (databases s) |}
       ∧ Outcome.store (setQuery text s)
         = {| active := active s;
              databases :=
                <[Connection.name connection := withQuery text db]>
                  (databases s) |}
       ∧ Database.rego (withRego text db) = text
       ∧ Database.query (withRego text db) = Database.query db
       ∧ Database.history (withRego text db) = Database.history db
       ∧ Database.query (withQuery text db) = text
       ∧ Database.rego (withQuery text db) = Database.rego db
       ∧ Database.history (withQuery text db) = Database.history db).
Proof.
  unfold setRego, setQuery, set, assignActive. split_and!.
  - by intros ->.
  - intros connection -> Hdb.
    destruct (inheritedName (Connection.name connection)) eqn:Hi.
    + by rewrite !assign_inherited.
    + by rewrite !assign_None.
  - intros connection db Ha Hdb. rewrite Ha.
    rewrite !(assign_Some _ _ _ _ db) by done. by rewrite Ha.
Qed.

Lemma editors_write_one_field_witness :
  active initialState = None
  ∧ Outcome.value (setQuery (Some "SELECT 1") initialState)
    = inl (readOfUndefined "name")
  ∧ Outcome.store (setQuery (Some "SELECT 1") ordersStore)
    = {| active := active ordersStore;
         databases :=
           <["orders" := withQuery (Some "SELECT 1") ordersDatabase]>
             (databases ordersStore) |}
  ∧ Outcome.value
      (setQuery (Some "SELECT 1")
         (Outcome.store (connect shop "invoices" initialState)))
    = inl (readOfUndefined "name")
  ∧ Outcome.value
      (setQuery (Some "SELECT 1")
         (Outcome.store (connect shop "constructor" initialState)))
    = inr tt
  ∧ Outcome.value
      (setQuery (Some "SELECT 1")
         {| active := Some ordersConnection; databases := ∅ |})
    = inl (writeOfUndefined "query").
Proof.
  destruct (editors_write_one_field initialState (Some "SELECT 1"))
    as (Hnone & _ & _).
  destruct (editors_write_one_field ordersStore (Some "SELECT 1"))
    as (_ & _ & Hsome).
  destruct (editors_write_one_field
              (Outcome.store (connect shop "invoices" initialState))
              (Some "SELECT 1")) as (Hrejected & _ & _).
  destruct (editors_write_one_field
              (Outcome.store (connect shop "constructor" initialState))
              (Some "SELECT 1")) as (_ & Hinherited & _).
  destruct (editors_write_one_field
              {| active := Some ordersConnection; databases := ∅ |}
              (Some "SELECT 1")) as (_ & Hmissing & _).
  destruct (Hnone eq_refl) as (_ & Hv & _).
  destruct (Hsome ordersConnection ordersDatabase eq_refl eq_refl)
    as (_ & _ & _ & Hs & _).
  destruct (Hrejected eq_refl) as (_ & Hv' & _).
  destruct (Hinherited
              {| Connection.name := "constructor";
                 Connection.postgres :=
                   {| dataDir := "idb://constructor"; instance := 1 |} |}
              eq_refl eq_refl) as (_ & _ & _ & Hin).
  destruct (Hmissing ordersConnection eq_refl eq_refl) as (_ & _ & Hout & _).
  split_and!; [reflexivity|exact Hv|exact Hs|exact Hv'
              |exact (proj2 (Hin eq_refl))|exact (proj2 (Hout eq_refl))].
Defined.

(** A handler's promise with its two toasts attached. *)
Lemma toasted_settles {A} (promise : M A) (s : State) :
  Outcome.value
    (bind (toasted promise) (λ shown, ret (Some shown)) s)
  = inr (Some match Outcome.value (promise s) with
              | inr _ => ToastSuccess "completed" 500
              | inl err => ToastError (message err) 2000
              end)
  ∧ Outcome.store (bind (toasted promise) (λ shown, ret (Some shown)) s)
    = Outcome.store (promise s)
  ∧ Outcome.trace (bind (toasted promise) (λ shown, ret (Some shown)) s)
    = Outcome.trace (promise s).
Proof.
  unfold toasted. settle.
  destruct (Outcome.value (promise s)); cbn; by rewrite ?app_nil_r.
Qed.

(** X25. The Run and Evaluate handlers never reject.  With an absent or
    empty text they do nothing at all: no call, no toast, no write.
    Otherwise they leave the store and make the calls of the operation
    they start ([execute] without policy, [execute] with the policy text
    and the filter flag, [evaluate]) and show one toast: [completed]
    when it resolved, the error's message when it was rejected. *)
Theorem handlers_report (env : Env) (s : State) :
  (∀ rego,
     runAllQuery env None s = ret None s
     ∧ runAllQuery env (Some "") s = ret None s
     ∧ runAllQueryFiltered env None rego s = ret None s
     ∧ runAllQueryFiltered env (Some "") rego s = ret None s
     ∧ evalQuery env None s = ret None s
     ∧ evalQuery env (Some "") s = ret None s)
  ∧ (∀ query rego,
       query ≠ "" →
       (Outcome.value (runAllQuery env (Some query) s)
        = inr (Some match Outcome.value (execute env query None None s) with
                    | inr _ => ToastSuccess "completed" 500
                    | inl err => ToastError (message err) 2000
                    end)
        ∧ Outcome.store (runAllQuery env (Some query) s)
          = Outcome.store (execute env query None None s)
        ∧ Outcome.trace (runAllQuery env (Some query) s)
          = Outcome.trace (execute env query None None s))
       ∧ (Outcome.value (runAllQueryFiltered env (Some query) rego s)
          = inr (Some match Outcome.value
                              (execute env query rego (Some true) s) with
                      | inr _ => ToastSuccess "completed" 500
                      | inl err => ToastError (message err) 2000
                      end)
          ∧ Outcome.store (runAllQueryFiltered env (Some query) rego s)
            = Outcome.store (execute env query rego (Some true) s)
          ∧ Outcome.trace (runAllQueryFiltered env (Some query) rego s)
            = Outcome.trace (execute env query rego (Some true) s)))
  ∧ (∀ rego,
       rego ≠ "" →
       Outcome.value (evalQuery env (Some rego) s)
       = inr (Some match Outcome.value (evaluate env rego s) with
                   | inr _ => ToastSuccess "completed" 500
                   | inl err => ToastError (message err) 2000
                   end)
       ∧ Outcome.store (evalQuery env (Some rego) s)
         = Outcome.store (evaluate env rego s)
       ∧ Outcome.trace (evalQuery env (Some rego) s)
         = Outcome.trace (evaluate env rego s)).
Proof.
  split_and!.
  - done.
  - intros [|c query] rego Hq; [done|]. split; apply toasted_settles.
  - intros [|c rego] Hr; [done|]. apply toasted_settles.
Qed.

Lemma handlers_report_witness :
  Outcome.value (runAllQuery brokenEngine (Some "SELEC") ordersStore)
  = inr (Some (ToastError "syntax error at or near SELEC" 2000))
  ∧ Outcome.value (evalQuery shop (Some "package conditions") ordersStore)
    = inr (Some (ToastSuccess "completed" 500)).
Proof.
  destruct (handlers_report brokenEngine ordersStore) as (_ & Hrun & _).
  destruct (handlers_report shop ordersStore) as (_ & _ & Heval).
  split.
  - exact (proj1 (proj1 (Hrun "SELEC" None ltac:(discriminate)))).
  - exact (proj1 (Heval "package conditions" ltac:(discriminate))).
Defined.

Lemma length_zero (t : string) : (String.length t =? 0)%nat = String.eqb t "".
Proof. by destruct t. Qed.

(** X26. The Run buttons and [execute] agree on what a blank statement
    is: a button is disabled exactly for the texts that [execute] would
    refuse, the absent one and those of white space only.  So when the
    button is enabled and a session is active on an entry of the
    registry, Run Unfiltered sends the editor's text to the engine as it
    is, in its only call. *)
Theorem enabled_run_reaches_engine :
  disabled None = true
  ∧ (∀ query,
       disabled (Some query)
       = (String.eqb query "" || String.eqb (trim query) "")
       ∧ disabled (Some query) = allWhiteSpace query)
  ∧ (∀ env query s connection db,
       active s = Some connection →
       databases s !! Connection.name connection = Some db →
       disabled (Some query) = false →
       Outcome.trace (runAllQuery env (Some query) s)
       = [Exec (Connection.postgres connection) query]).
Proof.
  assert (∀ query, disabled (Some query) = allWhiteSpace query) as Hd.
  { intros query. unfold disabled. rewrite length_zero.
    rewrite <- blank_query.
    destruct (String.eqb_spec query "") as [->|]; [done|]. done. }
  split_and!; [done| |].
  - intros query. split; [|done]. by rewrite Hd, blank_query.
  - intros env query s connection db Ha Hdb Hen. rewrite Hd in Hen.
    destruct query as [|c query]; [done|].
    unfold runAllQuery.
    destruct (toasted_settles (execute env (String c query) None None) s)
      as (_ & _ & ->).
    destruct (execute_outcome env (String c query) None None s _ _ JUndefined
                Ha Hdb eq_refl) as (db1 & _ & _ & Hout).
    destruct (Hout _ eq_refl) as (_ & -> & _). by rewrite Hen.
Qed.

Lemma enabled_run_reaches_engine_witness :
  disabled (Some "SELECT 1") = false
  ∧ Outcome.trace (runAllQuery shop (Some "SELECT 1") ordersStore)
    = [Exec {| dataDir := "idb://orders"; instance := 1 |} "SELECT 1"].
Proof.
  split; [reflexivity|].
  exact (proj2 (proj2 enabled_run_reaches_engine) shop "SELECT 1" ordersStore
           ordersConnection ordersDatabase eq_refl eq_refl eq_refl).
Defined.

(** ** Across a restart *)






